(** * LLVM IR Divergence Analyzer: header scanning, extraction,
      normalization, chronological alignment and first divergence.

    A shallow embedding of [parser.py], [normalizer.py] and [analyzer.py].

    Conventions of the embedding.
    - A Python [str] is a [list ascii]; a character is a code point below
      256, classified ([isspace], [\w]) as Python classifies it.
    - A Python [dict] is an association list in insertion order
      ([Dict.t]): the normalizer iterates over [label_map.items()], so the
      order is observable.
    - Each compiled pattern is a function from the text at the current
      position (and the character before it, for [^] and [\b]) to the
      length of the match that [re] finds there; [Re.sub_from] is the
      left-to-right scan of [Pattern.sub].
    - Files are a finite map from paths to contents; reading is recorded
      in a trace so that what a scan touches can be stated. *)

From Stdlib Require Import Ascii String List Arith NArith Lia Bool DecimalString DecimalNat.
From stdpp Require Import base list gmap strings.

Coercion list_ascii_of_string : string >-> list.

(** ** Characters and the [str] methods the program uses *)

Module Text.

Definition code (c : ascii) : N := N_of_ascii c.

Definition in_range (lo hi : N) (c : ascii) : bool :=
  ((lo <=? code c) && (code c <=? hi))%N.

Definition chr_eqb (a b : ascii) : bool := Ascii.eqb a b.

(** [[0-9]] *)
Definition is_digit (c : ascii) : bool := in_range 48 57 c.

(** [[a-zA-Z_]] *)
Definition is_name_start (c : ascii) : bool :=
  in_range 97 122 c || in_range 65 90 c || chr_eqb c "_".

(** [[a-zA-Z0-9_]] *)
Definition is_name_char (c : ascii) : bool := is_name_start c || is_digit c.

(** [str.isspace] and [\s] of a [str] pattern, on code points below 256:
    TAB..CR, FS..US, SPACE, NEL and NBSP. *)
Definition isspace (c : ascii) : bool :=
  in_range 9 13 c || in_range 28 32 c || (code c =? 133)%N || (code c =? 160)%N.

(** [\w] of a [str] pattern on code points below 256: [str.isalnum] or
    the underscore.  Above 127 the alphanumerics are the Latin-1 letters
    and the superscript digits and vulgar fractions. *)
Definition is_word (c : ascii) : bool :=
  is_name_char c
  || (code c =? 170)%N || (code c =? 178)%N || (code c =? 179)%N
  || (code c =? 181)%N || (code c =? 185)%N || (code c =? 186)%N
  || in_range 188 190 c || in_range 192 214 c || in_range 216 246 c
  || in_range 248 255 c.

Definition newline : ascii := "010"%char.
Definition is_newline (c : ascii) : bool := chr_eqb c newline.
(** [.] of a pattern compiled without DOTALL *)
Definition is_dot (c : ascii) : bool := negb (is_newline c).

(** Length of the longest prefix of [s] whose characters satisfy [p]:
    what a greedy starred character class consumes. *)
Fixpoint run (p : ascii -> bool) (s : list ascii) : nat :=
  match s with
  | c :: s' => if p c then S (run p s') else 0
  | [] => 0
  end.

Definition lstrip_by (p : ascii -> bool) (s : list ascii) : list ascii :=
  drop (run p s) s.

Fixpoint rstrip_by (p : ascii -> bool) (s : list ascii) : list ascii :=
  match s with
  | [] => []
  | c :: s' =>
      match rstrip_by p s' with
      | [] => if p c then [] else [c]
      | r => c :: r
      end
  end.

(** [s.lstrip()], [s.rstrip()], [s.strip()] *)
Definition lstrip : list ascii -> list ascii := lstrip_by isspace.
Definition rstrip : list ascii -> list ascii := rstrip_by isspace.
Definition strip (s : list ascii) : list ascii := rstrip (lstrip s).

(** [s.rstrip(':')] and [s.strip('_')] *)
Definition rstrip_chr (x : ascii) : list ascii -> list ascii :=
  rstrip_by (fun c => chr_eqb c x).
Definition strip_chr (x : ascii) (s : list ascii) : list ascii :=
  rstrip_chr x (lstrip_by (fun c => chr_eqb c x) s).

(** Truthiness of a [str]: [not s] *)
Definition is_empty (s : list ascii) : bool :=
  match s with [] => true | _ => false end.

Fixpoint starts_with (p s : list ascii) : bool :=
  match p, s with
  | [], _ => true
  | a :: p', b :: s' => chr_eqb a b && starts_with p' s'
  | _ :: _, [] => false
  end.

Definition list_eqb (a b : list ascii) : bool := bool_decide (a = b).

(** A text without a newline: a line *)
Definition no_newline (s : list ascii) : Prop :=
  Forall (fun c => is_newline c = false) s.

(** Every white-space character is a single space, followed by a
    character that is not white space if by any. *)
Fixpoint single_spaced (s : list ascii) : Prop :=
  match s with
  | [] => True
  | c :: s' =>
      (isspace c = true ->
       c = " "%char /\ match s' with d :: _ => isspace d = false | [] => True end)
      /\ single_spaced s'
  end.

(** A text of white space only: a blank line *)
Definition blank (s : list ascii) : Prop := Forall (fun c => isspace c = true) s.

(** [s.split('\n')] *)
Fixpoint split_lines (s : list ascii) : list (list ascii) :=
  match s with
  | [] => [[]]
  | c :: s' =>
      if is_newline c then [] :: split_lines s'
      else match split_lines s' with
           | l :: ls => (c :: l) :: ls
           | [] => [[c]]
           end
  end.

(** ['\n'.join(ls)] *)
Fixpoint join_lines (ls : list (list ascii)) : list ascii :=
  match ls with
  | [] => []
  | [l] => l
  | l :: ls' => l ++ newline :: join_lines ls'
  end.

(** [str(n)] for a non-negative [int] *)
Definition decimal (n : nat) : list ascii :=
  list_ascii_of_string (NilEmpty.string_of_uint (Nat.to_uint n)).

End Text.

(** ** Python dictionaries, in insertion order *)

Module Dict.

Definition t : Type := list (list ascii * list ascii).

Fixpoint get (k : list ascii) (d : t) : option (list ascii) :=
  match d with
  | [] => None
  | (k', v) :: d' => if Text.list_eqb k k' then Some v else get k d'
  end.

(** [k in d] *)
Definition mem (k : list ascii) (d : t) : bool :=
  match get k d with Some _ => true | None => false end.

(** [d[k] = v]: a present key keeps its place, a new one goes last. *)
Fixpoint set (k v : list ascii) (d : t) : t :=
  match d with
  | [] => [(k, v)]
  | (k', v') :: d' =>
      if Text.list_eqb k k' then (k', v) :: d' else (k', v') :: set k v d'
  end.

(** [d[k]] where the key is known to be present; [[]] stands for the
    [KeyError] that the callers rule out by testing [k in d] first. *)
Definition get_or_empty (k : list ascii) (d : t) : list ascii :=
  match get k d with Some v => v | None => [] end.

End Dict.

(** ** The scan of [Pattern.sub] *)

Module Re.

(** A pattern at a position: the character before the position (none at
    the start of the string) and the text from the position on; the
    result is the length of the match found there. *)
Definition pattern : Type := option ascii -> list ascii -> option nat.

Section Sub.
Context {St : Type}.
Variable pat : pattern.
(** The replacement, called with the matched text; a replacement
    function may update the state it closes over. *)
Variable repl : list ascii -> St -> list ascii * St.

(** [sub_from prev skip s st]: the scan stands [skip] characters before
    the next position to try.  A match is replaced and the scan resumes
    right after it; an unmatched character is copied.  An empty match
    (no pattern of the program has one) inserts the replacement and
    copies the next character. *)
Fixpoint sub_from (prev : option ascii) (skip : nat) (s : list ascii) (st : St)
  : list ascii * St :=
  match s with
  | [] =>
      match skip, pat prev [] with
      | O, Some _ => repl [] st
      | _, _ => ([], st)
      end
  | c :: s' =>
      match skip with
      | S k => sub_from (Some c) k s' st
      | O =>
          match pat prev s with
          | Some (S n) =>
              let '(o, st1) := repl (take (S n) s) st in
              let '(r, st2) := sub_from (Some c) n s' st1 in
              (o ++ r, st2)
          | Some O =>
              let '(o, st1) := repl [] st in
              let '(r, st2) := sub_from (Some c) 0 s' st1 in
              (o ++ c :: r, st2)
          | None =>
              let '(r, st2) := sub_from (Some c) 0 s' st in
              (c :: r, st2)
          end
      end
  end.

Definition sub_st (s : list ascii) (st : St) : list ascii * St :=
  sub_from None 0 s st.
End Sub.

(** The pattern finds nothing at any position of [s]: such text is
    copied by the scan. *)
Fixpoint silent (pat : pattern) (prev : option ascii) (s : list ascii) : Prop :=
  pat prev s = None /\
  match s with
  | [] => True
  | c :: s' => silent pat (Some c) s'
  end.

(** [re.sub(pat, repl, s)] with a constant replacement text *)
Definition sub (pat : pattern) (repl : list ascii) (s : list ascii) : list ascii :=
  fst (sub_st pat (fun _ (u : unit) => (repl, u)) s tt).

(** [$] without MULTILINE: the end of the string, or just before a
    newline that ends the string. *)
Definition at_dollar (s : list ascii) : bool :=
  match s with
  | [] => true
  | [c] => Text.is_newline c
  | _ => false
  end.

(** [\b]: exactly one of the two neighbours is a word character. *)
Definition is_word_opt (c : option ascii) : bool :=
  match c with Some c => Text.is_word c | None => false end.
Definition word_boundary (prev next : option ascii) : bool :=
  xorb (is_word_opt prev) (is_word_opt next).

(** The character before a position is no word character, as
    everywhere in a blank line. *)
Definition blank_before (prev : option ascii) : Prop := is_word_opt prev = false.

(** "\b" + [re.escape(key)] + "\b" *)
Definition bounded_literal (key : list ascii) : pattern := fun prev s =>
  if word_boundary prev (head s)
     && Text.starts_with key s
     && word_boundary (last (option_list prev ++ key)) (head (drop (length key) s))
  then Some (length key) else None.

(** "\s+" *)
Definition whitespace_run : pattern := fun _ s =>
  match Text.run Text.isspace s with
  | O => None
  | n => Some n
  end.

End Re.

(** ** data_types.py *)

Record PassDump : Type := {
  pass_name : list ascii;
  pass_index : nat;
  file_path : list ascii
}.

Record ComparisonConfig : Type := {
  ignore_whitespace : bool;
  ignore_empty_lines : bool;
  ignore_temp_vars : bool;
  ignore_labels : bool;
  ignore_metadata : bool;
  ignore_debug_info : bool;
  ignore_comments : bool;
  verbose : bool;
  quiet : bool;
  excluded_legacy_passes : list (list ascii);
  excluded_npm_passes : list (list ascii)
}.

(** [ComparisonConfig()]: the defaults of the dataclass *)
Definition default_config : ComparisonConfig := {|
  ignore_whitespace := true;
  ignore_empty_lines := true;
  ignore_temp_vars := true;
  ignore_labels := true;
  ignore_metadata := true;
  ignore_debug_info := true;
  ignore_comments := false;
  verbose := false;
  quiet := false;
  excluded_legacy_passes := [];
  excluded_npm_passes := []
|}.

(** The field [pass_name] of a header is [hdr_pass_name] here: the name
    is taken by the field of [PassDump]. *)
Record ParsedHeader : Type := {
  hdr_pass_name : list ascii;
  original_line : list ascii;
  line_number : nat;
  dump_type : list ascii;
  target : list ascii
}.

Global Instance PassDump_eq_dec : EqDecision PassDump.
Proof. solve_decision. Defined.

(** ** normalizer.py *)

Module Normalizer.
Import Text.

(** [temp_var_pattern] is "%[a-zA-Z_][a-zA-Z0-9_]*\.?[0-9]*".  Every piece
    after the first two characters may be empty and nothing follows the
    last one, so the greedy choice of each piece is the match. *)
Definition temp_var_pattern : Re.pattern := fun _ s =>
  match s with
  | c0 :: c1 :: s1 =>
      if chr_eqb c0 "%" && is_name_start c1 then
        let n1 := run is_name_char s1 in
        let s2 := drop n1 s1 in
        let n2 := run (fun c => chr_eqb c ".") (take 1 s2) in
        let s3 := drop n2 s2 in
        let n3 := run is_digit s3 in
        Some (2 + n1 + n2 + n3)
      else None
  | _ => None
  end.

(** [label_pattern] is "^(" + name + "):" where name is the text of
    [temp_var_pattern] after its percent sign.  [^] holds at
    the start of the string only.  The colon is in none of the classes
    before it, so when it does not follow the greedy choice it follows
    no shorter one either: backtracking finds nothing more.  The length
    is that of the whole match, colon included. *)
Definition label_pattern : Re.pattern := fun prev s =>
  match prev, s with
  | None, c1 :: s1 =>
      if is_name_start c1 then
        let n1 := run is_name_char s1 in
        let s2 := drop n1 s1 in
        let n2 := run (fun c => chr_eqb c ".") (take 1 s2) in
        let s3 := drop n2 s2 in
        let n3 := run is_digit s3 in
        if starts_with ":" (drop n3 s3) then Some (1 + n1 + n2 + n3 + 1) else None
      else None
  | _, _ => None
  end.

(** [metadata_pattern.match(s)], the pattern being "^!.*$" *)
Definition metadata_pattern_match (s : list ascii) : bool :=
  match s with
  | c :: s' => chr_eqb c "!" && Re.at_dollar (drop (run is_dot s') s')
  | [] => false
  end.

(** [comment_pattern] is ";.*$": ".*" runs to the end of the line and [$]
    must hold there; a shorter choice leaves a character after it. *)
Definition comment_pattern : Re.pattern := fun _ s =>
  match s with
  | c :: s' =>
      if chr_eqb c ";" && Re.at_dollar (drop (run is_dot s') s')
      then Some (1 + run is_dot s') else None
  | [] => None
  end.

(** [debug_info_pattern] is ", !dbg ![0-9]+" *)
Definition debug_info_pattern : Re.pattern := fun _ s =>
  if starts_with ", !dbg !" s then
    match run is_digit (drop 8 s) with
    | O => None
    | n => Some (8 + n)
    end
  else None.

(** The closure [replace_temp_var]: [counter] and [var_map] are the
    state it updates. *)
Definition replace_temp_var (original : list ascii) (st : nat * Dict.t)
  : list ascii * (nat * Dict.t) :=
  let '(counter, var_map) := st in
  let '(counter, var_map) :=
    if negb (Dict.mem original var_map)
    then (S counter, Dict.set original ("%temp_" ++ decimal counter) var_map)
    else (counter, var_map) in
  (Dict.get_or_empty original var_map, (counter, var_map)).

(** The scan of [temp_var_pattern.sub(replace_temp_var, line)], [k]
    characters before the next position to try *)
Definition scan (k : nat) (s : list ascii) (st : nat * Dict.t)
  : list ascii * (nat * Dict.t) :=
  Re.sub_from temp_var_pattern replace_temp_var None k s st.

Definition _normalize_temp_vars (line : list ascii) (counter : nat) (var_map : Dict.t)
  : list ascii * nat * Dict.t :=
  let '(normalized, (counter, var_map)) := scan 0 line (counter, var_map) in
  (normalized, counter, var_map).

(** The closure [replace_label]; [match.group(1)] is the match without
    its final colon. *)
Definition replace_label (matched : list ascii) (st : nat * Dict.t)
  : list ascii * (nat * Dict.t) :=
  let '(counter, label_map) := st in
  let original := removelast matched in
  let '(counter, label_map) :=
    if negb (Dict.mem original label_map)
    then (S counter, Dict.set original ("label_" ++ decimal counter) label_map)
    else (counter, label_map) in
  (Dict.get_or_empty original label_map ++ ":", (counter, label_map)).

(** The loop over [label_map.items()]: one [re.sub] per known label, each
    on the result of the one before. *)
Definition replace_references (label_map : Dict.t) (normalized : list ascii)
  : list ascii :=
  fold_left
    (fun normalized '(original, normalized_label) =>
       Re.sub (Re.bounded_literal original) (rstrip_chr ":" normalized_label) normalized)
    label_map normalized.

Definition _normalize_labels (line : list ascii) (counter : nat) (label_map : Dict.t)
  : list ascii * nat * Dict.t :=
  let '(normalized, (counter, label_map)) :=
    Re.sub_st label_pattern replace_label line (counter, label_map) in
  let normalized := replace_references label_map normalized in
  (normalized, counter, label_map).

Definition _normalize_whitespace (line : list ascii) : list ascii :=
  let normalized := Re.sub Re.whitespace_run " " line in
  strip normalized.

(** What the substitution of [_normalize_whitespace] computes, read off
    character by character: [in_run] says that the character before was
    white space, already replaced. *)
Fixpoint collapse (in_run : bool) (s : list ascii) : list ascii :=
  match s with
  | [] => []
  | c :: s' =>
      if isspace c
      then (if in_run then collapse true s' else " "%char :: collapse true s')
      else c :: collapse false s'
  end.

(** The local variables of [normalize] that live across lines *)
Record locals : Type := {
  normalized_lines : list (list ascii);
  temp_var_counter : nat;
  label_counter : nat;
  temp_var_map : Dict.t;
  label_map : Dict.t
}.

Definition initial_locals : locals := {|
  normalized_lines := [];
  temp_var_counter := 0;
  label_counter := 0;
  temp_var_map := [];
  label_map := []
|}.

(** The stages applied to a line that is not skipped *)
Definition strip_comments (config : ComparisonConfig) (l : list ascii) : list ascii :=
  if ignore_comments config then Re.sub comment_pattern "" l else l.

Definition strip_debug_info (config : ComparisonConfig) (l : list ascii) : list ascii :=
  if ignore_debug_info config then Re.sub debug_info_pattern "" l else l.

(** One iteration of [for line in lines] *)
Definition normalize_line (config : ComparisonConfig) (st : locals) (line : list ascii)
  : locals :=
  if ignore_empty_lines config && is_empty (strip line) then st
  else if ignore_metadata config && metadata_pattern_match (strip line) then st
  else
    let normalized_line := strip_debug_info config (strip_comments config line) in
    let '(normalized_line, label_counter, label_map) :=
      if ignore_labels config
      then _normalize_labels normalized_line (label_counter st) (label_map st)
      else (normalized_line, label_counter st, label_map st) in
    let '(normalized_line, temp_var_counter, temp_var_map) :=
      if ignore_temp_vars config
      then _normalize_temp_vars normalized_line (temp_var_counter st) (temp_var_map st)
      else (normalized_line, temp_var_counter st, temp_var_map st) in
    let normalized_line :=
      if ignore_whitespace config
      then _normalize_whitespace normalized_line else normalized_line in
    {| normalized_lines :=
         if negb (is_empty (strip normalized_line))
         then normalized_lines st ++ [normalized_line]
         else normalized_lines st;
       temp_var_counter := temp_var_counter;
       label_counter := label_counter;
       temp_var_map := temp_var_map;
       label_map := label_map |}.

(** Every percent sign of the text is followed by a digit: the text has
    numbered temporaries only.  [pending] says that the character before
    was a percent sign. *)
Fixpoint numbered_from (pending : bool) (s : list ascii) : Prop :=
  match s with
  | [] => pending = false
  | c :: s' =>
      (pending = true -> is_digit c = true) /\ numbered_from (chr_eqb c "%") s'
  end.

Definition numbered (s : list ascii) : Prop := numbered_from false s.

(** A text without a percent sign *)
Definition no_percent (s : list ascii) : Prop :=
  Forall (fun c => chr_eqb c "%" = false) s.

(** What holds of the table of labels at every line: a key starts with a
    character that is not a digit, a value has no percent sign. *)
Definition label_map_ok (m : Dict.t) : Prop :=
  Forall (fun kv => (exists c k', kv.1 = c :: k' /\ is_digit c = false)
                    /\ no_percent kv.2) m.

(** The configuration with the option [ignore_temp_vars] set to [b] *)
Definition with_ignore_temp_vars (b : bool) (c : ComparisonConfig) : ComparisonConfig := {|
  ignore_whitespace := ignore_whitespace c;
  ignore_empty_lines := ignore_empty_lines c;
  ignore_temp_vars := b;
  ignore_labels := ignore_labels c;
  ignore_metadata := ignore_metadata c;
  ignore_debug_info := ignore_debug_info c;
  ignore_comments := ignore_comments c;
  verbose := verbose c;
  quiet := quiet c;
  excluded_legacy_passes := excluded_legacy_passes c;
  excluded_npm_passes := excluded_npm_passes c
|}.

(** The options that rename or delete inside a line are disabled. *)
Definition plain_options (config : ComparisonConfig) : Prop :=
  ignore_temp_vars config = false /\
  ignore_labels config = false /\
  ignore_debug_info config = false.

(** What one iteration appends under [plain_options]: the line to keep,
    if any *)
Definition line_out (config : ComparisonConfig) (line : list ascii)
  : option (list ascii) :=
  if ignore_empty_lines config && is_empty (strip line) then None
  else if ignore_metadata config && metadata_pattern_match (strip line) then None
  else
    let l1 := strip_comments config line in
    let l2 := if ignore_whitespace config then _normalize_whitespace l1 else l1 in
    if negb (is_empty (strip l2)) then Some l2 else None.

(** The list [normalized_lines] when the loop ends *)
Definition normalize_lines (config : ComparisonConfig) (ir_content : list ascii)
  : list (list ascii) :=
  let lines := split_lines ir_content in
  normalized_lines (fold_left (normalize_line config) lines initial_locals).

Definition normalize (config : ComparisonConfig) (ir_content : list ascii) : list ascii :=
  join_lines (normalize_lines config ir_content).

(** Two configurations with the same normalization options *)
Definition same_options (c1 c2 : ComparisonConfig) : Prop :=
  ignore_whitespace c1 = ignore_whitespace c2 /\
  ignore_empty_lines c1 = ignore_empty_lines c2 /\
  ignore_temp_vars c1 = ignore_temp_vars c2 /\
  ignore_labels c1 = ignore_labels c2 /\
  ignore_metadata c1 = ignore_metadata c2 /\
  ignore_debug_info c1 = ignore_debug_info c2 /\
  ignore_comments c1 = ignore_comments c2.

(** The configuration with the option [ignore_empty_lines] set to [b] *)
Definition with_ignore_empty_lines (b : bool) (c : ComparisonConfig) : ComparisonConfig := {|
  ignore_whitespace := ignore_whitespace c;
  ignore_empty_lines := b;
  ignore_temp_vars := ignore_temp_vars c;
  ignore_labels := ignore_labels c;
  ignore_metadata := ignore_metadata c;
  ignore_debug_info := ignore_debug_info c;
  ignore_comments := ignore_comments c;
  verbose := verbose c;
  quiet := quiet c;
  excluded_legacy_passes := excluded_legacy_passes c;
  excluded_npm_passes := excluded_npm_passes c
|}.

End Normalizer.

(** ** parser.py *)

(** The files of the run: a path names at most one content. *)
Abbreviation files := (gmap (list ascii) (list ascii)).

Module Parser.
Import Text.

(** The lines of a text file as iteration and [readlines] give them:
    each line keeps its newline; the text is what [read] returns. *)
Fixpoint readlines (s : list ascii) : list (list ascii) :=
  match s with
  | [] => []
  | c :: s' =>
      if is_newline c then [c] :: readlines s'
      else match readlines s' with
           | l :: ls => (c :: l) :: ls
           | [] => [[c]]
           end
  end.

(** "(.+)" before the rest of a pattern: the longest run of one or more
    characters other than newline after which the rest, [cont], matches. *)
Fixpoint greedy_plus {R : Type} (cont : list ascii -> option R) (s : list ascii)
  : option (nat * R) :=
  match s with
  | [] => None
  | c :: s' =>
      if is_dot c then
        match greedy_plus cont s' with
        | Some (n, r) => Some (S n, r)
        | None =>
            match cont s' with
            | Some r => Some (1, r)
            | None => None
            end
        end
      else None
  end.

(** "(.+?)" before the rest of a pattern: the shortest such run. *)
Fixpoint lazy_plus {R : Type} (cont : list ascii -> option R) (s : list ascii)
  : option (nat * R) :=
  match s with
  | [] => None
  | c :: s' =>
      if is_dot c then
        match cont s' with
        | Some r => Some (1, r)
        | None =>
            match lazy_plus cont s' with
            | Some (n, r) => Some (S n, r)
            | None => None
            end
        end
      else None
  end.

Definition literal (lit : list ascii) (s : list ascii) : option unit :=
  if starts_with lit s then Some tt else None.

Definition legacy_banner : list ascii := "*** IR Dump After ".
Definition npm_banner : list ascii := "; *** IR Dump After ".
Definition banner_end : list ascii := " ***".

(** "#?" *)
Definition optional_hash (s : list ascii) : list ascii :=
  drop (run (fun c => chr_eqb c "#") (take 1 s)) s.

(** [legacy_pattern.match(line).group(1)], the pattern being
    "^\s*#?\s*\*\*\* IR Dump After (.+) \*\*\*:?".  The banner starts with
    a star, which is neither white space nor a hash: giving back part of
    what the three greedy pieces before it took never lets it match. *)
Definition legacy_pattern_match (line : list ascii) : option (list ascii) :=
  let s := lstrip (optional_hash (lstrip line)) in
  if starts_with legacy_banner s then
    let r := drop (length legacy_banner) s in
    match greedy_plus (literal banner_end) r with
    | Some (n, _) => Some (take n r)
    | None => None
    end
  else None.

(** [npm_pattern.match(line).groups()], the pattern being
    "; \*\*\* IR Dump After (.+?) on (.+?) \*\*\*"; [match] tries the
    start of the line only. *)
Definition npm_pattern_match (line : list ascii)
  : option (list ascii * list ascii) :=
  if starts_with npm_banner line then
    let r := drop (length npm_banner) line in
    match lazy_plus
            (fun r1 => if starts_with " on " r1
                       then lazy_plus (literal banner_end) (drop 4 r1)
                       else None) r with
    | Some (n1, (n2, _)) => Some (take n1 r, take n2 (drop (n1 + 4) r))
    | None => None
    end
  else None.

(** "\(([^)]+)\)": the class takes every character up to the next closing
    parenthesis, and one must be there. *)
Definition parentheses_pattern : Re.pattern := fun _ s =>
  match s with
  | c :: s' =>
      let n := run (fun c => negb (chr_eqb c ")")) s' in
      if chr_eqb c "(" && (1 <=? n) && starts_with ")" (drop n s')
      then Some (n + 2) else None
  | [] => None
  end.

(** [re.findall(pattern, s)] for a pattern with one group that is the
    match without its first and last character *)
Definition findall_inner (pat : Re.pattern) (s : list ascii) : list (list ascii) :=
  snd (Re.sub_st pat (fun m acc => ([], acc ++ [removelast (drop 1 m)])) s []).

Definition _extract_last_parentheses (content : list ascii) : list ascii :=
  let parentheses_matches := findall_inner parentheses_pattern content in
  match last parentheses_matches with
  | Some m => strip m
  | None => strip content
  end.

(** The body of the loop of [_find_legacy_headers] for one line *)
Definition legacy_header (line_number : nat) (raw : list ascii) : option ParsedHeader :=
  let line := rstrip raw in
  match legacy_pattern_match line with
  | Some g =>
      let full_content := strip g in
      let pass_identifier := _extract_last_parentheses full_content in
      Some {| hdr_pass_name := pass_identifier;
              original_line := line;
              line_number := line_number;
              dump_type := "unknown";
              target := "unknown" |}
  | None => None
  end.

(** The body of the loop of [_find_npm_headers] for one line *)
Definition npm_header (line_number : nat) (raw : list ascii) : option ParsedHeader :=
  let line := rstrip raw in
  match npm_pattern_match line with
  | Some (g1, g2) =>
      let pass_name := strip g1 in
      let target := strip g2 in
      let '(dump_type, target_name) :=
        if list_eqb target "[module]"
        then ("module" : list ascii, "module" : list ascii)
        else ("function" : list ascii, target) in
      Some {| hdr_pass_name := pass_name;
              original_line := line;
              line_number := line_number;
              dump_type := dump_type;
              target := target_name |}
  | None => None
  end.

(** What a header says of its pass: canonical name, scope and target *)
Definition described (h : option ParsedHeader)
  : option (list ascii * list ascii * list ascii) :=
  (fun h => (hdr_pass_name h, dump_type h, target h)) <$> h.

(** [for line in file_handle: line_number += 1; ...] *)
Fixpoint headers_from (header : nat -> list ascii -> option ParsedHeader)
    (line_number : nat) (lines : list (list ascii)) : list ParsedHeader :=
  match lines with
  | [] => []
  | line :: lines' =>
      let line_number := line_number + 1 in
      match header line_number line with
      | Some h => h :: headers_from header line_number lines'
      | None => headers_from header line_number lines'
      end
  end.

Definition _find_legacy_headers (file_handle : list ascii) : list ParsedHeader :=
  headers_from legacy_header 0 (readlines file_handle).

Definition _find_npm_headers (file_handle : list ascii) : list ParsedHeader :=
  headers_from npm_header 0 (readlines file_handle).

(** [lines[start_line - 1:end_line - 1]], each line stripped on the right
    and ended by a newline.  The callers pass [start_line >= 2] and
    [end_line >= 1], so no index of the slice is negative. *)
Definition _extract_ir_content (lines : list (list ascii)) (start_line end_line : nat)
  : list ascii :=
  if length lines <=? start_line then []
  else
    let content_lines :=
      take ((end_line - 1) - (start_line - 1)) (drop (start_line - 1) lines) in
    concat (map (fun line => rstrip line ++ [newline]) content_lines).

(** One character of a class *)
Definition one_of (p : ascii -> bool) : Re.pattern := fun _ s =>
  match s with
  | c :: _ => if p c then Some 1 else None
  | [] => None
  end.

(** One or more characters of a class *)
Definition some_of (p : ascii -> bool) : Re.pattern := fun _ s =>
  match run p s with
  | O => None
  | n => Some n
  end.

Definition double_quote : ascii := "034"%char.
Definition backslash : ascii := "092"%char.

(** The class of the first substitution of [_sanitize_filename]:
    less-than, greater-than, colon, double quote, slash, backslash, bar,
    question mark and star *)
Definition is_problematic (c : ascii) : bool :=
  chr_eqb c "<" || chr_eqb c ">" || chr_eqb c ":" || chr_eqb c double_quote
  || chr_eqb c "/" || chr_eqb c backslash || chr_eqb c "|" || chr_eqb c "?"
  || chr_eqb c "*".

(** The class of the third one: comma, parentheses and square brackets *)
Definition is_bracket (c : ascii) : bool :=
  chr_eqb c "," || chr_eqb c "(" || chr_eqb c ")" || chr_eqb c "[" || chr_eqb c "]".

Definition _sanitize_filename (name : list ascii) : list ascii :=
  let clean := Re.sub (one_of is_problematic) "_" name in
  let clean := Re.sub (some_of isspace) "_" clean in
  let clean := Re.sub (one_of is_bracket) "_" clean in
  let clean := Re.sub (some_of (fun c => chr_eqb c "_")) "_" clean in
  let clean := strip_chr "_" clean in
  if 100 <? length clean then take 100 clean else clean.

(** The format [{index:03d}] *)
Definition pad3 (index : nat) : list ascii :=
  let d := decimal index in
  replicate (3 - length d) "0"%char ++ d.

Definition _generate_filename (index : nat) (pass_name target : list ascii)
  : list ascii :=
  let clean_name := _sanitize_filename pass_name in
  if negb (is_empty target) && negb (list_eqb target "unknown")
     && negb (list_eqb target "module")
  then
    let clean_target := _sanitize_filename target in
    pad3 index ++ "_" ++ clean_name ++ "_" ++ clean_target ++ ".ll"
  else pad3 index ++ "_" ++ clean_name ++ ".ll".

(** *** Paths

    [pathlib] on a POSIX system: a path object is its root, which is
    empty, "/" or "//", and its parts, none of which is empty, is "." or
    holds a slash. *)
Record PosixPath : Type := {
  root : list ascii;
  parts : list (list ascii)
}.

(** [s.split(x)] for a character [x] *)
Fixpoint split_at (x : ascii) (s : list ascii) : list (list ascii) :=
  match s with
  | [] => [[]]
  | c :: s' =>
      if chr_eqb c x then [] :: split_at x s'
      else match split_at x s' with
           | l :: ls => (c :: l) :: ls
           | [] => [[c]]
           end
  end.

Definition is_part (p : list ascii) : bool :=
  negb (is_empty p) && negb (list_eqb p ".").

(** [Path(s)]: exactly two leading slashes are kept as the root "//",
    any other number of them is the root "/"; empty components and "."
    are dropped, ".." is kept. *)
Definition Path (s : list ascii) : PosixPath :=
  {| root :=
       match run (fun c => chr_eqb c "/") s with
       | 0 => []
       | 2 => "//"
       | _ => "/"
       end;
     parts := List.filter is_part (split_at "/" s) |}.

(** [p / s]: an absolute [s] replaces [p]. *)
Definition joinpath (p : PosixPath) (s : list ascii) : PosixPath :=
  let q := Path s in
  if is_empty (root q) then {| root := root p; parts := parts p ++ parts q |}
  else q.

(** ["/".join(ps)] *)
Fixpoint join_parts (ps : list (list ascii)) : list ascii :=
  match ps with
  | [] => []
  | [p] => p
  | p :: ps' => p ++ "/" ++ join_parts ps'
  end.

(** [str(p)]; the path without root and parts is "." *)
Definition str_path (p : PosixPath) : list ascii :=
  match parts p with
  | [] => if is_empty (root p) then "." else root p
  | ps => root p ++ join_parts ps
  end.

(** [str(output_dir / filename)] *)
Definition path_join (output_dir : PosixPath) (filename : list ascii) : list ascii :=
  str_path (joinpath output_dir filename).

(** *** Writing files

    What ends an extraction early: [ValueError] for a path with a null
    character, [OSError] when the system refuses to create the file or a
    directory, or to write the content. *)
Inductive failure : Type :=
  | EmbeddedNull (path : list ascii)
  | CannotWrite (path : list ascii)
  | CannotMkdir (path : list ascii).

(** A call that returns or raises; nothing is said of the files after an
    exception. *)
Inductive attempt (A : Type) : Type :=
  | Done (a : A)
  | Raised (e : failure).
Arguments Done {A} a.
Arguments Raised {A} e.

Definition has_null (s : list ascii) : bool :=
  existsb (fun c => chr_eqb c "000") s.

Section Extraction.
(** The system's answer to [open(file_path, 'w')] followed by
    [f.write(content)].  A run writes each path once, so that a function
    of the path and the content stands for any behaviour of the system
    during the run. *)
Variable accepts : list ascii -> list ascii -> bool.

(** The exception is logged and raised again. *)
Definition _save_ir_to_file (content file_path : list ascii) (fs : files)
  : attempt files :=
  if has_null file_path then Raised (EmbeddedNull file_path)
  else if accepts file_path content then Done (<[file_path := content]> fs)
  else Raised (CannotWrite file_path).

(** The loop [for i, header in enumerate(headers)] of both
    [extract_legacy_dumps] and [extract_npm_dumps]; [rest] are the headers
    from [i] on, so that [headers[i + 1]] is the second of them.  The
    list [passes] is given back when the loop ends. *)
Fixpoint extract_loop (lines : list (list ascii)) (output_dir : PosixPath)
    (i : nat) (rest : list ParsedHeader) (fs : files)
  : attempt (list PassDump * files) :=
  match rest with
  | [] => Done ([], fs)
  | header :: rest' =>
      let start_line := line_number header in
      let end_line :=
        match rest' with
        | next :: _ => line_number next
        | [] => length lines
        end in
      let ir_content := _extract_ir_content lines (start_line + 1) end_line in
      let filename := _generate_filename i (hdr_pass_name header) (target header) in
      let file_path := path_join output_dir filename in
      match _save_ir_to_file ir_content file_path fs with
      | Raised e => Raised e
      | Done fs =>
          let pass_dump :=
            {| pass_name := hdr_pass_name header;
               pass_index := i;
               file_path := file_path |} in
          match extract_loop lines output_dir (i + 1) rest' fs with
          | Raised e => Raised e
          | Done (passes, fs) => Done (pass_dump :: passes, fs)
          end
      end
  end.

(** [input_file] is the text of the file. *)
Definition extract_legacy_dumps (input_file : list ascii) (output_dir : PosixPath)
    (fs : files) : attempt (list PassDump * files) :=
  let headers := _find_legacy_headers input_file in
  let lines := readlines input_file in
  extract_loop lines output_dir 0 headers fs.

Definition extract_npm_dumps (input_file : list ascii) (output_dir : PosixPath)
    (fs : files) : attempt (list PassDump * files) :=
  let headers := _find_npm_headers input_file in
  let lines := readlines input_file in
  extract_loop lines output_dir 0 headers fs.

End Extraction.

End Parser.

(** ** analyzer.py *)

Module Analyzer.

(** *** Chronological mapping *)

(** The local variables of [_create_chronological_mapping] *)
Record mapping_state : Type := {
  mapped_pairs : list (PassDump * PassDump);
  used_npm_indices : gset nat;
  last_npm_index : Z;
  skipped_legacy : list (list ascii);
  explicitly_excluded : list (list ascii)
}.

Definition initial_mapping_state : mapping_state := {|
  mapped_pairs := [];
  used_npm_indices := ∅;
  last_npm_index := -1;
  skipped_legacy := [];
  explicitly_excluded := []
|}.

Section Mapping.
(** The attributes of the analyzer that the mapping reads *)
Variable config : ComparisonConfig.
Variable legacy_dumps npm_dumps : list PassDump.
Variable pass_mapping : gmap (list ascii) (list ascii).

(** [for i, npm_pass in enumerate(self.npm_dumps)], from index [i] on *)
Fixpoint find_match_from (i : nat) (rest : list PassDump) (npm_pass_name : list ascii)
    (used_indices : gset nat) (last_index : Z) : option (nat * PassDump) :=
  match rest with
  | [] => None
  | npm_pass :: rest' =>
      if bool_decide (pass_name npm_pass = npm_pass_name)
         && bool_decide (i ∉ used_indices)
         && bool_decide (last_index < Z.of_nat i)%Z
      then Some (i, npm_pass)
      else find_match_from (i + 1) rest' npm_pass_name used_indices last_index
  end.

Definition _find_valid_npm_match (npm_pass_name : list ascii)
    (used_indices : gset nat) (last_index : Z) : option (nat * PassDump) :=
  find_match_from 0 npm_dumps npm_pass_name used_indices last_index.

(** [self.pass_mapping.get(name)] followed by [if not npm_pass_name]: a
    missing entry and an empty name are the same. *)
Definition mapped_name (name : list ascii) : option (list ascii) :=
  match pass_mapping !! name with
  | Some n => if Text.is_empty n then None else Some n
  | None => None
  end.

(** One iteration of [for legacy_pass in self.legacy_dumps] *)
Definition mapping_step (st : mapping_state) (legacy_pass : PassDump) : mapping_state :=
  if bool_decide (pass_name legacy_pass ∈ excluded_legacy_passes config) then
    {| mapped_pairs := mapped_pairs st;
       used_npm_indices := used_npm_indices st;
       last_npm_index := last_npm_index st;
       skipped_legacy := skipped_legacy st;
       explicitly_excluded := explicitly_excluded st ++ [pass_name legacy_pass] |}
  else
    match mapped_name (pass_name legacy_pass) with
    | None =>
        {| mapped_pairs := mapped_pairs st;
           used_npm_indices := used_npm_indices st;
           last_npm_index := last_npm_index st;
           skipped_legacy := skipped_legacy st ++ [pass_name legacy_pass];
           explicitly_excluded := explicitly_excluded st |}
    | Some npm_pass_name =>
        if bool_decide (npm_pass_name ∈ excluded_npm_passes config) then
          {| mapped_pairs := mapped_pairs st;
             used_npm_indices := used_npm_indices st;
             last_npm_index := last_npm_index st;
             skipped_legacy := skipped_legacy st;
             explicitly_excluded :=
               explicitly_excluded st
               ++ [pass_name legacy_pass ++ " -> " ++ npm_pass_name] |}
        else
          match _find_valid_npm_match npm_pass_name
                  (used_npm_indices st) (last_npm_index st) with
          | Some (npm_idx, npm_pass) =>
              {| mapped_pairs := mapped_pairs st ++ [(legacy_pass, npm_pass)];
                 used_npm_indices := {[npm_idx]} ∪ used_npm_indices st;
                 last_npm_index := Z.of_nat npm_idx;
                 skipped_legacy := skipped_legacy st;
                 explicitly_excluded := explicitly_excluded st |}
          | None =>
              {| mapped_pairs := mapped_pairs st;
                 used_npm_indices := used_npm_indices st;
                 last_npm_index := last_npm_index st;
                 skipped_legacy := skipped_legacy st ++ [pass_name legacy_pass];
                 explicitly_excluded := explicitly_excluded st |}
          end
    end.

(** The record is set aside by an exclusion list: its name is in the
    list of the A side, or the name it maps to is in that of the B side. *)
Definition is_excluded (legacy_pass : PassDump) : bool :=
  bool_decide (pass_name legacy_pass ∈ excluded_legacy_passes config)
  || match mapped_name (pass_name legacy_pass) with
     | Some npm_pass_name => bool_decide (npm_pass_name ∈ excluded_npm_passes config)
     | None => false
     end.

(** The positions selected so far are [idxs], in the order of selection. *)
Definition selected (st : mapping_state) (idxs : list nat) : Prop :=
  Forall2 (fun i q => npm_dumps !! i = Some q.2) idxs (mapped_pairs st) /\
  (forall k x y, idxs !! k = Some x -> idxs !! S k = Some y -> x < y) /\
  used_npm_indices st = list_to_set idxs /\
  last_npm_index st = match last idxs with Some i => Z.of_nat i | None => (-1)%Z end.

(** What the loop has built after the records [l]: the paired records
    are among [l] and not excluded; the skipped names are those of the
    records of [l] that are neither excluded nor paired. *)
Definition accounted (l : list PassDump) (st : mapping_state) : Prop :=
  (forall a, a ∈ (mapped_pairs st).*1 -> a ∈ l /\ is_excluded a = false) /\
  skipped_legacy st =
    map pass_name
      (filter (fun a => is_excluded a = false /\ a ∉ (mapped_pairs st).*1) l).

(** The state when the loop ends *)
Definition mapping_loop : mapping_state :=
  fold_left mapping_step legacy_dumps initial_mapping_state.

Definition _create_chronological_mapping
  : list (PassDump * PassDump) * list (list ascii) :=
  (mapped_pairs mapping_loop, skipped_legacy mapping_loop).

End Mapping.

(** *** First divergence *)

(** What a call gives: a value, or the exception that [open] raises for a
    path that names no file. *)
Inductive outcome (A : Type) : Type :=
  | Returned (a : A)
  | FileNotFound (path : list ascii).
Arguments Returned {A} a.
Arguments FileNotFound {A} path.

(** A computation that reads files: the trace is the list of the paths
    opened so far, oldest first. *)
Definition io (A : Type) : Type := list (list ascii) -> outcome A * list (list ascii).

Definition ret {A : Type} (a : A) : io A := fun tr => (Returned a, tr).

Definition bind {A B : Type} (m : io A) (f : A -> io B) : io B := fun tr =>
  match m tr with
  | (Returned a, tr') => f a tr'
  | (FileNotFound p, tr') => (FileNotFound p, tr')
  end.

Notation "'let*' x ':=' m 'in' k" := (bind m (fun x => k))
  (at level 10, x name, m at level 100, k at level 200).

(** The dictionary that [_find_first_divergence] returns *)
Inductive divergence_result : Type :=
  | Divergence
      (divergence_index : nat)
      (legacy_pass npm_pass : PassDump)
      (last_common_index : option nat)
      (last_common_legacy last_common_npm : option PassDump)
      (legacy_ir npm_ir : list ascii)
  | NoDivergence.

Section Divergence.
Variable config : ComparisonConfig.
Variable fs : files.

Definition _load_and_normalize_ir (file_path : list ascii) : io (list ascii) :=
  fun tr =>
    match fs !! file_path with
    | Some content => (Returned (Normalizer.normalize config content), tr ++ [file_path])
    | None => (FileNotFound file_path, tr ++ [file_path])
    end.

(** [for i, (legacy_pass, npm_pass) in enumerate(mapped_pairs)], from
    index [i] on; [mapped_pairs] is the whole list, which the body
    indexes for the last common pair. *)
Fixpoint compare_from (mapped_pairs : list (PassDump * PassDump)) (i : nat)
    (rest : list (PassDump * PassDump)) : io divergence_result :=
  match rest with
  | [] => ret NoDivergence
  | (legacy_pass, npm_pass) :: rest' =>
      let* legacy_ir := _load_and_normalize_ir (file_path legacy_pass) in
      let* npm_ir := _load_and_normalize_ir (file_path npm_pass) in
      if negb (Text.list_eqb legacy_ir npm_ir) then
        ret (Divergence i legacy_pass npm_pass
               (if 0 <? i then Some (i - 1) else None)
               (if 0 <? i then fst <$> mapped_pairs !! (i - 1) else None)
               (if 0 <? i then snd <$> mapped_pairs !! (i - 1) else None)
               legacy_ir npm_ir)
      else compare_from mapped_pairs (i + 1) rest'
  end.

Definition _find_first_divergence (mapped_pairs : list (PassDump * PassDump))
  : io divergence_result :=
  compare_from mapped_pairs 0 mapped_pairs.

End Divergence.

(** Both files of a pair can be read, and their normalized texts are
    [legacy_ir] and [npm_ir]. *)
Definition normalized_sides (config : ComparisonConfig) (fs : files)
    (q : PassDump * PassDump) (legacy_ir npm_ir : list ascii) : Prop :=
  exists ca cb,
    fs !! file_path q.1 = Some ca /\ fs !! file_path q.2 = Some cb /\
    legacy_ir = Normalizer.normalize config ca /\
    npm_ir = Normalizer.normalize config cb.

Definition sides_agree (config : ComparisonConfig) (fs : files)
    (q : PassDump * PassDump) : Prop :=
  exists ir, normalized_sides config fs q ir ir.

(** The paths a scan opens for a list of pairs, in order *)
Definition paths_of (pairs : list (PassDump * PassDump)) : list (list ascii) :=
  concat (map (fun q => [file_path q.1; file_path q.2]) pairs).

End Analyzer.

(** ** normalizer.py with its objects

    The normalizer is an object, its tables are dictionaries that the
    closures of [_normalize_temp_vars] and [_normalize_labels] update in
    place, and a run makes many calls of [normalize] on one normalizer.
    Here the objects live in a store and the methods pass it along. *)

Module Store.
Import Text.

Inductive object : Type :=
  | DictObject (d : Dict.t)
  | NormalizerObject (config : ComparisonConfig).

(** The object at each address; a new object gets the next address. *)
Abbreviation address := nat.
Abbreviation store := (list object).

(** A method: it reads and writes the store, and ends with a value or
    with the exception for an attribute that is not there. *)
Definition M (A : Type) : Type := store -> option (A * store).

Definition ret {A : Type} (a : A) : M A := fun st => Some (a, st).

Definition bind {A B : Type} (m : M A) (k : A -> M B) : M B :=
  fun st =>
    match m st with
    | Some (a, st') => k a st'
    | None => None
    end.

Notation "'let!' x ':=' m 'in' k" := (bind m (fun x => k))
  (at level 10, x name, m at level 100, k at level 200, right associativity).
Notation "'let!' ' p ':=' m 'in' k" := (bind m (fun p => k))
  (at level 10, p strict pattern, m at level 100, k at level 200, right associativity).

(** [{}] *)
Definition new_dict : M address :=
  fun st => Some (length st, st ++ [DictObject []]).

Definition dict_at (st : store) (a : address) : Dict.t :=
  match st !! a with
  | Some (DictObject d) => d
  | _ => []
  end.

Definition update_dict (st : store) (a : address) (d : Dict.t) : store :=
  <[a := DictObject d]> st.

(** [self.config.<option>] *)
Definition config_at (st : store) (self : address) : option ComparisonConfig :=
  match st !! self with
  | Some (NormalizerObject config) => Some config
  | _ => None
  end.

Definition option_of (self : address) (option : ComparisonConfig -> bool) : M bool :=
  fun st =>
    match config_at st self with
    | Some config => Some (option config, st)
    | None => None
    end.

(** The closure [replace_temp_var]: [var_map] is the dictionary of the
    caller, [counter] the variable it shares with the enclosing call. *)
Definition replace_temp_var (var_map : address) (original : list ascii)
    (s : nat * store) : list ascii * (nat * store) :=
  let '(counter, st) := s in
  let '(counter, st) :=
    if negb (Dict.mem original (dict_at st var_map))
    then (S counter,
          update_dict st var_map
            (Dict.set original ("%temp_" ++ decimal counter) (dict_at st var_map)))
    else (counter, st) in
  (Dict.get_or_empty original (dict_at st var_map), (counter, st)).

Definition _normalize_temp_vars (line : list ascii) (counter : nat) (var_map : address)
  : M (list ascii * nat * address) :=
  fun st =>
    let '(normalized, (counter, st)) :=
      Re.sub_from Normalizer.temp_var_pattern (replace_temp_var var_map) None 0 line
        (counter, st) in
    Some ((normalized, counter, var_map), st).

Definition replace_label (label_map : address) (matched : list ascii)
    (s : nat * store) : list ascii * (nat * store) :=
  let '(counter, st) := s in
  let original := removelast matched in
  let '(counter, st) :=
    if negb (Dict.mem original (dict_at st label_map))
    then (S counter,
          update_dict st label_map
            (Dict.set original ("label_" ++ decimal counter) (dict_at st label_map)))
    else (counter, st) in
  (Dict.get_or_empty original (dict_at st label_map) ++ ":", (counter, st)).

Definition _normalize_labels (line : list ascii) (counter : nat) (label_map : address)
  : M (list ascii * nat * address) :=
  fun st =>
    let '(normalized, (counter, st)) :=
      Re.sub_from Normalizer.label_pattern (replace_label label_map) None 0 line
        (counter, st) in
    let normalized :=
      Normalizer.replace_references (dict_at st label_map) normalized in
    Some ((normalized, counter, label_map), st).

(** The local variables of [normalize] that live across lines; the two
    tables are addresses. *)
Record locals : Type := {
  normalized_lines : list (list ascii);
  temp_var_counter : nat;
  label_counter : nat;
  temp_var_map : address;
  label_map : address
}.

(** One iteration of [for line in lines] *)
Definition normalize_line (self : address) (loc : locals) (line : list ascii)
  : M locals :=
  let normalized_line := line in
  let! empty_lines := option_of self ignore_empty_lines in
  if empty_lines && is_empty (strip line) then ret loc
  else
    let! metadata := option_of self ignore_metadata in
    if metadata && Normalizer.metadata_pattern_match (strip line) then ret loc
    else
      let! comments := option_of self ignore_comments in
      let normalized_line :=
        if comments then Re.sub Normalizer.comment_pattern "" normalized_line
        else normalized_line in
      let! debug_info := option_of self ignore_debug_info in
      let normalized_line :=
        if debug_info then Re.sub Normalizer.debug_info_pattern "" normalized_line
        else normalized_line in
      let! labels := option_of self ignore_labels in
      let! '(normalized_line, label_counter, label_map) :=
        if labels
        then _normalize_labels normalized_line (label_counter loc) (label_map loc)
        else ret (normalized_line, label_counter loc, label_map loc) in
      let! temp_vars := option_of self ignore_temp_vars in
      let! '(normalized_line, temp_var_counter, temp_var_map) :=
        if temp_vars
        then _normalize_temp_vars normalized_line (temp_var_counter loc) (temp_var_map loc)
        else ret (normalized_line, temp_var_counter loc, temp_var_map loc) in
      let! whitespace := option_of self ignore_whitespace in
      let normalized_line :=
        if whitespace then Normalizer._normalize_whitespace normalized_line
        else normalized_line in
      ret {| normalized_lines :=
               if negb (is_empty (strip normalized_line))
               then normalized_lines loc ++ [normalized_line]
               else normalized_lines loc;
             temp_var_counter := temp_var_counter;
             label_counter := label_counter;
             temp_var_map := temp_var_map;
             label_map := label_map |}.

Fixpoint for_each (self : address) (lines : list (list ascii)) (loc : locals)
  : M locals :=
  match lines with
  | [] => ret loc
  | line :: lines' =>
      let! loc := normalize_line self loc line in
      for_each self lines' loc
  end.

(** [self.normalize(ir_content)] *)
Definition normalize (self : address) (ir_content : list ascii) : M (list ascii) :=
  let lines := split_lines ir_content in
  let! temp_var_map := new_dict in
  let! label_map := new_dict in
  let! loc :=
    for_each self lines
      {| normalized_lines := [];
         temp_var_counter := 0;
         label_counter := 0;
         temp_var_map := temp_var_map;
         label_map := label_map |} in
  ret (join_lines (normalized_lines loc)).

(** The result of a call *)
Definition result {A : Type} (r : option (A * store)) : option A := fst <$> r.

(** The store after calls of [normalize] on the texts, whatever they
    return *)
Fixpoint after_calls (self : address) (texts : list (list ascii)) (st : store) : store :=
  match texts with
  | [] => st
  | t :: texts' =>
      match normalize self t st with
      | Some (_, st') => after_calls self texts' st'
      | None => st
      end
  end.

(** The store of a call in progress: the store at the call, and the two
    tables of the call *)
Definition extended (st : store) (temp_var_map label_map : Dict.t) : store :=
  st ++ [DictObject temp_var_map; DictObject label_map].

(** The local variables of a call in progress, the tables being at the
    two addresses after those of the store at the call *)
Definition at_addresses (st : store) (loc : Normalizer.locals) : locals := {|
  normalized_lines := Normalizer.normalized_lines loc;
  temp_var_counter := Normalizer.temp_var_counter loc;
  label_counter := Normalizer.label_counter loc;
  temp_var_map := length st;
  label_map := S (length st)
|}.

End Store.


(** ** The scenario of the specification, and other concrete runs *)

Module Scenario.
Import Analyzer.

Definition dump (name : list ascii) (index : nat) (path : list ascii) : PassDump :=
  {| pass_name := name; pass_index := index; file_path := path |}.

Definition a0 : PassDump := dump "InstCombine" 0 "legacy/000_InstCombine.ll".
Definition a1 : PassDump := dump "early-cse" 1 "legacy/001_early-cse.ll".
Definition b0 : PassDump := dump "instcombine" 0 "npm/000_instcombine.ll".
Definition b1 : PassDump := dump "simplifycfg" 1 "npm/001_simplifycfg.ll".
Definition b2 : PassDump := dump "early-cse" 2 "npm/002_early-cse.ll".

Definition pipeline_a : list PassDump := [a0; a1].
Definition pipeline_b : list PassDump := [b0; b1; b2].

Definition mapping : gmap (list ascii) (list ascii) :=
  <[("InstCombine" : list ascii) := ("instcombine" : list ascii)]>
    (<[("early-cse" : list ascii) := ("early-cse" : list ascii)]> ∅).

(** The contents differ at the second pair only. *)
Definition contents : files :=
  <[file_path a0 := ("  %x = add i32 %a, 1" : list ascii)]>
    (<[file_path b0 := ("  %y = add i32 %b, 1" : list ascii)]>
       (<[file_path a1 := ("  ret i32 0" : list ascii)]>
          (<[file_path b2 := ("  ret i32 1" : list ascii)]> ∅))).

Definition with_exclusions (ea eb : list (list ascii)) : ComparisonConfig := {|
  ignore_whitespace := true;
  ignore_empty_lines := true;
  ignore_temp_vars := true;
  ignore_labels := true;
  ignore_metadata := true;
  ignore_debug_info := true;
  ignore_comments := false;
  verbose := false;
  quiet := false;
  excluded_legacy_passes := ea;
  excluded_npm_passes := eb
|}.

(** A configuration by its seven normalization options *)
Definition options (w e t l m d c : bool) : ComparisonConfig := {|
  ignore_whitespace := w;
  ignore_empty_lines := e;
  ignore_temp_vars := t;
  ignore_labels := l;
  ignore_metadata := m;
  ignore_debug_info := d;
  ignore_comments := c;
  verbose := false;
  quiet := false;
  excluded_legacy_passes := [];
  excluded_npm_passes := []
|}.

Definition nl : list ascii := [Text.newline].

(** The default options on a configuration that differs in what the
    normalizer does not read *)
Definition verbose_config : ComparisonConfig := {|
  ignore_whitespace := true;
  ignore_empty_lines := true;
  ignore_temp_vars := true;
  ignore_labels := true;
  ignore_metadata := true;
  ignore_debug_info := true;
  ignore_comments := false;
  verbose := true;
  quiet := false;
  excluded_legacy_passes := ["verify" : list ascii];
  excluded_npm_passes := []
|}.

(** A store that holds a new normalizer only, and one where a normalizer
    comes after a dictionary that is in use *)
Definition fresh_store : Store.store := [Store.NormalizerObject default_config].
Definition used_store : Store.store :=
  [Store.DictObject [("%a" : list ascii, "%temp_7" : list ascii)];
   Store.NormalizerObject verbose_config].

(** A block with a label, and a name that starts with a digit and ends
    with the name of the label *)
Definition labelled_block : list ascii :=
  "a:" ++ nl ++ "  %1.a = add i32 %1, 1".

(** Two blocks that differ by the names of their temporaries: the second
    is the first with [%1] renamed to [%2] and [%x] to [%y]. *)
Definition block_a : list ascii :=
  "  %1 = add i32 %x, 1" ++ nl ++ "  ret i32 %1".
Definition block_b : list ascii :=
  "  %2 = add i32 %y, 1" ++ nl ++ "  ret i32 %2".

(** [s.replace(old, new)] *)
Definition replace (old new s : list ascii) : list ascii :=
  Re.sub (fun _ t => if Text.starts_with old t then Some (length old) else None) new s.

(** A dump of the bracketed dialect with two passes, of one and of two
    lines *)
Definition two_passes : list ascii :=
  "*** IR Dump After First Pass (first) ***" ++ nl ++
  "a1" ++ nl ++
  "*** IR Dump After Second Pass (second) ***" ++ nl ++
  "b1" ++ nl ++
  "b2" ++ nl.

(** The same dump in the semicolon dialect *)
Definition two_passes_npm : list ascii :=
  "; *** IR Dump After first on [module] ***" ++ nl ++
  "a1" ++ nl ++
  "; *** IR Dump After second on [module] ***" ++ nl ++
  "b1" ++ nl ++
  "b2" ++ nl.

End Scenario.
(** ** Vocabulary for the statements about the parser *)

Module ParserView.
Import Text Parser.

(** The scanner of a dialect, the function that recognizes its banner
    in a line, and its extraction *)
Definition scanner (npm : bool) : list ascii -> list ParsedHeader :=
  if npm then _find_npm_headers else _find_legacy_headers.
Definition recognizer (npm : bool) : nat -> list ascii -> option ParsedHeader :=
  if npm then npm_header else legacy_header.
Definition extractor (accepts : list ascii -> list ascii -> bool) (npm : bool)
  : list ascii -> PosixPath -> files -> attempt (list PassDump * files) :=
  if npm then extract_npm_dumps accepts else extract_legacy_dumps accepts.

(** The file of the header at position [k] of the headers found *)
Definition dump_path (output_dir : PosixPath) (k : nat) (h : ParsedHeader)
  : list ascii :=
  path_join output_dir (_generate_filename k (hdr_pass_name h) (target h)).

(** A file that cannot be saved, and the exception raised for it *)
Definition refused (accepts : list ascii -> list ascii -> bool)
    (path content : list ascii) : bool :=
  has_null path || negb (accepts path content).

Definition refusal (path : list ascii) : failure :=
  if has_null path then EmbeddedNull path else CannotWrite path.

(** The directory part of the paths of the files of [output_dir] *)
Definition directory_prefix (output_dir : PosixPath) : list ascii :=
  root output_dir ++ concat (map (fun p => p ++ "/") (parts output_dir)).

(** The [end_line] of the header at position [k] *)
Definition span_end (lines : list (list ascii)) (headers : list ParsedHeader)
    (k : nat) : nat :=
  match headers !! S k with
  | Some next => line_number next
  | None => length lines
  end.

(** The lines [first + 1 .. last] of a text, counted from 1, each
    stripped on the right and ended by a newline *)
Definition cleaned_lines (lines : list (list ascii)) (first last : nat) : list ascii :=
  concat (map (fun line => rstrip line ++ [newline]) (take (last - first) (drop first lines))).

(** What a substitution of a character class by [x] computes, one
    character at a time; [in_run] says that the character before was of
    the class, already replaced. *)
Fixpoint squeeze (p : ascii -> bool) (x : ascii) (in_run : bool) (s : list ascii)
  : list ascii :=
  match s with
  | [] => []
  | c :: s' =>
      if p c
      then (if in_run then squeeze p x true s' else x :: squeeze p x true s')
      else c :: squeeze p x false s'
  end.

(** A character that [_sanitize_filename] replaces *)
Definition is_replaced (c : ascii) : bool :=
  is_problematic c || isspace c || is_bracket c.

(** No two [x] in a row *)
Fixpoint no_double (x : ascii) (s : list ascii) : Prop :=
  match s with
  | a :: (b :: _) as t => ~ (a = x /\ b = x) /\ no_double x t
  | _ => True
  end.

(** Every opening parenthesis of [s] has a closing one after it in [s] *)
Fixpoint closed (s : list ascii) : Prop :=
  match s with
  | [] => True
  | c :: s' => (c = "("%char -> ")"%char ∈ s') /\ closed s'
  end.

End ParserView.

(** ** Vocabulary for the statements about the normalizer *)

Module NormalizerView.
Import Text Normalizer.

(** A table of [normalize] whose entries, in insertion order, have
    distinct keys and the values [prefix0], [prefix1], ...; [counter] is
    the number of the next entry. *)
Definition numbered_table (prefix : list ascii) (counter : nat) (m : Dict.t) : Prop :=
  counter = length m /\
  NoDup m.*1 /\
  forall i kv, m !! i = Some kv -> kv.2 = prefix ++ decimal i.

(** Two keys never share a value. *)
Definition injective_table (m : Dict.t) : Prop :=
  forall k1 k2 v, Dict.get k1 m = Some v -> Dict.get k2 m = Some v -> k1 = k2.

(** The characters of a line that are not white space *)
Definition visible (s : list ascii) : list ascii :=
  List.filter (fun c => negb (isspace c)) s.

(** A line that the loop of [normalize] passes over: a blank line, or a
    metadata line when these are ignored *)
Definition is_skipped (config : ComparisonConfig) (line : list ascii) : bool :=
  is_empty (strip line)
  || (ignore_metadata config && metadata_pattern_match (strip line)).

(** The part of a line that [normalize] goes on with when comments are
    ignored: the line up to its first semicolon *)
Definition before_comment (config : ComparisonConfig) (line : list ascii) : list ascii :=
  if ignore_comments config
  then take (run (fun c => negb (chr_eqb c ";")) line) line
  else line.

(** The digits at the start of a text *)
Definition leading_digits (s : list ascii) : list ascii :=
  take (run is_digit s) s.

(** For each percent sign of a text, in order, the digits that follow
    it: the numbers of its numbered temporaries, and nothing for a
    percent sign that is followed by something else *)
Fixpoint percent_runs (s : list ascii) : list (list ascii) :=
  match s with
  | [] => []
  | c :: s' =>
      if chr_eqb c "%" then leading_digits s' :: percent_runs s'
      else percent_runs s'
  end.

(** Two texts with the same percent signs and digits, the digits at
    their starts included *)
Definition same_runs (r s : list ascii) : Prop :=
  leading_digits r = leading_digits s /\ percent_runs r = percent_runs s.

(** The keys of the table of labels hold no percent sign and start with
    a character that is not a digit. *)
Definition label_keys_ok (m : Dict.t) : Prop :=
  Forall (fun kv => no_percent kv.1 /\
                    exists c k', kv.1 = c :: k' /\ is_digit c = false) m.

(** What holds of the tables of [normalize] at every line *)
Definition tables_ok (st : locals) : Prop :=
  numbered_table "%temp_" (temp_var_counter st) (temp_var_map st) /\
  numbered_table "label_" (label_counter st) (label_map st) /\
  label_keys_ok (label_map st).

End NormalizerView.

(** ** Vocabulary for the statements about the analyzer *)

Module AnalyzerView.
Import Analyzer.

Section Mapping.
Variable config : ComparisonConfig.
Variable npm_dumps : list PassDump.
Variable pass_mapping : gmap (list ascii) (list ascii).

(** What holds of the local variables of [_create_chronological_mapping]
    after the records [l] have been visited *)
Definition settled (l : list PassDump) (st : mapping_state) : Prop :=
  Forall (fun q =>
            q.1 ∈ l /\ q.2 ∈ npm_dumps /\
            mapped_name pass_mapping (pass_name q.1) = Some (pass_name q.2) /\
            (pass_name q.1 ∉ excluded_legacy_passes config) /\
            (pass_name q.2 ∉ excluded_npm_passes config))
         (mapped_pairs st) /\
  (mapped_pairs st).*1 `sublist_of` l /\
  length (mapped_pairs st) + length (skipped_legacy st)
    + length (explicitly_excluded st) = length l.

End Mapping.

Section Outcome.
Variable config : ComparisonConfig.
Variable fs : files.

(** What an outcome of [_find_first_divergence] on the pairs [all],
    with the files read in the order [tr], says about the pairs *)
Definition explains (all : list (PassDump * PassDump))
    (o : outcome divergence_result) (tr : list (list ascii)) : Prop :=
  match o with
  | Returned (Divergence i l n lci lcl lcn legacy_ir npm_ir) =>
      all !! i = Some (l, n) /\
      Forall (sides_agree config fs) (take i all) /\
      normalized_sides config fs (l, n) legacy_ir npm_ir /\
      legacy_ir <> npm_ir /\
      tr = paths_of (take (S i) all)
  | Returned NoDivergence =>
      Forall (sides_agree config fs) all /\ tr = paths_of all
  | FileNotFound p =>
      exists i q,
        all !! i = Some q /\
        Forall (sides_agree config fs) (take i all) /\
        ((fs !! file_path q.1 = None /\ p = file_path q.1 /\
          tr = paths_of (take i all) ++ [file_path q.1])
         \/
         (is_Some (fs !! file_path q.1) /\ fs !! file_path q.2 = None /\
          p = file_path q.2 /\ tr = paths_of (take (S i) all)))
  end.

End Outcome.

End AnalyzerView.

(** ** analyzer.py: the steps of the analysis *)

Module Pipeline.
Import Text Parser Analyzer.

Section Steps.
(** The answers of the system to the writing of a file and to
    [mkdir(parents=True, exist_ok=True)] *)
Variable accepts : list ascii -> list ascii -> bool.
Variable can_mkdir : list ascii -> bool.




End Steps.

End Pipeline.

(** ** analyzer.py: validation of the mapping *)

Module Validation.

(** [l.count(x)] *)
Definition count (x : list ascii) (l : list (list ascii)) : nat :=
  length (filter (fun y => y = x) l).

(** The list [duplicates] of [_validate_pass_mappings]; the warning is
    logged when it is not empty.  The order in which Python goes through
    [set(npm_passes)] is not specified; here it is that of
    [elements]. *)
Definition _validate_pass_mappings (pass_mapping : gmap (list ascii) (list ascii))
  : list (list ascii) :=
  let npm_passes := (map_to_list pass_mapping).*2 in
  filter (fun npm => 1 < count npm npm_passes)
         (elements (list_to_set npm_passes : gset (list ascii))).

(** [summary] in [_build_report_data] of reporter.py, with the arguments
    that [_generate_report] gives it *)
Record summary : Type := {
  total_legacy_passes : Z;
  total_npm_passes : Z;
  successfully_mapped : Z;
  skipped_legacy_passes : Z;
  unused_npm_passes : Z
}.

Definition _build_report_data_summary
    (mapped_pairs : list (PassDump * PassDump)) (skipped_legacy : list (list ascii))
    (legacy_total npm_total : Z) : summary := {|
  total_legacy_passes := legacy_total;
  total_npm_passes := npm_total;
  successfully_mapped := Z.of_nat (length mapped_pairs);
  skipped_legacy_passes := Z.of_nat (length skipped_legacy);
  unused_npm_passes := (npm_total - Z.of_nat (length mapped_pairs))%Z
|}.

End Validation.

(** ** Properties of the text primitives and of the scan *)

Module TextFacts.
Import Text.

Lemma run_le_length p s : run p s <= length s.
Proof. induction s as [|c s IH]; simpl; [lia|]. destruct (p c); simpl; lia. Qed.

Lemma run_app_stop p a c x : p c = false -> run p (a ++ c :: x) = run p a.
Proof.
  intros Hc. induction a as [|b a IH]; simpl.
  - by rewrite Hc.
  - destruct (p b); [by rewrite IH | done].
Qed.

Lemma run_take_one_app p s c x :
  p c = false -> run p (take 1 (s ++ c :: x)) = run p (take 1 s).
Proof. intros Hc. destruct s as [|b s]; simpl; [by rewrite Hc | done]. Qed.

Lemma drop_run_app p a c x :
  drop (run p a) (a ++ c :: x) = drop (run p a) a ++ c :: x.
Proof. apply drop_app_le, run_le_length. Qed.

Lemma chr_eqb_eq a b : chr_eqb a b = true <-> a = b.
Proof. apply Ascii.eqb_eq. Qed.

Lemma chr_eqb_refl a : chr_eqb a a = true.
Proof. apply Ascii.eqb_refl. Qed.

Lemma lstrip_by_nil p s :
  lstrip_by p s = [] <-> Forall (fun c => p c = true) s.
Proof.
  unfold lstrip_by. induction s as [|c s IH]; simpl.
  - split; [constructor|done].
  - destruct (p c) eqn:Hc; simpl.
    + rewrite IH. split; [by constructor|by inversion 1].
    + split; [done|]. inversion 1; congruence.
Qed.

Lemma rstrip_by_nil p s :
  rstrip_by p s = [] <-> Forall (fun c => p c = true) s.
Proof.
  induction s as [|c s IH]; simpl.
  - split; [constructor|done].
  - destruct (rstrip_by p s) as [|x r].
    + destruct (p c) eqn:Hc.
      * split; [|done]. intros _. constructor; [done|]. by apply IH.
      * split; [done|]. inversion 1; congruence.
    + split; [done|]. inversion 1 as [|? ? _ Hs]. by apply IH in Hs.
Qed.

(** After [lstrip] the text is empty or starts with a character that
    stays. *)
Lemma lstrip_by_shape p s :
  lstrip_by p s = [] \/ exists c t, lstrip_by p s = c :: t /\ p c = false.
Proof.
  unfold lstrip_by. induction s as [|c s IH]; simpl; [by left|].
  destruct (p c) eqn:Hc; simpl; [done|]. right. by exists c, s.
Qed.

Lemma rstrip_by_cons_keep p c s : p c = false -> rstrip_by p (c :: s) <> [].
Proof. intros Hc. simpl. destruct (rstrip_by p s); [by rewrite Hc|done]. Qed.

(** A line is blank when [strip] leaves nothing of it. *)
Lemma strip_nil s : strip s = [] <-> Forall (fun c => isspace c = true) s.
Proof.
  unfold strip, rstrip, lstrip. split.
  - intros H. apply lstrip_by_nil.
    destruct (lstrip_by_shape isspace s) as [E|(c & t & E & Hc)]; [done|].
    rewrite E in H. by apply rstrip_by_cons_keep in H.
  - intros H. apply lstrip_by_nil in H. by rewrite H.
Qed.

Lemma is_empty_true s : is_empty s = true <-> s = [].
Proof. by destruct s. Qed.

(** White space is none of the characters that open a match of the
    patterns of the normalizer, and is no word character. *)
Lemma isspace_plain c :
  isspace c = true ->
  chr_eqb c ";" = false /\ chr_eqb c "," = false /\ chr_eqb c "%" = false /\
  chr_eqb c "!" = false /\ is_name_start c = false /\ is_word c = false.
Proof.
  destruct c as [[] [] [] [] [] [] [] []]; vm_compute; intros H;
    first [discriminate H | done].
Qed.

Lemma run_all p s : Forall (fun c => p c = true) s -> run p s = length s.
Proof. induction 1 as [|c s Hc _ IH]; simpl; [done|]. by rewrite Hc, IH. Qed.

Lemma take_run_Forall p s : Forall (fun c => p c = true) (take (run p s) s).
Proof.
  induction s as [|c s IH]; simpl; [constructor|].
  destruct (p c) eqn:Hc; simpl; [by constructor|constructor].
Qed.

(** *** Lines *)

Lemma split_lines_no_newline s : Forall no_newline (split_lines s).
Proof.
  induction s as [|c s IH]; simpl.
  - repeat constructor.
  - destruct (is_newline c) eqn:Hc.
    + constructor; [constructor|done].
    + destruct (split_lines s) as [|l ls].
      * repeat constructor. done.
      * inversion IH; subst. constructor; [by constructor|done].
Qed.

Lemma split_lines_not_nil s : split_lines s <> [].
Proof.
  destruct s as [|c s]; simpl; [done|].
  destruct (is_newline c); [done|]. by destruct (split_lines s).
Qed.

Lemma split_lines_app l x :
  no_newline l -> split_lines (l ++ newline :: x) = l :: split_lines x.
Proof.
  induction 1 as [|c l Hc _ IH]; simpl.
  - done.
  - by rewrite Hc, IH.
Qed.

Lemma split_lines_single l : no_newline l -> split_lines l = [l].
Proof.
  induction 1 as [|c l Hc _ IH]; simpl; [done|]. by rewrite Hc, IH.
Qed.

Lemma split_join ls :
  ls <> [] -> Forall no_newline ls -> split_lines (join_lines ls) = ls.
Proof.
  induction ls as [|l ls IH]; [done|]. intros _ Hls.
  inversion Hls as [|? ? Hl Hls']; subst.
  destruct ls as [|l' ls'].
  - simpl. by apply split_lines_single.
  - change (join_lines (l :: l' :: ls')) with (l ++ newline :: join_lines (l' :: ls')).
    rewrite split_lines_app by done. f_equal. by apply IH.
Qed.

(** *** Stripping *)

Lemma rstrip_by_idem p s : rstrip_by p (rstrip_by p s) = rstrip_by p s.
Proof.
  induction s as [|c s IH]; [done|]. simpl.
  destruct (rstrip_by p s) as [|x r] eqn:E.
  - destruct (p c) eqn:Hc; simpl; [done|]. by rewrite Hc.
  - change (rstrip_by p (c :: x :: r)) with
      (match rstrip_by p (x :: r) with [] => if p c then [] else [c] | r' => c :: r' end).
    by rewrite IH.
Qed.

Lemma rstrip_by_keeps_head p s x r :
  rstrip_by p s = x :: r -> exists t, s = x :: t.
Proof.
  destruct s as [|c s]; [done|]. simpl.
  destruct (rstrip_by p s); [destruct (p c)|]; intros [= <- <-]; by eexists.
Qed.

Lemma rstrip_by_head p c s : p c = false -> exists t, rstrip_by p (c :: s) = c :: t.
Proof.
  intros Hc. simpl. destruct (rstrip_by p s) as [|x r].
  - rewrite Hc. by exists [].
  - by exists (x :: r).
Qed.

Lemma lstrip_by_keep p c s : p c = false -> lstrip_by p (c :: s) = c :: s.
Proof. intros Hc. unfold lstrip_by. simpl. by rewrite Hc. Qed.

Lemma lstrip_by_drop p c s : p c = true -> lstrip_by p (c :: s) = lstrip_by p s.
Proof. intros Hc. unfold lstrip_by. simpl. by rewrite Hc. Qed.

Lemma strip_idem s : strip (strip s) = strip s.
Proof.
  unfold strip, lstrip, rstrip.
  destruct (lstrip_by_shape isspace s) as [E|(c & t & E & Hc)]; rewrite E; [done|].
  destruct (rstrip_by_head isspace c t Hc) as [u Hu]. rewrite Hu.
  rewrite lstrip_by_keep by done. rewrite <- Hu. apply rstrip_by_idem.
Qed.

Lemma Forall_lstrip_by (P : ascii -> Prop) p s :
  Forall P s -> Forall P (lstrip_by p s).
Proof. apply Forall_drop. Qed.

Lemma Forall_rstrip_by (P : ascii -> Prop) p s :
  Forall P s -> Forall P (rstrip_by p s).
Proof.
  induction 1 as [|c s Hc _ IH]; simpl; [done|].
  destruct (rstrip_by p s); [destruct (p c); repeat constructor; done|].
  by constructor.
Qed.

Lemma Forall_strip (P : ascii -> Prop) s : Forall P s -> Forall P (strip s).
Proof. intros H. by apply Forall_rstrip_by, Forall_lstrip_by. Qed.

(** The first character of a line that is not white space *)
Lemma head_strip s : head (strip s) = head (lstrip s).
Proof.
  unfold strip, lstrip, rstrip.
  destruct (lstrip_by_shape isspace s) as [E|(c & t & E & Hc)]; rewrite E; [done|].
  by destruct (rstrip_by_head isspace c t Hc) as [u ->].
Qed.

Lemma head_lstrip_take n s :
  lstrip (take n s) <> [] -> head (lstrip (take n s)) = head (lstrip s).
Proof.
  unfold lstrip. revert n. induction s as [|c s IH]; intros n.
  - by rewrite take_nil.
  - destruct n as [|n]; [done|]. simpl take.
    destruct (isspace c) eqn:Hc.
    + rewrite !lstrip_by_drop by done. apply IH.
    + by rewrite !lstrip_by_keep.
Qed.

End TextFacts.

Module ReFacts.
Import Re.

Section Scan.
Context {St : Type}.
Variable pat : pattern.
Variable repl : list ascii -> St -> list ascii * St.

(** A pattern without [^] or [\b] does not look behind. *)
Lemma sub_from_prev (Hpat : forall p s, pat p s = pat None s) s :
  forall p k st, sub_from pat repl p k s st = sub_from pat repl None k s st.
Proof.
  induction s as [|c s IH]; intros p k st; simpl.
  - by rewrite Hpat.
  - destruct k; [|done]. by rewrite Hpat.
Qed.

(** Cutting the text where no match can cross: when the pattern sees
    the same thing with and without what follows [pre], and finds
    nothing at the end of a string, the scan of [pre ++ suf] is the
    scan of [pre] followed by the scan of [suf]. *)
Lemma sub_from_app suf
    (Hprev : forall p s, pat p s = pat None s)
    (Hnil : pat None [] = None) pre :
  (forall u v, pre = u ++ v -> v <> [] ->
     pat None (v ++ suf) = pat None v /\
     forall n, pat None v = Some n -> n <= length v) ->
  forall k st, k <= length pre ->
    sub_from pat repl None k (pre ++ suf) st =
    let '(o1, st1) := sub_from pat repl None k pre st in
    let '(o2, st2) := sub_from pat repl None 0 suf st1 in
    (o1 ++ o2, st2).
Proof.
  induction pre as [|c pre IH]; intros Hloc k st Hk.
  - simpl in Hk. assert (k = 0) as -> by lia. simpl. rewrite Hnil.
    by destruct (sub_from pat repl None 0 suf st).
  - assert (Hloc' : forall u v, pre = u ++ v -> v <> [] ->
       pat None (v ++ suf) = pat None v /\
       forall n, pat None v = Some n -> n <= length v).
    { intros u v -> Hv. apply (Hloc (c :: u) v); done. }
    specialize (IH Hloc').
    destruct k as [|k]; cbn [sub_from app].
    + destruct (Hloc [] (c :: pre) eq_refl ltac:(done)) as [Heq Hlen].
      change (c :: pre ++ suf) with ((c :: pre) ++ suf). rewrite Heq.
      destruct (pat None (c :: pre)) as [[|n]|] eqn:Hm.
      * destruct (repl [] st) as [o st1].
        rewrite !(sub_from_prev Hprev _ (Some c)).
        rewrite IH by (simpl; lia).
        destruct (sub_from pat repl None 0 pre st1) as [o1 st2].
        destruct (sub_from pat repl None 0 suf st2) as [o2 st3].
        by rewrite <- !app_assoc.
      * specialize (Hlen _ eq_refl). simpl in Hlen.
        rewrite take_app_le by (simpl; lia).
        destruct (repl (take (S n) (c :: pre)) st) as [o st1].
        rewrite !(sub_from_prev Hprev _ (Some c)).
        rewrite IH by lia.
        destruct (sub_from pat repl None n pre st1) as [o1 st2].
        destruct (sub_from pat repl None 0 suf st2) as [o2 st3].
        by rewrite <- !app_assoc.
      * rewrite !(sub_from_prev Hprev _ (Some c)).
        rewrite IH by (simpl; lia).
        destruct (sub_from pat repl None 0 pre st) as [o1 st2].
        destruct (sub_from pat repl None 0 suf st2) as [o2 st3].
        done.
    + rewrite !(sub_from_prev Hprev _ (Some c)).
      apply IH. simpl in Hk. lia.
Qed.

Lemma sub_from_cons_none prev c s st :
  pat prev (c :: s) = None ->
  sub_from pat repl prev 0 (c :: s) st =
  let '(r, st2) := sub_from pat repl (Some c) 0 s st in (c :: r, st2).
Proof. intros H. simpl. by rewrite H. Qed.

Lemma sub_from_silent s : forall prev st,
  silent pat prev s -> sub_from pat repl prev 0 s st = (s, st).
Proof.
  induction s as [|c s IH]; intros prev st [Hm Hq]; simpl; rewrite Hm; [done|].
  by rewrite IH.
Qed.
End Scan.

(** The scan resumes after the characters it skips. *)
Lemma sub_from_skip {St : Type} (pat : pattern) (repl : list ascii -> St -> list ascii * St)
    (Hpat : forall p s, pat p s = pat None s) s :
  forall k st, k <= length s ->
    sub_from pat repl None k s st = sub_from pat repl None 0 (drop k s) st.
Proof.
  induction s as [|c s IH]; intros k st Hk.
  - simpl in Hk. by replace k with 0 by lia.
  - destruct k as [|k]; [done|]. cbn [sub_from drop].
    rewrite (sub_from_prev pat repl Hpat). apply IH. simpl in Hk. lia.
Qed.

Lemma sub_silent pat r s : silent pat None s -> sub pat r s = s.
Proof. intros Hq. unfold sub, sub_st. by rewrite sub_from_silent. Qed.

End ReFacts.

(** ** The temporary-variable renaming *)

Module TempVars.
Import Text TextFacts Re ReFacts Normalizer.

Lemma is_name_start_percent : is_name_start "%" = false.
Proof. reflexivity. Qed.

Lemma is_digit_not_name_start d : is_digit d = true -> is_name_start d = false.
Proof.
  destruct d as [[] [] [] [] [] [] [] []]; vm_compute; congruence.
Qed.

Lemma is_digit_not_percent d : is_digit d = true -> chr_eqb d "%" = false.
Proof.
  destruct d as [[] [] [] [] [] [] [] []]; vm_compute; congruence.
Qed.

(** A match is a percent sign, a letter or underscore, and what the
    greedy pieces take of the rest. *)
Lemma temp_var_pattern_shape prev s n :
  temp_var_pattern prev s = Some n ->
  exists c s1, s = "%"%char :: c :: s1 /\ is_name_start c = true /\ 2 <= n <= length s.
Proof.
  unfold temp_var_pattern. destruct s as [|c0 [|c1 s1]]; try done.
  destruct (chr_eqb c0 "%") eqn:H0; [|done].
  destruct (is_name_start c1) eqn:H1; [|done]. simpl.
  intros [= <-]. apply chr_eqb_eq in H0 as ->.
  exists c1, s1. split; [done|]. split; [done|].
  set (s2 := drop (run is_name_char s1) s1).
  set (n2 := run (fun c => chr_eqb c ".") (take 1 s2)).
  pose proof (run_le_length is_name_char s1) as L1.
  pose proof (run_le_length (fun c => chr_eqb c ".") (take 1 s2)) as L2.
  pose proof (run_le_length is_digit (drop n2 s2)) as L3.
  fold n2 in L2. rewrite length_drop in L3.
  pose proof (length_take_le s2 1) as L4.
  assert (length (take 1 s2) <= length s2) by (rewrite length_take; lia).
  assert (length s2 = length s1 - run is_name_char s1) as E2
    by (unfold s2; by rewrite length_drop).
  simpl. lia.
Qed.

(** What follows a percent sign that opens no match does not change
    what the pattern finds before it. *)
Lemma temp_var_pattern_cut v x :
  v <> [] -> temp_var_pattern None (v ++ "%"%char :: x) = temp_var_pattern None v.
Proof.
  intros Hv. destruct v as [|c0 [|c1 s1]]; [done| |].
  - simpl. by rewrite is_name_start_percent, andb_false_r.
  - cbn [app temp_var_pattern].
    destruct (chr_eqb c0 "%" && is_name_start c1); [|done].
    rewrite (run_app_stop is_name_char) by done.
    rewrite drop_run_app.
    set (s2 := drop (run is_name_char s1) s1).
    rewrite (run_take_one_app (fun c => chr_eqb c ".")) by done.
    set (n2 := run (fun c => chr_eqb c ".") (take 1 s2)).
    assert (n2 <= length s2) as Hn2.
    { pose proof (run_le_length (fun c => chr_eqb c ".") (take 1 s2)).
      fold n2 in H. rewrite length_take in H. lia. }
    rewrite drop_app_le by done.
    by rewrite (run_app_stop is_digit) by done.
Qed.

Lemma temp_var_pattern_prev p s : temp_var_pattern p s = temp_var_pattern None s.
Proof. reflexivity. Qed.


Lemma scan_cut pre x st :
  scan 0 (pre ++ "%"%char :: x) st =
  let '(o1, st1) := scan 0 pre st in
  let '(o2, st2) := scan 0 ("%"%char :: x) st1 in
  (o1 ++ o2, st2).
Proof.
  unfold scan. apply sub_from_app; [done|done| |lia].
  intros u v -> Hv. split; [by apply temp_var_pattern_cut|].
  intros n Hn. apply temp_var_pattern_shape in Hn as (?&?&?&?&?). lia.
Qed.

(** Digits are copied. *)
Lemma scan_digits ds rest st :
  Forall (fun d => is_digit d = true) ds ->
  scan 0 (ds ++ rest) st =
  let '(o, st') := scan 0 rest st in (ds ++ o, st').
Proof.
  induction 1 as [|d ds Hd _ IH]; simpl.
  - by destruct (scan 0 rest st).
  - unfold scan in *. rewrite sub_from_cons_none.
    + rewrite (sub_from_prev _ _ temp_var_pattern_prev _ (Some d)).
      rewrite IH. by destruct (sub_from _ _ None 0 rest st).
    + unfold temp_var_pattern. destruct (ds ++ rest); [done|].
      by rewrite is_digit_not_percent.
Qed.

(** A percent sign before a digit is copied, and so are the digits. *)
Lemma scan_numbered d ds rest st :
  Forall (fun d => is_digit d = true) (d :: ds) ->
  scan 0 ("%"%char :: d :: ds ++ rest) st =
  let '(o, st') := scan 0 rest st in ("%"%char :: d :: ds ++ o, st').
Proof.
  intros Hds. unfold scan. rewrite sub_from_cons_none.
  - rewrite (sub_from_prev _ _ temp_var_pattern_prev _ (Some "%"%char)).
    pose proof (scan_digits (d :: ds) rest st Hds) as E. unfold scan in E.
    simpl app in E. rewrite E.
    by destruct (sub_from _ _ None 0 rest st).
  - unfold temp_var_pattern. rewrite is_digit_not_name_start; [done|].
    by inversion Hds.
Qed.

End TempVars.

(** ** Header recognition and extraction *)

Module ParserFacts.
Import Text TextFacts Parser.

Lemma rstrip_by_app p a b :
  rstrip_by p b <> [] -> rstrip_by p (a ++ b) = a ++ rstrip_by p b.
Proof.
  intros Hb. induction a as [|c a IH]; [done|].
  simpl. rewrite IH. destruct (rstrip_by p b) as [|x r]; [done|].
  by destruct a.
Qed.

Lemma lstrip_by_app p ws s :
  Forall (fun c => p c = true) ws -> lstrip_by p (ws ++ s) = lstrip_by p s.
Proof.
  unfold lstrip_by. induction 1 as [|c ws Hc _ IH]; [done|].
  simpl. by rewrite Hc.
Qed.

Lemma optional_hash_hash s : optional_hash ("#"%char :: s) = s.
Proof. reflexivity. Qed.

Lemma optional_hash_other c s :
  chr_eqb c "#" = false -> optional_hash (c :: s) = c :: s.
Proof. intros H. unfold optional_hash. simpl. by rewrite H. Qed.

(** The prefixes that the first three pieces of [legacy_pattern] accept:
    white space, at most one hash, white space. *)
Lemma legacy_pattern_match_prefix ws1 (hash : bool) ws2 t :
  Forall (fun c => isspace c = true) ws1 ->
  Forall (fun c => isspace c = true) ws2 ->
  legacy_pattern_match (ws1 ++ (if hash then ["#"%char] else []) ++ ws2 ++ "*"%char :: t)
  = legacy_pattern_match ("*"%char :: t).
Proof.
  intros H1 H2. unfold legacy_pattern_match.
  assert (lstrip (optional_hash (lstrip ("*"%char :: t))) = "*"%char :: t) as ->.
  { unfold lstrip. rewrite lstrip_by_keep by done.
    rewrite optional_hash_other by done. by rewrite lstrip_by_keep. }
  assert (lstrip (optional_hash (lstrip
            (ws1 ++ (if hash then ["#"%char] else []) ++ ws2 ++ "*"%char :: t)))
          = "*"%char :: t) as ->; [|done].
  unfold lstrip. rewrite lstrip_by_app by done. destruct hash.
  - change (["#"%char] ++ ws2 ++ "*"%char :: t) with ("#"%char :: ws2 ++ "*"%char :: t).
    rewrite lstrip_by_keep by done. rewrite optional_hash_hash.
    rewrite lstrip_by_app by done. by rewrite lstrip_by_keep.
  - change ([] ++ ws2 ++ "*"%char :: t) with (ws2 ++ "*"%char :: t).
    rewrite lstrip_by_app by done. rewrite lstrip_by_keep by done.
    rewrite optional_hash_other by done. by rewrite lstrip_by_keep.
Qed.

(** C7, as the code has it for the bracketed dialect.  A banner line
    preceded by white space, at most one hash marker and white space is
    recognized by the scanner of the bracketed dialect exactly when the
    line without the prefix is, with the same canonical name, scope and
    target. *)
Theorem legacy_header_tolerates_prefix
    (ws1 ws2 : list ascii) (hash : bool) (rest : list ascii) (n : nat) :
  Forall (fun c => isspace c = true) ws1 ->
  Forall (fun c => isspace c = true) ws2 ->
  described (legacy_header n
     (ws1 ++ (if hash then ["#"%char] else []) ++ ws2 ++ legacy_banner ++ rest))
  = described (legacy_header n (legacy_banner ++ rest)).
Proof.
  intros H1 H2. unfold legacy_header.
  destruct (rstrip_by_head isspace "*"%char
              (drop 1 legacy_banner ++ rest) eq_refl) as [t Ht].
  change ("*"%char :: drop 1 legacy_banner ++ rest) with (legacy_banner ++ rest) in Ht.
  set (h := if hash then ["#"%char] else []).
  replace (ws1 ++ h ++ ws2 ++ legacy_banner ++ rest)
    with ((ws1 ++ h ++ ws2) ++ (legacy_banner ++ rest))
    by (by rewrite <- !app_assoc).
  unfold rstrip. rewrite rstrip_by_app by (by rewrite Ht).
  rewrite Ht. rewrite <- !app_assoc. unfold h.
  rewrite legacy_pattern_match_prefix by done.
  by destruct (legacy_pattern_match ("*"%char :: t)).
Qed.

(** The span of the last header: [end_line] is the number of lines, and
    the slice stops before the line of that number, the last one. *)
Lemma last_span_one_line_short lines ln :
  ln < length lines ->
  _extract_ir_content lines (ln + 1) (length lines)
  = concat (map (fun line => rstrip line ++ [newline]) (removelast (drop ln lines))).
Proof.
  intros Hln. unfold _extract_ir_content.
  rewrite removelast_firstn_len, length_drop.
  replace (ln + 1 - 1) with ln by lia.
  replace (Nat.pred (length lines - ln)) with (length lines - 1 - ln) by lia.
  destruct (length lines <=? ln + 1) eqn:E; [|done].
  apply Nat.leb_le in E. by replace (length lines - 1 - ln) with 0 by lia.
Qed.

(** Extraction numbers the records by position, so no record occurs
    twice. *)
Lemma extract_loop_indexed accepts lines output_dir rest : forall i fs passes fs' k d,
  extract_loop accepts lines output_dir i rest fs = Done (passes, fs') ->
  passes !! k = Some d -> pass_index d = i + k.
Proof.
  induction rest as [|header rest IH]; intros i fs passes fs' k d; simpl.
  - by intros [= <- <-].
  - destruct (_save_ir_to_file _ _ _ fs) as [fs1|e]; [|done].
    destruct (extract_loop accepts lines output_dir (i + 1) rest fs1)
      as [[passes1 fs2]|e] eqn:E; [|done].
    intros [= <- <-]. destruct k as [|k]; simpl.
    + intros [= <-]. simpl. lia.
    + intros H. rewrite (IH _ _ _ _ _ _ E H). lia.
Qed.

Lemma extract_npm_dumps_indexed accepts input_file output_dir fs passes fs' k d :
  extract_npm_dumps accepts input_file output_dir fs = Done (passes, fs') ->
  passes !! k = Some d -> pass_index d = k.
Proof. unfold extract_npm_dumps. intros E H. by apply (extract_loop_indexed _ _ _ _ _ _ _ _ _ _ E) in H. Qed.

Lemma indexed_NoDup (l : list PassDump) :
  (forall k d, l !! k = Some d -> pass_index d = k) -> NoDup l.
Proof.
  intros H. apply NoDup_alt. intros i j d Hi Hj.
  apply H in Hi, Hj. congruence.
Qed.

Lemma extract_legacy_dumps_NoDup accepts input_file output_dir fs passes fs' :
  extract_legacy_dumps accepts input_file output_dir fs = Done (passes, fs') ->
  NoDup passes.
Proof.
  intros E. apply indexed_NoDup. unfold extract_legacy_dumps in E. intros k d H.
  by apply (extract_loop_indexed _ _ _ _ _ _ _ _ _ _ E) in H.
Qed.

End ParserFacts.
(** ** White space *)

Module WhitespaceFacts.
Import Text TextFacts Re ReFacts Normalizer.

Lemma whitespace_run_prev p s : whitespace_run p s = whitespace_run None s.
Proof. reflexivity. Qed.

(** The substitution of "\s+" by one space is [collapse]. *)
Lemma sub_whitespace_collapse s :
  sub_from whitespace_run (fun _ (u : unit) => ([" "%char], u)) None (run isspace s) s tt
    = (collapse true s, tt)
  /\
  sub_from whitespace_run (fun _ (u : unit) => ([" "%char], u)) None 0 s tt
    = (collapse false s, tt).
Proof.
  induction s as [|c s [IH1 IH2]].
  - done.
  - cbn [run collapse]. destruct (isspace c) eqn:Hc.
    + split.
      * cbn [sub_from]. by rewrite (sub_from_prev _ _ whitespace_run_prev).
      * cbn [sub_from]. unfold whitespace_run at 1. cbn [run]. rewrite Hc.
        rewrite (sub_from_prev _ _ whitespace_run_prev), IH1. done.
    + assert (sub_from whitespace_run (fun _ (u : unit) => ([" "%char], u)) None 0 (c :: s) tt
              = (c :: collapse false s, tt)) as E.
      { rewrite sub_from_cons_none.
        - by rewrite (sub_from_prev _ _ whitespace_run_prev), IH2.
        - unfold whitespace_run. cbn [run]. by rewrite Hc. }
      done.
Qed.

Lemma sub_whitespace s : Re.sub whitespace_run " " s = collapse false s.
Proof.
  unfold Re.sub, sub_st. change (list_ascii_of_string " ") with [" "%char].
  by rewrite (proj2 (sub_whitespace_collapse s)).
Qed.

Lemma _normalize_whitespace_collapse s :
  _normalize_whitespace s = strip (collapse false s).
Proof. unfold _normalize_whitespace. by rewrite sub_whitespace. Qed.

Lemma isspace_space : isspace " " = true.
Proof. reflexivity. Qed.

Lemma collapse_blank b s :
  Forall (fun c => isspace c = true) s ->
  Forall (fun c => isspace c = true) (collapse b s).
Proof.
  intros Hs. revert b. induction Hs as [|c s Hc _ IH]; intros b; simpl; [done|].
  rewrite Hc. destruct b; [done|]. constructor; [done|]. apply IH.
Qed.

Lemma _normalize_whitespace_blank s :
  Forall (fun c => isspace c = true) s -> _normalize_whitespace s = [].
Proof.
  intros Hs. rewrite _normalize_whitespace_collapse. apply strip_nil.
  by apply collapse_blank.
Qed.

Lemma is_newline_isspace c : isspace c = false -> is_newline c = false.
Proof.
  destruct (is_newline c) eqn:E; [|done].
  apply chr_eqb_eq in E as ->. done.
Qed.

(** Characters of the result are characters of the text or the space. *)
Lemma collapse_Forall (P : ascii -> Prop) b s :
  P " "%char -> Forall P s -> Forall P (collapse b s).
Proof.
  intros Hsp Hs. revert b. induction Hs as [|c s Hc _ IH]; intros b; simpl; [done|].
  destruct (isspace c); [destruct b|]; try constructor; auto.
Qed.

Lemma collapse_no_newline b s : no_newline (collapse b s).
Proof.
  revert b. induction s as [|c s IH]; intros b; simpl; [constructor|].
  destruct (isspace c) eqn:Hc; [destruct b|].
  - apply IH.
  - constructor; [done|apply IH].
  - constructor; [by apply is_newline_isspace|apply IH].
Qed.

Lemma collapse_single_spaced s :
  (forall b, single_spaced (collapse b s)) /\
  match collapse true s with d :: _ => isspace d = false | [] => True end.
Proof.
  induction s as [|c s [IH1 IH2]]; simpl; [done|].
  destruct (isspace c) eqn:Hc.
  - split; [|done]. intros [|]; [apply IH1|]. simpl. split; [done|apply IH1].
  - split; [|done]. intros b. simpl. split; [|apply IH1]. congruence.
Qed.

Lemma collapse_fixed s : single_spaced s -> collapse false s = s.
Proof.
  induction s as [|c s IH]; [done|]. intros [Hc Hs]. simpl.
  destruct (isspace c) eqn:E.
  - destruct (Hc eq_refl) as [-> Hnext]. f_equal.
    destruct s as [|d s']; [done|]. simpl. rewrite Hnext.
    specialize (IH Hs). simpl in IH. by rewrite Hnext in IH.
  - f_equal. by apply IH.
Qed.

Lemma single_spaced_drop n s : single_spaced s -> single_spaced (drop n s).
Proof.
  revert n. induction s as [|c s IH]; intros n Hs; [by rewrite drop_nil|].
  destruct n as [|n]; [done|]. simpl. apply IH. by destruct Hs.
Qed.

Lemma single_spaced_rstrip_by p s : single_spaced s -> single_spaced (rstrip_by p s).
Proof.
  induction s as [|c s IH]; [done|]. intros [Hc Hs]. simpl.
  destruct (rstrip_by p s) as [|x r] eqn:E.
  - destruct (p c); [done|]. simpl. split; [|done]. intros H.
    by destruct (Hc H) as [-> _].
  - destruct (rstrip_by_keeps_head _ _ _ _ E) as [t ->].
    specialize (IH Hs). simpl. split; [|done]. intros H.
    destruct (Hc H) as [-> Hnext]. done.
Qed.

Lemma single_spaced_strip s : single_spaced s -> single_spaced (strip s).
Proof. intros H. by apply single_spaced_rstrip_by, single_spaced_drop. Qed.

Lemma _normalize_whitespace_idem s :
  _normalize_whitespace (_normalize_whitespace s) = _normalize_whitespace s.
Proof.
  rewrite !_normalize_whitespace_collapse.
  rewrite collapse_fixed.
  - apply strip_idem.
  - apply single_spaced_strip, collapse_single_spaced.
Qed.

Lemma head_lstrip_collapse b s : head (lstrip (collapse b s)) = head (lstrip s).
Proof.
  unfold lstrip. revert b. induction s as [|c s IH]; intros b; [done|]. simpl.
  destruct (isspace c) eqn:Hc.
  - rewrite (lstrip_by_drop isspace c) by done. destruct b; [apply IH|].
    rewrite (lstrip_by_drop isspace " "%char) by done. apply IH.
  - by rewrite !lstrip_by_keep.
Qed.

Lemma head_strip_normalize_whitespace s :
  head (strip (_normalize_whitespace s)) = head (lstrip s).
Proof.
  rewrite _normalize_whitespace_collapse, strip_idem, head_strip.
  apply head_lstrip_collapse.
Qed.

End WhitespaceFacts.
(** ** The normalizer *)

Module NormalizerFacts.
Import Text TextFacts Re ReFacts Normalizer WhitespaceFacts.

(** *** Determinism *)

Lemma normalize_line_options c1 c2 st line :
  same_options c1 c2 -> normalize_line c1 st line = normalize_line c2 st line.
Proof.
  intros (Hw & He & Ht & Hl & Hm & Hd & Hc).
  unfold normalize_line, strip_comments, strip_debug_info.
  by rewrite Hw, He, Ht, Hl, Hm, Hd, Hc.
Qed.

Lemma fold_left_ext {A B : Type} (f g : A -> B -> A) (l : list B) :
  (forall a b, f a b = g a b) -> forall a, fold_left f l a = fold_left g l a.
Proof.
  intros Hfg. induction l as [|b l IH]; intros a; simpl; [done|].
  by rewrite Hfg, IH.
Qed.

Lemma normalize_options c1 c2 text :
  same_options c1 c2 -> normalize c1 text = normalize c2 text.
Proof.
  intros H. unfold normalize, normalize_lines. f_equal. f_equal.
  apply fold_left_ext. intros st line. by apply normalize_line_options.
Qed.


(** *** Blank lines *)

Lemma silent_blank pat :
  (forall prev s, blank_before prev -> blank s -> pat prev s = None) ->
  forall s prev, blank_before prev -> blank s -> silent pat prev s.
Proof.
  intros Hpat. induction s as [|c s IH]; intros prev Hprev Hs.
  - split; [by apply Hpat|done].
  - split; [by apply Hpat|]. inversion Hs as [|? ? Hc Hs']; subst.
    apply IH; [|done]. unfold blank_before. simpl.
    by apply isspace_plain in Hc as (_ & _ & _ & _ & _ & ->).
Qed.

Lemma comment_pattern_blank prev s : blank s -> comment_pattern prev s = None.
Proof.
  intros Hs. unfold comment_pattern. destruct s as [|c s]; [done|].
  inversion Hs as [|? ? Hc _]; subst.
  by apply isspace_plain in Hc as (-> & _).
Qed.

Lemma debug_info_pattern_blank prev s : blank s -> debug_info_pattern prev s = None.
Proof.
  intros Hs. unfold debug_info_pattern. destruct s as [|c s]; [done|].
  inversion Hs as [|? ? Hc _]; subst.
  apply isspace_plain in Hc as (_ & Hc & _).
  unfold chr_eqb in Hc. rewrite Ascii.eqb_sym in Hc.
  cbn [starts_with list_ascii_of_string]. unfold chr_eqb. by rewrite Hc.
Qed.

Lemma label_pattern_blank prev s : blank s -> label_pattern prev s = None.
Proof.
  intros Hs. unfold label_pattern. destruct prev; [done|].
  destruct s as [|c s]; [done|].
  inversion Hs as [|? ? Hc _]; subst.
  by apply isspace_plain in Hc as (_ & _ & _ & _ & -> & _).
Qed.

Lemma temp_var_pattern_blank prev s : blank s -> temp_var_pattern prev s = None.
Proof.
  intros Hs. unfold temp_var_pattern. destruct s as [|c [|c1 s]]; [done|done|].
  inversion Hs as [|? ? Hc _]; subst.
  by apply isspace_plain in Hc as (_ & _ & -> & _).
Qed.

Lemma bounded_literal_blank key prev s :
  blank_before prev -> blank s -> bounded_literal key prev s = None.
Proof.
  intros Hprev Hs. unfold bounded_literal.
  assert (word_boundary prev (head s) = false) as ->; [|done].
  unfold word_boundary. rewrite Hprev. destruct s as [|c s]; [done|].
  inversion Hs as [|? ? Hc _]; subst. simpl.
  by apply isspace_plain in Hc as (_ & _ & _ & _ & _ & ->).
Qed.

Lemma replace_references_blank label_map s :
  blank s -> replace_references label_map s = s.
Proof.
  intros Hs. unfold replace_references.
  induction label_map as [|[k v] m IH]; simpl; [done|].
  rewrite sub_silent; [done|].
  apply silent_blank; [|done|done]. intros. by apply bounded_literal_blank.
Qed.

Lemma _normalize_labels_blank s counter label_map :
  blank s -> _normalize_labels s counter label_map = (s, counter, label_map).
Proof.
  intros Hs. unfold _normalize_labels, sub_st.
  rewrite sub_from_silent.
  - by rewrite replace_references_blank.
  - apply silent_blank; [|done|done]. intros. by apply label_pattern_blank.
Qed.

Lemma _normalize_temp_vars_blank s counter var_map :
  blank s -> _normalize_temp_vars s counter var_map = (s, counter, var_map).
Proof.
  intros Hs. unfold _normalize_temp_vars, scan.
  rewrite sub_from_silent; [done|].
  apply silent_blank; [|done|done]. intros. by apply temp_var_pattern_blank.
Qed.

Lemma strip_comments_blank config s : blank s -> strip_comments config s = s.
Proof.
  intros Hs. unfold strip_comments. destruct (ignore_comments config); [|done].
  apply sub_silent, silent_blank; [|done|done]. intros. by apply comment_pattern_blank.
Qed.

Lemma strip_debug_info_blank config s : blank s -> strip_debug_info config s = s.
Proof.
  intros Hs. unfold strip_debug_info. destruct (ignore_debug_info config); [|done].
  apply sub_silent, silent_blank; [|done|done]. intros. by apply debug_info_pattern_blank.
Qed.

(** A blank line leaves the local variables as they are, whatever the
    options. *)
Lemma normalize_line_blank config st line :
  blank line -> normalize_line config st line = st.
Proof.
  intros Hb. unfold normalize_line.
  rewrite (proj2 (strip_nil line) Hb). simpl.
  destruct (ignore_empty_lines config); simpl; [done|].
  rewrite andb_false_r.
  rewrite strip_comments_blank, strip_debug_info_blank by done.
  assert ((if ignore_labels config
           then _normalize_labels line (label_counter st) (label_map st)
           else (line, label_counter st, label_map st))
          = (line, label_counter st, label_map st)) as ->.
  { destruct (ignore_labels config); [|done]. by apply _normalize_labels_blank. }
  assert ((if ignore_temp_vars config
           then _normalize_temp_vars line (temp_var_counter st) (temp_var_map st)
           else (line, temp_var_counter st, temp_var_map st))
          = (line, temp_var_counter st, temp_var_map st)) as ->.
  { destruct (ignore_temp_vars config); [|done]. by apply _normalize_temp_vars_blank. }
  assert (strip (if ignore_whitespace config then _normalize_whitespace line else line)
          = []) as ->.
  { destruct (ignore_whitespace config).
    - by rewrite _normalize_whitespace_blank.
    - by apply strip_nil. }
  simpl. by destruct st.
Qed.

Lemma normalize_line_empty_lines_option config st line :
  normalize_line config st line
  = normalize_line (with_ignore_empty_lines true config) st line.
Proof.
  destruct (is_empty (strip line)) eqn:Hs.
  - apply is_empty_true, strip_nil in Hs. by rewrite !normalize_line_blank.
  - unfold normalize_line, strip_comments, strip_debug_info. simpl.
    rewrite Hs. by rewrite !andb_false_r.
Qed.

(** Every line that is kept has something other than white space. *)
Lemma normalize_line_keeps_nonblank config st line :
  Forall (fun l => strip l <> []) (normalized_lines st) ->
  Forall (fun l => strip l <> []) (normalized_lines (normalize_line config st line)).
Proof.
  intros Hst. unfold normalize_line.
  destruct (ignore_empty_lines config && is_empty (strip line)); [done|].
  destruct (ignore_metadata config && metadata_pattern_match (strip line)); [done|].
  destruct (if ignore_labels config then _ else _) as [[l1 c1] m1].
  destruct (if ignore_temp_vars config then _ else _) as [[l2 c2] m2].
  simpl.
  destruct (is_empty (strip _)) eqn:Hs; simpl; [done|].
  apply Forall_app. split; [done|]. constructor; [|done].
  intros H. by rewrite H in Hs.
Qed.

(** C8, as the code has it.  Whether or not the option to drop blank
    lines is enabled, no blank line of the input is preserved: the output
    of [normalize] is the one it gives with the option enabled, and every
    line it keeps has something other than white space. *)
Theorem blank_lines_always_dropped (config : ComparisonConfig) (text : list ascii) :
  normalize config text = normalize (with_ignore_empty_lines true config) text
  /\
  Forall (fun l => strip l <> []) (normalize_lines config text).
Proof.
  split.
  - unfold normalize, normalize_lines. f_equal. f_equal.
    apply fold_left_ext. intros st line. apply normalize_line_empty_lines_option.
  - unfold normalize_lines.
    assert (Forall (fun l => strip l <> []) (normalized_lines initial_locals)) as Hinit
      by constructor.
    revert Hinit. generalize initial_locals.
    induction (split_lines text) as [|line lines IH]; intros st Hst; simpl; [done|].
    apply IH. by apply normalize_line_keeps_nonblank.
Qed.

(** *** Idempotence without renaming *)

Lemma comment_pattern_prev p s : comment_pattern p s = comment_pattern None s.
Proof. reflexivity. Qed.

(** On a line, the substitution of [comment_pattern] cuts at the first
    semicolon. *)
Lemma sub_comment_cut s :
  no_newline s ->
  Re.sub comment_pattern "" s = take (run (fun c => negb (chr_eqb c ";")) s) s.
Proof.
  unfold Re.sub, sub_st. induction 1 as [|c s Hc Hs IH]; [done|].
  cbn [run]. destruct (chr_eqb c ";") eqn:E; cbn [negb take].
  - assert (run is_dot s = length s) as Hrun.
    { apply run_all. unfold is_dot. eapply Forall_impl; [exact Hs|].
      simpl. intros x ->. done. }
    cbn [sub_from]. unfold comment_pattern at 1. rewrite E, Hrun, drop_all. simpl.
    rewrite (sub_from_prev _ _ comment_pattern_prev).
    rewrite sub_from_skip by (done || lia). by rewrite drop_all.
  - rewrite sub_from_cons_none by (unfold comment_pattern; by rewrite E).
    rewrite (sub_from_prev _ _ comment_pattern_prev).
    destruct (sub_from comment_pattern _ None 0 s tt) as [r u]. simpl in *.
    by rewrite IH.
Qed.

Lemma strip_comments_idem config s :
  no_newline s ->
  no_newline (strip_comments config s) /\
  (ignore_comments config = true ->
   Forall (fun c => negb (chr_eqb c ";") = true) (strip_comments config s)) /\
  (lstrip (strip_comments config s) <> [] ->
   head (lstrip (strip_comments config s)) = head (lstrip s)).
Proof.
  intros Hs. unfold strip_comments. destruct (ignore_comments config).
  - rewrite sub_comment_cut by done. split; [by apply Forall_take|].
    split; [intros _; apply take_run_Forall|]. apply head_lstrip_take.
  - done.
Qed.

Lemma strip_comments_fixed config s :
  no_newline s ->
  (ignore_comments config = true -> Forall (fun c => negb (chr_eqb c ";") = true) s) ->
  strip_comments config s = s.
Proof.
  intros Hs Hc. unfold strip_comments. destruct (ignore_comments config); [|done].
  rewrite sub_comment_cut by done. rewrite run_all by auto. apply firstn_all.
Qed.

Lemma metadata_pattern_match_head s :
  no_newline s ->
  metadata_pattern_match s = match s with c :: _ => chr_eqb c "!" | [] => false end.
Proof.
  intros Hs. destruct s as [|c s]; [done|]. simpl.
  inversion Hs as [|? ? _ Hs']; subst.
  rewrite run_all, drop_all; [by rewrite andb_true_r|].
  unfold is_dot. eapply Forall_impl; [exact Hs'|]. simpl. by intros x ->.
Qed.

Lemma metadata_pattern_match_same a b :
  no_newline a -> no_newline b -> head a = head b ->
  metadata_pattern_match a = metadata_pattern_match b.
Proof.
  intros Ha Hb Hh. rewrite !metadata_pattern_match_head by done.
  destruct a, b; simpl in Hh; congruence.
Qed.

(** A line that is kept is kept as it is when it is read again. *)
Lemma line_out_fixed config line l :
  no_newline line -> line_out config line = Some l ->
  no_newline l /\ line_out config l = Some l.
Proof.
  intros Hline. unfold line_out.
  destruct (ignore_empty_lines config && is_empty (strip line)); [done|].
  destruct (ignore_metadata config && metadata_pattern_match (strip line)) eqn:Hmeta;
    [done|].
  destruct (strip_comments_idem config line Hline) as (Hnl1 & Hsemi1 & Hhead1).
  set (l1 := strip_comments config line) in *.
  set (l2 := if ignore_whitespace config then _normalize_whitespace l1 else l1).
  destruct (is_empty (strip l2)) eqn:Hs; simpl; [done|]. intros [= <-].
  (* the line that is kept *)
  assert (no_newline l2) as Hnl2.
  { unfold l2. destruct (ignore_whitespace config); [|done].
    rewrite _normalize_whitespace_collapse. apply Forall_strip, collapse_no_newline. }
  assert (ignore_comments config = true ->
          Forall (fun c => negb (chr_eqb c ";") = true) l2) as Hsemi2.
  { intros Hc. specialize (Hsemi1 Hc). unfold l2.
    destruct (ignore_whitespace config); [|done].
    rewrite _normalize_whitespace_collapse. by apply Forall_strip, collapse_Forall. }
  assert (head (strip l2) = head (lstrip l1)) as Hh2.
  { unfold l2. destruct (ignore_whitespace config).
    - apply head_strip_normalize_whitespace.
    - apply head_strip. }
  assert (head (strip l2) = head (strip line)) as Hh.
  { rewrite Hh2, head_strip. apply Hhead1. intros E. rewrite E in Hh2.
    destruct (strip l2); done. }
  split; [done|].
  rewrite Hs, andb_false_r.
  assert (ignore_metadata config && metadata_pattern_match (strip l2) = false) as ->.
  { rewrite <- Hmeta. f_equal.
    apply metadata_pattern_match_same; [by apply Forall_strip..|done]. }
  rewrite strip_comments_fixed by done.
  assert ((if ignore_whitespace config then _normalize_whitespace l2 else l2) = l2) as ->.
  { unfold l2. destruct (ignore_whitespace config); [|done].
    apply _normalize_whitespace_idem. }
  by rewrite Hs.
Qed.

Lemma line_out_nil config : line_out config [] = None.
Proof.
  unfold line_out, strip_comments. simpl.
  destruct (ignore_empty_lines config), (ignore_metadata config),
    (ignore_comments config), (ignore_whitespace config); reflexivity.
Qed.

Lemma normalize_line_plain config st line :
  plain_options config ->
  normalized_lines (normalize_line config st line)
  = normalized_lines st ++ from_option (fun l => [l]) [] (line_out config line).
Proof.
  intros (Ht & Hl & Hd). unfold normalize_line, line_out, strip_debug_info.
  rewrite Ht, Hl, Hd.
  destruct (ignore_empty_lines config && is_empty (strip line));
    [by rewrite app_nil_r|].
  destruct (ignore_metadata config && metadata_pattern_match (strip line));
    [by rewrite app_nil_r|].
  simpl. destruct (is_empty (strip _)); simpl; [by rewrite app_nil_r|done].
Qed.

Lemma normalize_lines_plain config text :
  plain_options config ->
  normalize_lines config text = omap (line_out config) (split_lines text).
Proof.
  intros Hp. unfold normalize_lines.
  assert (forall ls st,
            normalized_lines (fold_left (normalize_line config) ls st)
            = normalized_lines st ++ omap (line_out config) ls) as Hfold.
  { induction ls as [|l ls IH]; intros st; simpl; [by rewrite app_nil_r|].
    rewrite IH, normalize_line_plain by done.
    destruct (line_out config l); simpl.
    - by rewrite <- app_assoc.
    - by rewrite app_nil_r. }
  by rewrite Hfold.
Qed.

Lemma omap_fixed config ls :
  Forall (fun l => line_out config l = Some l) ls -> omap (line_out config) ls = ls.
Proof.
  induction 1 as [|l ls Hl _ IH]; simpl; [done|]. rewrite Hl. f_equal. exact IH.
Qed.

(** C5, as the code has it.  With the renaming of temporary variables,
    the renaming of labels and the removal of debug information disabled,
    [normalize] is idempotent, whatever the other options. *)
Theorem normalize_idempotent_without_renaming
    (config : ComparisonConfig) (text : list ascii) :
  plain_options config ->
  normalize config (normalize config text) = normalize config text.
Proof.
  intros Hp. unfold normalize. rewrite !normalize_lines_plain by done.
  assert (Forall (fun l => no_newline l /\ line_out config l = Some l)
            (omap (line_out config) (split_lines text))) as Hkept.
  { pose proof (split_lines_no_newline text) as Hls.
    induction Hls as [|l ls Hl _ IH]; simpl; [done|].
    destruct (line_out config l) as [l'|] eqn:E; [|done].
    constructor; [|done]. by eapply line_out_fixed. }
  destruct (omap (line_out config) (split_lines text)) as [|l ls] eqn:E.
  - simpl. by rewrite line_out_nil.
  - rewrite split_join; [|done|by eapply Forall_impl; [exact Hkept|]; intros ? []].
    f_equal. apply omap_fixed. eapply Forall_impl; [exact Hkept|]. by intros ? [].
Qed.

End NormalizerFacts.
(** ** The normalizer and its objects *)

Module StoreFacts.
Import Text Re ReFacts Normalizer NormalizerFacts.

(** A scan whose replacement works on a view of the state works on the
    view of the state of the scan. *)
Lemma sub_from_view {S1 S2 : Type} (pat : pattern)
    (r1 : list ascii -> S1 -> list ascii * S1)
    (r2 : list ascii -> S2 -> list ascii * S2) (view : S1 -> S2) :
  (forall m s, r2 m (view s) = let '(o, s') := r1 m s in (o, view s')) ->
  forall text prev k s,
    sub_from pat r2 prev k text (view s)
    = let '(o, s') := sub_from pat r1 prev k text s in (o, view s').
Proof.
  intros Hr. induction text as [|c text IH]; intros prev k s.
  - simpl. destruct k; [|done]. destruct (pat prev []); [|done].
    rewrite Hr. by destruct (r1 [] s).
  - cbn [sub_from]. destruct k as [|k]; [|apply IH].
    destruct (pat prev (c :: text)) as [[|n]|].
    + rewrite Hr. destruct (r1 [] s) as [o s1]. rewrite IH.
      by destruct (sub_from pat r1 (Some c) 0 text s1).
    + rewrite Hr. destruct (r1 (take (S n) (c :: text)) s) as [o s1]. rewrite IH.
      by destruct (sub_from pat r1 (Some c) n text s1).
    + rewrite IH. by destruct (sub_from pat r1 (Some c) 0 text s).
Qed.

Section Call.
(** The store at the call, and the normalizer in it *)
Variable st0 : Store.store.
Variable self : Store.address.
Variable config : ComparisonConfig.
Hypothesis Hself : Store.config_at st0 self = Some config.

Lemma self_in_store : self < length st0.
Proof.
  unfold Store.config_at in Hself. destruct (st0 !! self) eqn:E; [|done].
  by apply lookup_lt_Some in E.
Qed.

Lemma config_at_extended tm lm :
  Store.config_at (Store.extended st0 tm lm) self = Some config.
Proof.
  unfold Store.config_at, Store.extended.
  rewrite lookup_app_l by apply self_in_store. exact Hself.
Qed.

Lemma option_of_extended option tm lm :
  Store.option_of self option (Store.extended st0 tm lm)
  = Some (option config, Store.extended st0 tm lm).
Proof. unfold Store.option_of. by rewrite config_at_extended. Qed.

Lemma dict_at_temp tm lm : Store.dict_at (Store.extended st0 tm lm) (length st0) = tm.
Proof.
  unfold Store.dict_at, Store.extended.
  rewrite lookup_app_r by lia. by rewrite Nat.sub_diag.
Qed.

Lemma dict_at_label tm lm :
  Store.dict_at (Store.extended st0 tm lm) (S (length st0)) = lm.
Proof.
  unfold Store.dict_at, Store.extended.
  rewrite lookup_app_r by lia. by replace (S (length st0) - length st0) with 1 by lia.
Qed.

Lemma update_dict_temp tm lm d :
  Store.update_dict (Store.extended st0 tm lm) (length st0) d = Store.extended st0 d lm.
Proof.
  unfold Store.update_dict, Store.extended.
  rewrite insert_app_r_alt by lia. by rewrite Nat.sub_diag.
Qed.

Lemma update_dict_label tm lm d :
  Store.update_dict (Store.extended st0 tm lm) (S (length st0)) d
  = Store.extended st0 tm d.
Proof.
  unfold Store.update_dict, Store.extended.
  rewrite insert_app_r_alt by lia.
  by replace (S (length st0) - length st0) with 1 by lia.
Qed.

Lemma replace_temp_var_view lm m (s : nat * Dict.t) :
  Store.replace_temp_var (length st0) m (s.1, Store.extended st0 s.2 lm)
  = let '(o, s') := replace_temp_var m s in (o, (s'.1, Store.extended st0 s'.2 lm)).
Proof.
  destruct s as [c tm]. unfold Store.replace_temp_var, replace_temp_var. simpl.
  rewrite dict_at_temp. destruct (negb (Dict.mem m tm)).
  - by rewrite update_dict_temp, dict_at_temp.
  - by rewrite dict_at_temp.
Qed.

Lemma replace_label_view tm m (s : nat * Dict.t) :
  Store.replace_label (S (length st0)) m (s.1, Store.extended st0 tm s.2)
  = let '(o, s') := replace_label m s in (o, (s'.1, Store.extended st0 tm s'.2)).
Proof.
  destruct s as [c lm]. unfold Store.replace_label, replace_label. simpl.
  rewrite dict_at_label. destruct (negb (Dict.mem (removelast m) lm)).
  - by rewrite update_dict_label, dict_at_label.
  - by rewrite dict_at_label.
Qed.

Lemma _normalize_temp_vars_view line c tm lm :
  Store._normalize_temp_vars line c (length st0) (Store.extended st0 tm lm)
  = let '(o, c', tm') := _normalize_temp_vars line c tm in
    Some ((o, c', length st0), Store.extended st0 tm' lm).
Proof.
  unfold Store._normalize_temp_vars, _normalize_temp_vars, scan.
  pose proof (sub_from_view temp_var_pattern replace_temp_var
                (Store.replace_temp_var (length st0))
                (fun s => (s.1, Store.extended st0 s.2 lm))
                (replace_temp_var_view lm) line None 0 (c, tm)) as H.
  simpl in H. rewrite H.
  by destruct (sub_from temp_var_pattern replace_temp_var None 0 line (c, tm))
    as [o [c' tm']].
Qed.

Lemma _normalize_labels_view line c tm lm :
  Store._normalize_labels line c (S (length st0)) (Store.extended st0 tm lm)
  = let '(o, c', lm') := _normalize_labels line c lm in
    Some ((o, c', S (length st0)), Store.extended st0 tm lm').
Proof.
  unfold Store._normalize_labels, _normalize_labels, sub_st.
  pose proof (sub_from_view label_pattern replace_label
                (Store.replace_label (S (length st0)))
                (fun s => (s.1, Store.extended st0 tm s.2))
                (replace_label_view tm) line None 0 (c, lm)) as H.
  simpl in H. rewrite H.
  destruct (sub_from label_pattern replace_label None 0 line (c, lm))
    as [o [c' lm']].
  simpl. by rewrite dict_at_label.
Qed.

(** One iteration on the store is the iteration on the values of the
    tables. *)
Lemma normalize_line_view loc line :
  Store.normalize_line self (Store.at_addresses st0 loc) line
    (Store.extended st0 (temp_var_map loc) (label_map loc))
  = let loc' := normalize_line config loc line in
    Some (Store.at_addresses st0 loc',
          Store.extended st0 (temp_var_map loc') (label_map loc')).
Proof.
  cbv zeta. unfold Store.normalize_line, normalize_line, Store.bind.
  rewrite option_of_extended.
  destruct (ignore_empty_lines config && is_empty (strip line)); [done|].
  rewrite option_of_extended.
  destruct (ignore_metadata config && metadata_pattern_match (strip line)); [done|].
  rewrite !option_of_extended.
  fold (strip_comments config line).
  fold (strip_debug_info config (strip_comments config line)).
  set (l0 := strip_debug_info config (strip_comments config line)).
  cbn [Store.label_counter Store.label_map Store.temp_var_counter Store.temp_var_map
       Store.at_addresses Store.normalized_lines].
  destruct (ignore_labels config).
  - rewrite _normalize_labels_view.
    destruct (_normalize_labels l0 (label_counter loc) (label_map loc)) as [[l1 lc] lm].
    rewrite option_of_extended. destruct (ignore_temp_vars config).
    + rewrite _normalize_temp_vars_view.
      destruct (_normalize_temp_vars l1 (temp_var_counter loc) (temp_var_map loc))
        as [[l2 tc] tm].
      by rewrite option_of_extended.
    + unfold Store.ret. by rewrite option_of_extended.
  - unfold Store.ret at 1. rewrite option_of_extended. destruct (ignore_temp_vars config).
    + rewrite _normalize_temp_vars_view.
      destruct (_normalize_temp_vars l0 (temp_var_counter loc) (temp_var_map loc))
        as [[l2 tc] tm].
      by rewrite option_of_extended.
    + unfold Store.ret. by rewrite option_of_extended.
Qed.

Lemma for_each_view lines : forall loc,
  Store.for_each self lines (Store.at_addresses st0 loc)
    (Store.extended st0 (temp_var_map loc) (label_map loc))
  = let loc' := fold_left (normalize_line config) lines loc in
    Some (Store.at_addresses st0 loc',
          Store.extended st0 (temp_var_map loc') (label_map loc')).
Proof.
  induction lines as [|line lines IH]; intros loc; [done|].
  cbn [Store.for_each fold_left]. unfold Store.bind.
  rewrite normalize_line_view. cbv zeta. apply IH.
Qed.

(** A call of [normalize] returns what the text and the configuration
    of the normalizer determine, and leaves in the store its two
    tables, after the objects that were there. *)
Lemma normalize_view text :
  exists tm lm,
    Store.normalize self text st0
    = Some (normalize config text, Store.extended st0 tm lm).
Proof.
  pose proof (for_each_view (split_lines text) initial_locals) as H. cbv zeta in H.
  set (loc := fold_left (normalize_line config) (split_lines text) initial_locals) in *.
  exists (temp_var_map loc), (label_map loc).
  unfold Store.normalize, Store.bind, Store.new_dict.
  replace (length (st0 ++ [Store.DictObject []])) with (S (length st0))
    by (rewrite length_app; simpl; lia).
  change ((st0 ++ [Store.DictObject []]) ++ [Store.DictObject []])
    with ((st0 ++ [Store.DictObject []]) ++ [Store.DictObject []]).
  rewrite <- app_assoc. simpl app.
  change (st0 ++ [Store.DictObject []; Store.DictObject []])
    with (Store.extended st0 (temp_var_map initial_locals) (label_map initial_locals)).
  change {| Store.normalized_lines := []; Store.temp_var_counter := 0;
            Store.label_counter := 0; Store.temp_var_map := length st0;
            Store.label_map := S (length st0) |}
    with (Store.at_addresses st0 initial_locals).
  rewrite H. reflexivity.
Qed.

End Call.

Lemma extended_old st0 tm lm a :
  a < length st0 -> Store.extended st0 tm lm !! a = st0 !! a.
Proof. intros H. unfold Store.extended. by rewrite lookup_app_l. Qed.

(** Calls of [normalize] leave the objects of the store as they are. *)
Lemma after_calls_old self config texts : forall st,
  Store.config_at st self = Some config ->
  Store.config_at (Store.after_calls self texts st) self = Some config /\
  forall a, a < length st -> Store.after_calls self texts st !! a = st !! a.
Proof.
  induction texts as [|t texts IH]; intros st Hself; [done|]. simpl.
  destruct (normalize_view st self config Hself t) as (tm & lm & ->).
  assert (Store.config_at (Store.extended st tm lm) self = Some config) as H
    by (by apply config_at_extended).
  destruct (IH _ H) as [H1 H2]. split; [done|].
  intros a Ha. rewrite H2.
  - by apply extended_old.
  - unfold Store.extended. rewrite length_app. lia.
Qed.

(** C9.  A call of [normalize] on a normalizer returns what the text
    and the options of its configuration determine, whatever the store
    holds: for two normalizers with the same options, in two stores, and
    after any calls of [normalize] on them, the calls for the same text
    return the same result, which is the normal form of the text under
    these options.  A call leaves every object that was in the store as
    it was, the normalizer and the tables of earlier calls included:
    its two tables are new objects. *)
Theorem normalize_deterministic
    (st1 st2 : Store.store) (self1 self2 : Store.address)
    (config1 config2 : ComparisonConfig)
    (before1 before2 : list (list ascii)) (text : list ascii) :
  Store.config_at st1 self1 = Some config1 ->
  Store.config_at st2 self2 = Some config2 ->
  same_options config1 config2 ->
  let r1 := Store.normalize self1 text (Store.after_calls self1 before1 st1) in
  let r2 := Store.normalize self2 text (Store.after_calls self2 before2 st2) in
  Store.result r1 = Some (normalize config1 text) /\
  Store.result r2 = Store.result r1 /\
  (forall st', snd <$> Store.normalize self1 text st1 = Some st' ->
     length st' = length st1 + 2 /\
     forall a, a < length st1 -> st' !! a = st1 !! a).
Proof.
  intros H1 H2 Hsame r1 r2.
  destruct (after_calls_old self1 config1 before1 st1 H1) as [H1' _].
  destruct (after_calls_old self2 config2 before2 st2 H2) as [H2' _].
  destruct (normalize_view _ self1 config1 H1' text) as (tm1 & lm1 & E1).
  destruct (normalize_view _ self2 config2 H2' text) as (tm2 & lm2 & E2).
  unfold r1, r2. rewrite E1, E2. simpl. split; [done|]. split.
  - f_equal. symmetry. by apply normalize_options.
  - intros st'. destruct (normalize_view st1 self1 config1 H1 text) as (tm & lm & ->).
    simpl. intros [= <-]. split.
    + unfold Store.extended. rewrite length_app. simpl. lia.
    + intros a Ha. by apply extended_old.
Qed.

End StoreFacts.
(** ** Numbered temporaries through the whole of [normalize] *)

Module NumberedFacts.
Import Text TextFacts Re ReFacts Normalizer TempVars NormalizerFacts.

Lemma numbered_from_weaken b s : numbered_from b s -> numbered_from false s.
Proof.
  destruct s as [|c s]; simpl.
  - by destruct b.
  - intros [_ H]. split; [done|exact H].
Qed.

Lemma numbered_from_drop n : forall b s,
  numbered_from b s -> numbered_from false (drop n s).
Proof.
  induction n as [|n IH]; intros b s H.
  - rewrite drop_0. by eapply numbered_from_weaken.
  - destruct s as [|c s]; [by eapply numbered_from_weaken|].
    simpl. destruct H as [_ H]. by eapply IH.
Qed.

Lemma numbered_from_app_plain o r :
  no_percent o -> numbered_from false r -> numbered_from false (o ++ r).
Proof.
  induction 1 as [|c o Hc _ IH]; intros Hr; simpl; [done|].
  split; [done|]. rewrite Hc. by apply IH.
Qed.

Section Scan.
Context {St : Type}.
Variable pat : pattern.
Variable repl : list ascii -> St -> list ascii * St.
Variable inv : St -> Prop.

(** A match is not empty and starts with a character that is not a
    digit; what replaces it has no percent sign. *)
Hypothesis Hpat : forall prev s n,
  pat prev s = Some n ->
  n <> 0 /\ exists c s', s = c :: s' /\ is_digit c = false.
Hypothesis Hrepl : forall prev s n st,
  pat prev s = Some n -> inv st ->
  no_percent (repl (take n s) st).1 /\ inv (repl (take n s) st).2.

Lemma sub_from_numbered s : forall prev k pend st,
  inv st ->
  match k with
  | O => numbered_from pend s
  | S _ => pend = false /\ numbered_from false (drop k s)
  end ->
  numbered_from pend (sub_from pat repl prev k s st).1 /\
  inv (sub_from pat repl prev k s st).2.
Proof.
  induction s as [|c s IH]; intros prev k pend st Hst Hs.
  - simpl. destruct k as [|k].
    + destruct (pat prev []) as [n|] eqn:E; [|done].
      apply Hpat in E as (_ & ? & ? & ? & _). done.
    + destruct Hs as [-> _]. done.
  - destruct k as [|k].
    + cbn [sub_from]. destruct Hs as [Hc Hs].
      destruct (pat prev (c :: s)) as [[|n]|] eqn:E.
      * apply Hpat in E as [? _]. done.
      * pose proof (Hrepl _ _ _ st E Hst) as [Ho Hst1].
        apply Hpat in E as (_ & c' & s' & [= <- <-] & Hdig).
        assert (pend = false) as ->.
        { destruct pend; [|done]. rewrite Hc in Hdig; done. }
        destruct (repl (take (S n) (c :: s)) st) as [o st1]. simpl in Ho, Hst1.
        specialize (IH (Some c) n false st1 Hst1).
        destruct (sub_from pat repl (Some c) n s st1) as [r st2]. simpl in *.
        destruct IH as [Hr Hst2].
        { destruct n as [|n]; [by eapply numbered_from_weaken|].
          split; [done|]. by eapply numbered_from_drop. }
        split; [|done]. by apply numbered_from_app_plain.
      * specialize (IH (Some c) 0 (chr_eqb c "%") st Hst Hs).
        destruct (sub_from pat repl (Some c) 0 s st) as [r st2]. simpl in *.
        destruct IH as [Hr Hst2]. done.
    + cbn [sub_from]. destruct Hs as [-> Hs]. simpl in Hs.
      apply IH; [done|].
      destruct k as [|k]; [by rewrite drop_0 in Hs|]. done.
Qed.

End Scan.

(** A substitution by a fixed text *)
Lemma sub_numbered pat r s :
  (forall prev s n, pat prev s = Some n ->
     n <> 0 /\ exists c s', s = c :: s' /\ is_digit c = false) ->
  no_percent r -> numbered s -> numbered (Re.sub pat r s).
Proof.
  intros Hpat Hr Hs. unfold Re.sub, sub_st.
  apply (sub_from_numbered pat (fun _ (u : unit) => (r, u)) (fun _ => True));
    try done.
Qed.

Lemma comment_pattern_start prev s n :
  comment_pattern prev s = Some n ->
  n <> 0 /\ exists c s', s = c :: s' /\ is_digit c = false.
Proof.
  unfold comment_pattern. destruct s as [|c s]; [done|].
  destruct (chr_eqb c ";") eqn:E; [|done]. apply chr_eqb_eq in E as ->.
  destruct (at_dollar _); [|done]. simpl. intros [= <-].
  split; [done|]. by exists ";"%char, s.
Qed.

Lemma starts_with_cons a p s :
  starts_with (a :: p) s = true -> exists s', s = a :: s' /\ starts_with p s' = true.
Proof.
  destruct s as [|b s]; [done|]. simpl. intros H.
  apply andb_prop in H as [E H]. apply chr_eqb_eq in E as ->. by exists s.
Qed.

Lemma debug_info_pattern_start prev s n :
  debug_info_pattern prev s = Some n ->
  n <> 0 /\ exists c s', s = c :: s' /\ is_digit c = false.
Proof.
  unfold debug_info_pattern.
  destruct (starts_with ", !dbg !" s) eqn:E; [|done].
  apply starts_with_cons in E as (s' & -> & _).
  destruct (run is_digit _); [done|]. intros [= <-].
  split; [done|]. by exists ","%char, s'.
Qed.

Lemma strip_comments_numbered config s :
  numbered s -> numbered (strip_comments config s).
Proof.
  intros Hs. unfold strip_comments. destruct (ignore_comments config); [|done].
  apply sub_numbered; [apply comment_pattern_start|constructor|done].
Qed.

Lemma strip_debug_info_numbered config s :
  numbered s -> numbered (strip_debug_info config s).
Proof.
  intros Hs. unfold strip_debug_info. destruct (ignore_debug_info config); [|done].
  apply sub_numbered; [apply debug_info_pattern_start|constructor|done].
Qed.

(** *** The label stage *)

Lemma is_name_start_not_digit c : is_name_start c = true -> is_digit c = false.
Proof.
  destruct (is_digit c) eqn:E; [|done]. by rewrite is_digit_not_name_start.
Qed.

Lemma label_pattern_start prev s n :
  label_pattern prev s = Some n ->
  n <> 0 /\
  exists c s', s = c :: s' /\ is_digit c = false /\
    exists k', removelast (take n s) = c :: k'.
Proof.
  unfold label_pattern. destruct prev; [done|]. destruct s as [|c1 s1]; [done|].
  destruct (is_name_start c1) eqn:E1; [|done].
  set (n1 := run is_name_char s1). set (s2 := drop n1 s1).
  set (n2 := run (fun c => chr_eqb c ".") (take 1 s2)). set (s3 := drop n2 s2).
  set (n3 := run is_digit s3).
  destruct (starts_with ":" (drop n3 s3)) eqn:E; [|done]. intros [= <-].
  split; [lia|]. exists c1, s1. split; [done|]. split; [by apply is_name_start_not_digit|].
  destruct s1 as [|x s1'].
  - exfalso. unfold s3, s2 in E. by rewrite !drop_nil in E.
  - change (1 + n1 + n2 + n3 + 1) with (S (n1 + n2 + n3 + 1)).
    assert (exists m, n1 + n2 + n3 + 1 = S m) as [m ->]
      by (exists (n1 + n2 + n3); lia).
    exists (removelast (x :: take m s1')). reflexivity.
Qed.

Lemma uint_digits u :
  Forall (fun c => is_digit c = true) (list_ascii_of_string (NilEmpty.string_of_uint u)).
Proof. induction u; simpl; by constructor. Qed.

Lemma decimal_no_percent n : no_percent (decimal n).
Proof.
  unfold decimal, no_percent. eapply Forall_impl; [apply uint_digits|].
  simpl. intros c Hc. by apply is_digit_not_percent.
Qed.

Lemma no_percent_app a b : no_percent a -> no_percent b -> no_percent (a ++ b).
Proof. intros. by apply Forall_app. Qed.

Lemma label_map_ok_get m k v :
  label_map_ok m -> Dict.get k m = Some v -> no_percent v.
Proof.
  induction 1 as [|[k' v'] m [_ Hv] _ IH]; simpl; [done|].
  destruct (list_eqb k k'); [by intros [= <-]|done].
Qed.

Lemma label_map_ok_set m k v :
  label_map_ok m -> (exists c k', k = c :: k' /\ is_digit c = false) -> no_percent v ->
  label_map_ok (Dict.set k v m).
Proof.
  intros Hm Hk Hv. induction Hm as [|[k' v'] m [Hk' Hv'] Hm IH]; simpl.
  - by repeat constructor.
  - destruct (list_eqb k k'); constructor; done.
Qed.

Lemma replace_label_ok prev s n st :
  label_pattern prev s = Some n -> label_map_ok st.2 ->
  no_percent (replace_label (take n s) st).1 /\
  label_map_ok (replace_label (take n s) st).2.2.
Proof.
  intros Hm Hst. apply label_pattern_start in Hm as (_ & c & s' & -> & Hc & k' & Hk).
  destruct st as [counter m]. unfold replace_label. rewrite Hk. simpl in Hst.
  assert (forall m', label_map_ok m' ->
            no_percent (Dict.get_or_empty (c :: k') m' ++ ":")) as Hout.
  { intros m' Hm'. apply no_percent_app; [|by repeat constructor].
    unfold Dict.get_or_empty. destruct (Dict.get (c :: k') m') eqn:E; [|constructor].
    by eapply label_map_ok_get. }
  destruct (negb (Dict.mem (c :: k') m)); simpl.
  - assert (label_map_ok (Dict.set (c :: k') ("label_" ++ decimal counter) m)) as Hm'.
    { apply label_map_ok_set; [done|by eexists _, _|].
      apply no_percent_app; [by repeat constructor|apply decimal_no_percent]. }
    split; [by apply Hout|done].
  - split; [by apply Hout|done].
Qed.

Lemma bounded_literal_start c k' prev s n :
  is_digit c = false ->
  bounded_literal (c :: k') prev s = Some n ->
  n <> 0 /\ exists c' s', s = c' :: s' /\ is_digit c' = false.
Proof.
  intros Hc. unfold bounded_literal.
  destruct (word_boundary prev (head s)); [|done].
  destruct (starts_with (c :: k') s) eqn:E; [|done].
  apply starts_with_cons in E as (s' & -> & _).
  destruct (word_boundary _ _); [|done]. intros [= <-].
  split; [done|]. by exists c, s'.
Qed.

Lemma replace_references_numbered m s :
  label_map_ok m -> numbered s -> numbered (replace_references m s).
Proof.
  unfold replace_references. intros Hm. revert s.
  induction Hm as [|[k v] m [(c & k' & Hk & Hc) Hv] _ IH]; intros s Hs; simpl; [done|].
  apply IH. simpl in Hk, Hv. subst k. apply sub_numbered; [|by apply Forall_rstrip_by|done].
  intros prev t n. by apply bounded_literal_start.
Qed.

Lemma _normalize_labels_numbered line counter m :
  numbered line -> label_map_ok m ->
  numbered (_normalize_labels line counter m).1.1 /\
  label_map_ok (_normalize_labels line counter m).2.
Proof.
  intros Hline Hm. unfold _normalize_labels, sub_st.
  pose proof (sub_from_numbered label_pattern replace_label
                (fun st => label_map_ok st.2)) as H.
  specialize (H ltac:(intros ? ? ? E; apply label_pattern_start in E as (? & ? & ? & ? & ? & _);
                      split; [done|]; by eexists _, _)).
  specialize (H replace_label_ok line None 0 false (counter, m) Hm Hline).
  destruct (sub_from label_pattern replace_label None 0 line (counter, m))
    as [normalized [counter' m']]. simpl in *.
  destruct H as [Hn Hm']. split; [|done]. by apply replace_references_numbered.
Qed.

(** *** The renaming stage does nothing *)

Lemma temp_var_pattern_numbered s : forall prev pend,
  numbered_from pend s -> silent temp_var_pattern prev s.
Proof.
  induction s as [|c s IH]; intros prev pend Hs; [done|].
  destruct Hs as [_ Hs]. split; [|by eapply IH].
  unfold temp_var_pattern. destruct s as [|c1 s1]; [done|].
  destruct (chr_eqb c "%") eqn:E; [|done]. simpl.
  destruct Hs as [Hd _]. by rewrite (is_digit_not_name_start _ (Hd eq_refl)).
Qed.

Lemma _normalize_temp_vars_numbered s counter var_map :
  numbered s -> _normalize_temp_vars s counter var_map = (s, counter, var_map).
Proof.
  intros Hs. unfold _normalize_temp_vars, scan.
  rewrite sub_from_silent; [done|]. by eapply temp_var_pattern_numbered.
Qed.

(** *** Line by line *)

Lemma split_lines_numbered s : forall pend,
  numbered_from pend s ->
  Forall numbered (split_lines s) /\
  match split_lines s with
  | l :: _ => numbered_from pend l
  | [] => True
  end.
Proof.
  induction s as [|c s IH]; intros pend Hs.
  - simpl. split; [|done]. by repeat constructor.
  - destruct Hs as [Hc Hs]. simpl.
    destruct (is_newline c) eqn:E.
    + apply chr_eqb_eq in E as ->. destruct (IH _ Hs) as [Hall Hhead].
      assert (pend = false) as ->.
      { destruct pend; [|done]. by specialize (Hc eq_refl). }
      split; [|done]. constructor; [done|exact Hall].
    + destruct (IH _ Hs) as [Hall Hhead].
      destruct (split_lines s) as [|l ls] eqn:Esp; [by apply split_lines_not_nil in Esp|].
      inversion Hall; subst. split.
      * constructor; [|done]. split; [done|exact Hhead].
      * split; [done|exact Hhead].
Qed.

Lemma normalize_line_numbered config st line :
  numbered line -> label_map_ok (label_map st) ->
  normalize_line config st line
    = normalize_line (with_ignore_temp_vars false config) st line
  /\ label_map_ok (label_map (normalize_line config st line)).
Proof.
  intros Hline Hst. unfold normalize_line, strip_comments, strip_debug_info. simpl.
  destruct (ignore_empty_lines config && is_empty (strip line)); [done|].
  destruct (ignore_metadata config && metadata_pattern_match (strip line)); [done|].
  fold (strip_comments config line).
  fold (strip_debug_info config (strip_comments config line)).
  pose proof (strip_debug_info_numbered config _ (strip_comments_numbered config _ Hline))
    as Hl1.
  set (l1 := strip_debug_info config (strip_comments config line)) in *.
  assert (numbered
            (if ignore_labels config
             then _normalize_labels l1 (label_counter st) (label_map st)
             else (l1, label_counter st, label_map st)).1.1 /\
          label_map_ok
            (if ignore_labels config
             then _normalize_labels l1 (label_counter st) (label_map st)
             else (l1, label_counter st, label_map st)).2) as [Hl2 Hm2].
  { destruct (ignore_labels config); [|done]. by apply _normalize_labels_numbered. }
  destruct (if ignore_labels config then _ else _) as [[l2 c2] m2]. simpl in Hl2, Hm2.
  assert ((if ignore_temp_vars config
           then _normalize_temp_vars l2 (temp_var_counter st) (temp_var_map st)
           else (l2, temp_var_counter st, temp_var_map st))
          = (l2, temp_var_counter st, temp_var_map st)) as ->.
  { destruct (ignore_temp_vars config); [|done]. by apply _normalize_temp_vars_numbered. }
  done.
Qed.

Lemma normalize_numbered config text :
  numbered text ->
  normalize config text = normalize (with_ignore_temp_vars false config) text.
Proof.
  intros Ht. unfold normalize, normalize_lines. f_equal. f_equal.
  destruct (split_lines_numbered text false Ht) as [Hlines _].
  assert (label_map_ok (label_map initial_locals)) as Hinit by constructor.
  revert Hinit. generalize initial_locals.
  induction Hlines as [|line lines Hline _ IH]; intros st Hst; simpl; [done|].
  destruct (normalize_line_numbered config st line Hline Hst) as [<- Hst'].
  by apply IH.
Qed.

End NumberedFacts.
(** ** More on header scanning and extraction *)

Module ParserExtra.
Import Text TextFacts Re ReFacts Parser ParserView ParserFacts NumberedFacts.

(** *** The headers found *)

Section Headers.
Variable header : nat -> list ascii -> option ParsedHeader.
Hypothesis Hnum : forall n raw h, header n raw = Some h -> line_number h = n.

Lemma headers_from_elem lines : forall n h,
  h ∈ headers_from header n lines <->
  exists k raw, lines !! k = Some raw /\ header (n + k + 1) raw = Some h.
Proof.
  induction lines as [|l lines IH]; intros n h; simpl.
  - split; [by intros ?%elem_of_nil|]. by intros (k & raw & ? & _).
  - assert (h ∈ headers_from header (n + 1) lines <->
            exists k raw, lines !! k = Some raw /\ header (n + S k + 1) raw = Some h) as IH'.
    { rewrite IH. split; intros (k & raw & ? & E); exists k, raw; (split; [done|]).
      - by replace (n + S k + 1) with (n + 1 + k + 1) by lia.
      - by replace (n + 1 + k + 1) with (n + S k + 1) by lia. }
    destruct (header (n + 1) l) as [h0|] eqn:E.
    + rewrite elem_of_cons, IH'. split.
      * intros [->|(k & raw & ? & ?)].
        -- exists 0, l. split; [done|]. by replace (n + 0 + 1) with (n + 1) by lia.
        -- by exists (S k), raw.
      * intros ([|k] & raw & Hk & Hh).
        -- simpl in Hk. injection Hk as <-.
           replace (n + 0 + 1) with (n + 1) in Hh by lia. left. congruence.
        -- right. by exists k, raw.
    + rewrite IH'. split.
      * intros (k & raw & ? & ?). by exists (S k), raw.
      * intros ([|k] & raw & Hk & Hh).
        -- simpl in Hk. injection Hk as <-.
           replace (n + 0 + 1) with (n + 1) in Hh by lia. congruence.
        -- by exists k, raw.
Qed.

Lemma headers_from_ascending lines : forall n k h h',
  headers_from header n lines !! k = Some h ->
  headers_from header n lines !! S k = Some h' ->
  line_number h < line_number h'.
Proof.
  induction lines as [|l lines IH]; intros n k h h'; simpl; [done|].
  destruct (header (n + 1) l) as [h0|] eqn:E; [|apply IH].
  destruct k as [|k]; simpl; [|apply IH].
  intros [= <-] Hh'. apply list_elem_of_lookup_2 in Hh'.
  apply headers_from_elem in Hh' as (j & raw & _ & Hj).
  apply Hnum in E, Hj. lia.
Qed.

Lemma headers_from_located lines h :
  h ∈ headers_from header 0 lines ->
  1 <= line_number h <= length lines /\
  exists raw, lines !! (line_number h - 1) = Some raw /\
              header (line_number h) raw = Some h.
Proof.
  intros (k & raw & Hk & Hh)%headers_from_elem. simpl in Hh.
  pose proof (Hnum _ _ _ Hh) as ->. pose proof (lookup_lt_Some _ _ _ Hk).
  split; [lia|]. exists raw. by replace (k + 1 - 1) with k by lia.
Qed.

End Headers.

Lemma legacy_header_number n raw h : legacy_header n raw = Some h -> line_number h = n.
Proof.
  unfold legacy_header. destruct (legacy_pattern_match _); [|done]. by intros [= <-].
Qed.

Lemma npm_header_number n raw h : npm_header n raw = Some h -> line_number h = n.
Proof.
  unfold npm_header. destruct (npm_pattern_match _) as [[g1 g2]|]; [|done].
  destruct (list_eqb _ _); by intros [= <-].
Qed.


Lemma recognizer_number npm n raw h :
  recognizer npm n raw = Some h -> line_number h = n.
Proof. destruct npm; [apply npm_header_number|apply legacy_header_number]. Qed.

Lemma scanner_headers_from npm text :
  scanner npm text = headers_from (recognizer npm) 0 (readlines text).
Proof. by destruct npm. Qed.

(** X5.  In both dialects the scanner returns exactly the lines that
    carry a banner, in the order of the text: a header is in the list if
    and only if the line of its number is recognized as that header,
    line numbers count from 1, and they increase strictly along the
    list. *)
Theorem scanner_finds_the_banner_lines (npm : bool) (text : list ascii) :
  let headers := scanner npm text in
  let lines := readlines text in
  (forall h, h ∈ headers <->
     exists raw, 1 <= line_number h /\
                 lines !! (line_number h - 1) = Some raw /\
                 recognizer npm (line_number h) raw = Some h) /\
  (forall k h h', headers !! k = Some h -> headers !! S k = Some h' ->
     line_number h < line_number h') /\
  length headers <= length lines.
Proof.
  intros headers lines. unfold headers. rewrite scanner_headers_from. fold lines.
  split; [|split].
  - intros h. split.
    + intros H. apply (headers_from_located _ (recognizer_number npm)) in H
        as ([? _] & raw & ? & ?). by exists raw.
    + intros (raw & H1 & Hraw & Hh). apply headers_from_elem.
      exists (line_number h - 1), raw. split; [done|].
      by replace (0 + (line_number h - 1) + 1) with (line_number h) by lia.
  - apply headers_from_ascending. apply recognizer_number.
  - clear. generalize 0. induction lines as [|l lines IH]; intros n; simpl; [lia|].
    specialize (IH (n + 1)). destruct (recognizer npm (n + 1) l); simpl; lia.
Qed.

(** *** File names *)

Lemma pad3_uint index :
  exists u, pad3 index = list_ascii_of_string (NilEmpty.string_of_uint u)
            /\ Nat.of_uint u = index.
Proof.
  unfold pad3, decimal. generalize (3 - length (list_ascii_of_string
    (NilEmpty.string_of_uint (Nat.to_uint index)))). intros k.
  induction k as [|k (u & E & V)].
  - exists (Nat.to_uint index). split; [done|]. apply DecimalNat.Unsigned.of_to.
  - exists (Decimal.D0 u). split.
    + simpl. by rewrite E.
    + rewrite <- V. reflexivity.
Qed.

Lemma pad3_inj i j : pad3 i = pad3 j -> i = j.
Proof.
  destruct (pad3_uint i) as (u & -> & <-), (pad3_uint j) as (v & -> & <-).
  intros E. apply (f_equal string_of_list_ascii) in E.
  rewrite !string_of_list_ascii_of_string in E.
  apply (f_equal NilEmpty.uint_of_string) in E. rewrite !NilEmpty.usu in E.
  congruence.
Qed.

Lemma pad3_digits index : Forall (fun c => is_digit c = true) (pad3 index).
Proof. destruct (pad3_uint index) as (u & -> & _). apply uint_digits. Qed.

Lemma digits_prefix_inj (a b r1 r2 : list ascii) c :
  is_digit c = false ->
  Forall (fun c => is_digit c = true) a -> Forall (fun c => is_digit c = true) b ->
  a ++ c :: r1 = b ++ c :: r2 -> a = b.
Proof.
  intros Hc Ha. revert b. induction Ha as [|x a Hx Ha IH]; intros b Hb E.
  - destruct Hb as [|y b Hy Hb]; [done|]. simpl in E. congruence.
  - destruct Hb as [|y b Hy Hb]; simpl in E.
    + congruence.
    + injection E as -> E. f_equal. by apply IH.
Qed.

Lemma _generate_filename_prefix index pass_name target :
  exists r, _generate_filename index pass_name target = pad3 index ++ "_"%char :: r.
Proof.
  unfold _generate_filename.
  destruct (negb (is_empty target) && _ && _); eexists; reflexivity.
Qed.

Lemma _generate_filename_inj i j n1 t1 n2 t2 :
  _generate_filename i n1 t1 = _generate_filename j n2 t2 -> i = j.
Proof.
  destruct (_generate_filename_prefix i n1 t1) as (r1 & ->).
  destruct (_generate_filename_prefix j n2 t2) as (r2 & ->).
  intros E. apply pad3_inj. eapply digits_prefix_inj; [| | |exact E];
    [done|apply pad3_digits..].
Qed.

(** *** Sanitized names *)

Lemma one_of_prev p q s : one_of p q s = one_of p None s.
Proof. reflexivity. Qed.

Lemma some_of_prev p q s : some_of p q s = some_of p None s.
Proof. reflexivity. Qed.

(** Substituting one character of a class is a map. *)
Lemma sub_one_of p x s :
  Re.sub (one_of p) [x] s = map (fun c => if p c then x else c) s.
Proof.
  unfold Re.sub, sub_st.
  induction s as [|c s IH]; [done|].
  cbn [sub_from one_of map]. destruct (p c).
  - simpl. rewrite (sub_from_prev _ _ (one_of_prev p)).
    destruct (sub_from _ _ None 0 s tt) as [r u]. simpl in *. by rewrite IH.
  - rewrite (sub_from_prev _ _ (one_of_prev p)).
    destruct (sub_from _ _ None 0 s tt) as [r u]. simpl in *. by rewrite IH.
Qed.

(** Substituting the runs of a class is [squeeze]. *)
Lemma sub_from_some_of p x s :
  sub_from (some_of p) (fun _ (u : unit) => ([x], u)) None (run p s) s tt
    = (squeeze p x true s, tt)
  /\
  sub_from (some_of p) (fun _ (u : unit) => ([x], u)) None 0 s tt
    = (squeeze p x false s, tt).
Proof.
  induction s as [|c s [IH1 IH2]].
  - done.
  - cbn [run squeeze]. destruct (p c) eqn:Hc.
    + split.
      * cbn [sub_from]. by rewrite (sub_from_prev _ _ (some_of_prev p)).
      * cbn [sub_from]. unfold some_of at 1. cbn [run]. rewrite Hc.
        rewrite (sub_from_prev _ _ (some_of_prev p)), IH1. done.
    + assert (sub_from (some_of p) (fun _ (u : unit) => ([x], u)) None 0 (c :: s) tt
              = (c :: squeeze p x false s, tt)) as E.
      { rewrite sub_from_cons_none.
        - by rewrite (sub_from_prev _ _ (some_of_prev p)), IH2.
        - unfold some_of. cbn [run]. by rewrite Hc. }
      done.
Qed.

Lemma sub_some_of p x s : Re.sub (some_of p) [x] s = squeeze p x false s.
Proof. unfold Re.sub, sub_st. by rewrite (proj2 (sub_from_some_of p x s)). Qed.

Lemma squeeze_Forall (P : ascii -> Prop) p x b s :
  P x -> Forall P s -> Forall P (squeeze p x b s).
Proof.
  intros Hx Hs. revert b. induction Hs as [|c s Hc _ IH]; intros b; simpl; [done|].
  destruct (p c); [destruct b|]; try constructor; auto.
Qed.

Lemma squeeze_clears p x b s :
  p x = false -> Forall (fun c => p c = false) (squeeze p x b s).
Proof.
  intros Hx. revert b. induction s as [|c s IH]; intros b; simpl; [done|].
  destruct (p c) eqn:Hc; [destruct b|]; try constructor; auto.
Qed.

Lemma squeeze_length p x b s : length (squeeze p x b s) <= length s.
Proof.
  revert b. induction s as [|c s IH]; intros b; simpl; [done|].
  destruct (p c); [destruct b|]; simpl;
    [specialize (IH true)|specialize (IH true)|specialize (IH false)]; lia.
Qed.

Lemma squeeze_no_double x b s :
  let r := squeeze (fun c => chr_eqb c x) x b s in
  no_double x r /\ (b = true -> head r <> Some x).
Proof.
  revert b. induction s as [|c s IH]; intros b; cbv zeta; simpl.
  - split; [done|]. by intros _.
  - destruct (chr_eqb c x) eqn:Hc.
    + destruct (IH true) as [H1 H2]. specialize (H2 eq_refl).
      destruct b; [done|]. split; [|done].
      simpl. destruct (squeeze _ x true s) as [|d r] eqn:E; [done|].
      split; [|done]. intros [_ ->]. by apply H2.
    + destruct (IH false) as [H1 _]. split.
      * simpl. destruct (squeeze _ x false s) as [|d r] eqn:E; [done|].
        split; [|done]. intros [-> _]. by rewrite chr_eqb_refl in Hc.
      * intros _ [= ->]. by rewrite chr_eqb_refl in Hc.
Qed.

Lemma no_double_lookup x s :
  no_double x s <-> forall k, s !! k = Some x -> s !! S k <> Some x.
Proof.
  induction s as [|a [|b s] IH].
  - split; [by intros _ k|done].
  - split; [|done]. intros _ [|k]; done.
  - change (no_double x (a :: b :: s)) with (~ (a = x /\ b = x) /\ no_double x (b :: s)).
    rewrite IH. split.
    + intros [H1 H2] [|k].
      * simpl. intros [= ->] [= ->]. by apply H1.
      * apply H2.
    + intros H. split.
      * intros [-> ->]. by apply (H 0).
      * intros k. apply (H (S k)).
Qed.

Lemma rstrip_by_prefix p s : exists t, s = rstrip_by p s ++ t.
Proof.
  induction s as [|c s [t IH]]; [by exists []|].
  simpl. destruct (rstrip_by p s) as [|d r] eqn:E.
  - destruct (p c); [by exists (c :: s)|]. exists t. simpl in *. by f_equal.
  - exists t. simpl in *. by f_equal.
Qed.

Lemma rstrip_by_last p s : forall c, last (rstrip_by p s) = Some c -> p c = false.
Proof.
  induction s as [|a s IH]; intros c; [done|].
  simpl. destruct (rstrip_by p s) as [|d r] eqn:E.
  - destruct (p a) eqn:Ha; [done|]. simpl. by intros [= <-].
  - rewrite last_cons. destruct (last (d :: r)) as [e|] eqn:El.
    + intros [= <-]. by apply IH.
    + by apply last_None in El.
Qed.

Lemma lstrip_by_head p s : forall c, head (lstrip_by p s) = Some c -> p c = false.
Proof.
  unfold lstrip_by. induction s as [|a s IH]; intros c; [done|].
  simpl. destruct (p a) eqn:Ha; [apply IH|]. simpl. by intros [= <-].
Qed.

Lemma map_clears (p : ascii -> bool) x s :
  p x = false -> Forall (fun c => p c = false) (map (fun c => if p c then x else c) s).
Proof.
  intros Hx. induction s as [|c s IH]; simpl; [done|].
  constructor; [|done]. by destruct (p c) eqn:Hc.
Qed.

Lemma map_keeps (P : ascii -> Prop) (p : ascii -> bool) x s :
  P x -> Forall P s -> Forall P (map (fun c => if p c then x else c) s).
Proof.
  intros Hx Hs. induction Hs as [|c s Hc _ IH]; simpl; [done|].
  constructor; [|done]. by destruct (p c).
Qed.

(** The steps of [_sanitize_filename], by name *)
Lemma _sanitize_filename_steps name :
  let s1 := map (fun c => if is_problematic c then "_"%char else c) name in
  let s2 := squeeze isspace "_" false s1 in
  let s3 := map (fun c => if is_bracket c then "_"%char else c) s2 in
  let s4 := squeeze (fun c => chr_eqb c "_") "_" false s3 in
  let s5 := strip_chr "_" s4 in
  _sanitize_filename name = if 100 <? length s5 then take 100 s5 else s5.
Proof.
  unfold _sanitize_filename. change (list_ascii_of_string "_") with ["_"%char].
  by rewrite !sub_one_of, !sub_some_of.
Qed.

Lemma strip_chr_segment x s : exists a b, s = a ++ strip_chr x s ++ b.
Proof.
  unfold strip_chr, rstrip_chr, lstrip_by.
  destruct (rstrip_by_prefix (fun c => chr_eqb c x)
              (drop (run (fun c => chr_eqb c x) s) s)) as [t E].
  exists (take (run (fun c => chr_eqb c x) s) s), t.
  by rewrite <- E, take_drop.
Qed.

Lemma _sanitize_filename_segment name :
  let s1 := map (fun c => if is_problematic c then "_"%char else c) name in
  let s2 := squeeze isspace "_" false s1 in
  let s3 := map (fun c => if is_bracket c then "_"%char else c) s2 in
  let s4 := squeeze (fun c => chr_eqb c "_") "_" false s3 in
  exists a b, s4 = a ++ _sanitize_filename name ++ b.
Proof.
  intros s1 s2 s3 s4. rewrite _sanitize_filename_steps. fold s1 s2 s3 s4.
  destruct (strip_chr_segment "_" s4) as (a & b & E).
  destruct (100 <? length (strip_chr "_" s4)).
  - exists a, (drop 100 (strip_chr "_" s4) ++ b).
    rewrite (app_assoc (take 100 _)), take_drop. exact E.
  - by exists a, b.
Qed.

Lemma is_replaced_false c :
  is_replaced c = false <->
  is_problematic c = false /\ isspace c = false /\ is_bracket c = false.
Proof.
  unfold is_replaced. destruct (is_problematic c), (isspace c), (is_bracket c);
    simpl; split; try done; by intros (? & ? & ?).
Qed.

Lemma _sanitize_filename_clean name :
  Forall (fun c => is_replaced c = false) (_sanitize_filename name).
Proof.
  destruct (_sanitize_filename_segment name) as (a & b & E).
  match type of E with ?s4 = _ =>
    assert (Forall (fun c => is_replaced c = false) s4) as H end.
  { apply squeeze_Forall; [done|].
    apply (Forall_impl (fun c => is_bracket c = false /\
                                 (is_problematic c = false /\ isspace c = false))).
    - apply Forall_and. split.
      + by apply map_clears.
      + apply map_keeps; [done|]. apply Forall_and. split.
        * apply squeeze_Forall; [done|]. by apply map_clears.
        * by apply squeeze_clears.
    - intros c (? & ? & ?). by apply is_replaced_false. }
  rewrite E in H. by apply Forall_app in H as [_ [H _]%Forall_app].
Qed.

(** X7.  A sanitized name holds none of the characters that the
    substitutions replace (the nine characters hostile to file systems,
    white space, commas, parentheses and square brackets), has no two
    underscores in a row, does not start with an underscore, is at most
    100 characters long and never longer than the name; it can end with
    an underscore only when it was cut to 100 characters. *)
Theorem sanitized_names_are_safe (name : list ascii) :
  let clean := _sanitize_filename name in
  Forall (fun c => is_problematic c = false /\ isspace c = false
                   /\ is_bracket c = false) clean /\
  (forall k, clean !! k = Some "_"%char -> clean !! S k <> Some "_"%char) /\
  head clean <> Some "_"%char /\
  length clean <= 100 /\
  length clean <= length name /\
  (length clean < 100 -> last clean <> Some "_"%char).
Proof.
  intros clean. unfold clean. split; [|split; [|split; [|split; [|split]]]].
  - eapply Forall_impl; [apply _sanitize_filename_clean|].
    intros c. apply is_replaced_false.
  - destruct (_sanitize_filename_segment name) as (a & b & E).
    match type of E with squeeze ?p ?x false ?s3 = _ =>
      destruct (squeeze_no_double x false s3) as [H _] end.
    cbv zeta in H. rewrite E in H. rewrite no_double_lookup in H.
    intros k Hk Hk'. apply (H (length a + k)).
    + rewrite lookup_app_r by lia. replace (length a + k - length a) with k by lia.
      by apply lookup_app_l_Some.
    + replace (S (length a + k)) with (length a + S k) by lia.
      rewrite lookup_app_r by lia. replace (length a + S k - length a) with (S k) by lia.
      by apply lookup_app_l_Some.
  - rewrite _sanitize_filename_steps. cbv zeta.
    match goal with |- context [strip_chr "_" ?s4] => set (s := s4) end.
    assert (head (strip_chr "_" s) <> Some "_"%char) as H.
    { unfold strip_chr, rstrip_chr.
      destruct (rstrip_by_prefix (fun c => chr_eqb c "_") (lstrip_by (fun c => chr_eqb c "_") s))
        as [t E].
      destruct (rstrip_by _ (lstrip_by _ s)) as [|d r] eqn:Er; [done|].
      simpl. intros [= ->].
      assert (head (lstrip_by (fun c => chr_eqb c "_") s) = Some "_"%char) as Hh
        by (by rewrite E).
      by apply lstrip_by_head in Hh. }
    destruct (100 <? length (strip_chr "_" s)); [|done].
    by destruct (strip_chr "_" s).
  - rewrite _sanitize_filename_steps. cbv zeta.
    match goal with |- context [strip_chr "_" ?s4] => set (s := s4) end.
    destruct (100 <? length (strip_chr "_" s)) eqn:E.
    + rewrite length_take. lia.
    + apply Nat.ltb_ge in E. lia.
  - destruct (_sanitize_filename_segment name) as (a & b & E).
    apply (f_equal length) in E. rewrite !length_app in E.
    match type of E with length (squeeze ?p1 ?x1 false (map ?g (squeeze ?p2 ?x2 false (map ?f _)))) = _ =>
      pose proof (squeeze_length p1 x1 false (map g (squeeze p2 x2 false (map f name))));
      pose proof (squeeze_length p2 x2 false (map f name)) end.
    rewrite !length_map in *. lia.
  - rewrite _sanitize_filename_steps. cbv zeta.
    match goal with |- context [strip_chr "_" ?s4] => set (s := s4) end.
    destruct (100 <? length (strip_chr "_" s)) eqn:E.
    + apply Nat.ltb_lt in E. rewrite length_take. lia.
    + intros _ Hl. apply rstrip_by_last in Hl. by rewrite chr_eqb_refl in Hl.
Qed.

Lemma pad3_clean index : Forall (fun c => is_replaced c = false) (pad3 index).
Proof.
  eapply Forall_impl; [apply pad3_digits|]. intros c Hc.
  unfold is_digit, in_range in Hc. apply andb_true_iff in Hc as [H1 H2].
  apply N.leb_le in H1, H2.
  destruct c as [[] [] [] [] [] [] [] []]; try done; simpl in *; lia.
Qed.

Lemma _generate_filename_clean index pass_name target :
  Forall (fun c => is_replaced c = false) (_generate_filename index pass_name target).
Proof.
  pose proof (pad3_clean index) as Hpad.
  pose proof (_sanitize_filename_clean pass_name) as Hn.
  pose proof (_sanitize_filename_clean target) as Ht.
  unfold _generate_filename. destruct (negb _ && _ && _).
  - apply Forall_app. split; [exact Hpad|]. apply Forall_app. split; [by repeat constructor|].
    apply Forall_app. split; [exact Hn|]. apply Forall_app. split; [by repeat constructor|].
    apply Forall_app. split; [exact Ht|]. by repeat constructor.
  - apply Forall_app. split; [exact Hpad|]. apply Forall_app. split; [by repeat constructor|].
    apply Forall_app. split; [exact Hn|]. by repeat constructor.
Qed.

Lemma pad3_length index : 3 <= length (pad3 index).
Proof. unfold pad3. rewrite length_app, length_replicate. lia. Qed.

(** X8.  A generated file name starts with the index in at least three
    decimal digits and an underscore, ends with ".ll", and holds no path
    separator nor any other replaced character: the file of a pass lies
    in the output directory itself.  The index alone tells two file
    names apart. *)
Theorem generated_file_names (index : nat) (pass_name target : list ascii) :
  let filename := _generate_filename index pass_name target in
  (exists body, filename = pad3 index ++ "_" ++ body ++ ".ll") /\
  3 <= length (pad3 index) /\
  Forall (fun c => is_digit c = true) (pad3 index) /\
  Forall (fun c => is_replaced c = false) filename /\
  (forall index' pass_name' target',
     _generate_filename index' pass_name' target' = filename -> index' = index).
Proof.
  intros filename. unfold filename.
  split; [|split; [|split; [|split]]].
  - unfold _generate_filename. destruct (negb _ && _ && _).
    + exists (_sanitize_filename pass_name ++ "_" ++ _sanitize_filename target).
      rewrite <- !app_assoc. reflexivity.
    + exists (_sanitize_filename pass_name). reflexivity.
  - apply pad3_length.
  - apply pad3_digits.
  - apply _generate_filename_clean.
  - intros index' n' t'. apply _generate_filename_inj.
Qed.

(** *** The identifier in parentheses *)

Lemma run_lt p (x : ascii) s : x ∈ s -> p x = false -> run p s < length s.
Proof.
  intros Hx Hp. induction s as [|c s IH]; [by apply elem_of_nil in Hx|].
  simpl. destruct (p c) eqn:Hc; [|lia].
  apply elem_of_cons in Hx as [->|Hx]; [congruence|]. specialize (IH Hx). lia.
Qed.

Lemma run_app_short p s t : run p s < length s -> run p (s ++ t) = run p s.
Proof.
  induction s as [|c s IH]; simpl; [lia|].
  destruct (p c); [|done]. intros H. f_equal. apply IH. lia.
Qed.

Lemma closed_app_r u v : closed (u ++ v) -> closed v.
Proof. induction u as [|c u IH]; [done|]. intros [_ H]. by apply IH. Qed.

Lemma parentheses_pattern_prev p s :
  parentheses_pattern p s = parentheses_pattern None s.
Proof. reflexivity. Qed.

Lemma parentheses_pattern_local v suf :
  closed v -> v <> [] ->
  parentheses_pattern None (v ++ suf) = parentheses_pattern None v /\
  forall n, parentheses_pattern None v = Some n -> n <= length v.
Proof.
  destruct v as [|c v]; [done|]. intros [Hc _] _. simpl.
  destruct (chr_eqb c "(") eqn:E; [|done].
  apply chr_eqb_eq in E. specialize (Hc E).
  pose proof (run_lt (fun c => negb (chr_eqb c ")")) _ _ Hc eq_refl) as Hlt.
  rewrite run_app_short by done.
  set (n := run (fun c => negb (chr_eqb c ")")) v) in *.
  rewrite drop_app_le by lia.
  destruct (drop n v) as [|d r] eqn:Ed.
  { apply (f_equal length) in Ed. rewrite length_drop in Ed. simpl in Ed. lia. }
  split; [done|]. intros m.
  match goal with |- (if ?b then _ else _) = _ -> _ => destruct b end; [|done].
  intros [= <-]. simpl. lia.
Qed.

Lemma parentheses_pattern_silent s :
  Forall (fun c => c <> "("%char) s -> Re.silent parentheses_pattern None s.
Proof.
  intros H. generalize (@None ascii).
  induction H as [|c s Hc _ IH]; intros prev; [done|].
  simpl. split; [|apply IH].
  destruct (chr_eqb c "(") eqn:E; [|done]. by apply chr_eqb_eq in E.
Qed.

(** The scan of [re.findall] over an identifier in parentheses adds it
    to the matches found so far. *)
Lemma findall_group g post (acc : list (list ascii)) :
  g <> [] -> Forall (fun c => c <> ")"%char) g -> Forall (fun c => c <> "("%char) post ->
  (sub_from parentheses_pattern (fun m acc => ([], acc ++ [removelast (drop 1 m)]))
     None 0 ("("%char :: g ++ ")"%char :: post) acc).2 = acc ++ [g].
Proof.
  intros Hg Hng Hpost.
  assert (Hrun : run (fun c => negb (chr_eqb c ")")) (g ++ ")"%char :: post) = length g).
  { rewrite run_app_stop by done. apply run_all.
    eapply Forall_impl; [exact Hng|]. simpl. intros c Hc.
    destruct (chr_eqb c ")") eqn:E; [|done]. by apply chr_eqb_eq in E. }
  cbn [sub_from]. unfold parentheses_pattern at 1. rewrite Hrun.
  rewrite drop_app_length. simpl starts_with. simpl chr_eqb.
  destruct g as [|c g]; [done|]. cbn [length Nat.leb andb Nat.add].
  replace (S (length g + 2)) with (S (S (S (length g)))) by lia.
  rewrite (sub_from_prev _ _ parentheses_pattern_prev).
  rewrite sub_from_skip by (apply parentheses_pattern_prev || (rewrite length_app; simpl; lia)).
  replace (length g + 2) with (length ((c :: g) ++ [")"%char]))
    by (rewrite length_app; simpl; lia).
  replace ((c :: g) ++ ")"%char :: post) with (((c :: g) ++ [")"%char]) ++ post)
    by (by rewrite <- app_assoc).
  rewrite drop_app_length.
  rewrite sub_from_silent by (by apply parentheses_pattern_silent).
  change ("("%char :: ((c :: g) ++ [")"%char]) ++ post)
    with (("("%char :: (c :: g) ++ [")"%char]) ++ post).
  replace (S (S (S (length g))))
    with (length ("("%char :: (c :: g) ++ [")"%char]))
    by (simpl; rewrite length_app; simpl; lia).
  rewrite take_app_length. cbn [drop snd]. rewrite drop_0. by rewrite removelast_last.
Qed.

(** The last match of [re.findall] on a text that ends with a group *)
Lemma findall_inner_last (pre g post : list ascii) :
  closed pre -> g <> [] ->
  Forall (fun c => c <> ")"%char) g -> Forall (fun c => c <> "("%char) post ->
  last (findall_inner parentheses_pattern (pre ++ "("%char :: g ++ ")"%char :: post))
  = Some g.
Proof.
  intros Hpre Hg Hng Hpost. unfold findall_inner, sub_st.
  rewrite sub_from_app; [|apply parentheses_pattern_prev|done| |lia].
  - destruct (sub_from _ _ None 0 pre []) as [o1 st1].
    pose proof (findall_group g post st1 Hg Hng Hpost) as E.
    destruct (sub_from _ _ None 0 _ st1) as [o2 st2]. simpl in *. subst st2.
    by rewrite last_snoc.
  - intros u v -> Hv. apply parentheses_pattern_local; [|done].
    by apply closed_app_r in Hpre.
Qed.

(** X9.  The identifier of a bracketed banner is the content of its
    last parentheses, stripped: when the text ends with a group in
    parentheses, followed by text without an opening parenthesis, and
    every opening parenthesis before the group is closed before it, the
    group is what [_extract_last_parentheses] returns.  The group may
    itself hold opening parentheses. *)
Theorem last_parentheses_are_the_identifier (pre g post : list ascii) :
  closed pre -> g <> [] ->
  Forall (fun c => c <> ")"%char) g -> Forall (fun c => c <> "("%char) post ->
  _extract_last_parentheses (pre ++ "(" ++ g ++ ")" ++ post) = strip g.
Proof.
  intros Hpre Hg Hng Hpost. unfold _extract_last_parentheses.
  change (pre ++ "(" ++ g ++ ")" ++ post) with (pre ++ "("%char :: g ++ ")"%char :: post).
  by rewrite findall_inner_last.
Qed.

(** X10.  Without an opening parenthesis there is no group, and the
    identifier is the whole text, stripped. *)
Theorem no_parentheses_whole_text (content : list ascii) :
  Forall (fun c => c <> "("%char) content ->
  _extract_last_parentheses content = strip content.
Proof.
  intros H. unfold _extract_last_parentheses, findall_inner, sub_st.
  by rewrite sub_from_silent by (by apply parentheses_pattern_silent).
Qed.

(** *** Banners *)

Lemma rstrip_by_app_blank p s t :
  Forall (fun c => p c = true) t -> rstrip_by p (s ++ t) = rstrip_by p s.
Proof.
  intros Ht. induction s as [|c s IH]; simpl.
  - by apply rstrip_by_nil.
  - by rewrite IH.
Qed.

Lemma rstrip_by_snoc_keep p s c : p c = false -> rstrip_by p (s ++ [c]) = s ++ [c].
Proof. intros Hc. rewrite rstrip_by_app; simpl; by rewrite Hc. Qed.

Lemma starts_with_app p x : starts_with p (p ++ x) = true.
Proof. induction p as [|c p IH]; [done|]. simpl. by rewrite chr_eqb_refl. Qed.

Lemma strip_no_space s : Forall (fun c => isspace c = false) s -> strip s = s.
Proof.
  intros H. unfold strip, lstrip, rstrip. destruct H as [|c s Hc Hs]; [done|].
  rewrite lstrip_by_keep by done.
  revert c Hc. induction Hs as [|d s Hd Hs IH]; intros c Hc.
  - simpl. by rewrite Hc.
  - specialize (IH d Hd). change (rstrip_by isspace (c :: d :: s))
      with (match rstrip_by isspace (d :: s) with
            | [] => if isspace c then [] else [c]
            | r => c :: r
            end).
    by rewrite IH.
Qed.

Lemma lazy_plus_app {R : Type} (cont : list ascii -> option R) G t r :
  G <> [] -> Forall (fun c => is_dot c = true) G -> cont t = Some r ->
  (forall m, 1 <= m < length G -> cont (drop m (G ++ t)) = None) ->
  lazy_plus cont (G ++ t) = Some (length G, r).
Proof.
  intros HG Hdots Ht. induction Hdots as [|c G Hc HG' IH]; [done|]. intros Hmin.
  destruct G as [|d G].
  - simpl. by rewrite Hc, Ht.
  - pose proof (Hmin 1 ltac:(simpl; lia)) as H1.
    change (cont ((d :: G) ++ t) = None) in H1.
    change (lazy_plus cont ((c :: d :: G) ++ t))
      with (if is_dot c then
              match cont ((d :: G) ++ t) with
              | Some r => Some (1, r)
              | None =>
                  match lazy_plus cont ((d :: G) ++ t) with
                  | Some (n, r) => Some (S n, r)
                  | None => None
                  end
              end
            else None).
    rewrite Hc, H1. rewrite IH; [done|done|].
    intros m Hm. apply (Hmin (S m)). simpl in *. lia.
Qed.

Lemma greedy_plus_app {R : Type} (cont : list ascii -> option R) G t r :
  G <> [] -> Forall (fun c => is_dot c = true) G -> cont t = Some r ->
  greedy_plus cont t = None ->
  greedy_plus cont (G ++ t) = Some (length G, r).
Proof.
  intros HG Hdots Ht Hn. induction Hdots as [|c G Hc HG' IH]; [done|].
  destruct G as [|d G].
  - simpl. by rewrite Hc, Hn, Ht.
  - change (greedy_plus cont ((c :: d :: G) ++ t))
      with (if is_dot c then
              match greedy_plus cont ((d :: G) ++ t) with
              | Some (n, r) => Some (S n, r)
              | None =>
                  match cont ((d :: G) ++ t) with
                  | Some r => Some (1, r)
                  | None => None
                  end
              end
            else None).
    rewrite Hc. by rewrite IH.
Qed.

Lemma not_space_char c : isspace c = false -> chr_eqb " " c = false.
Proof.
  intros Hc. destruct (chr_eqb " " c) eqn:E; [|done].
  apply chr_eqb_eq in E as <-. done.
Qed.

Lemma isspace_false_dot c : isspace c = false -> is_dot c = true.
Proof.
  intros Hc. unfold is_dot. destruct (is_newline c) eqn:E; [|done].
  apply chr_eqb_eq in E as ->. done.
Qed.

(** The pattern of the semicolon dialect on a well-formed banner *)
Lemma npm_pattern_match_banner name tgt :
  name <> [] -> Forall (fun c => isspace c = false) name ->
  tgt <> [] -> Forall (fun c => c <> "*"%char /\ is_newline c = false) tgt ->
  npm_pattern_match (npm_banner ++ name ++ " on " ++ tgt ++ banner_end)
  = Some (name, tgt).
Proof.
  intros Hn Hname Ht Htgt. unfold npm_pattern_match.
  rewrite starts_with_app, drop_app_length.
  assert (Hin : lazy_plus (literal banner_end) (tgt ++ banner_end) = Some (length tgt, tt)).
  { apply lazy_plus_app; [done| |done|].
    - eapply Forall_impl; [exact Htgt|]. simpl. intros c [_ Hc]. unfold is_dot. by rewrite Hc.
    - intros m Hm. rewrite drop_app_le by lia.
      destruct (drop m tgt) as [|d rest] eqn:Ed.
      { apply (f_equal length) in Ed. rewrite length_drop in Ed. simpl in Ed. lia. }
      assert (Forall (fun c => c <> "*"%char /\ is_newline c = false) (d :: rest)) as Hd.
      { rewrite <- Ed. by apply Forall_drop. }
      unfold literal.
      change banner_end with (" "%char :: "*"%char :: ("**" : list ascii)).
      cbn [starts_with app]. destruct (chr_eqb " " d); [|done]. cbn [andb].
      destruct rest as [|e rest]; cbn [starts_with app]; [done|].
      apply Forall_cons in Hd as [_ [[He _] _]%Forall_cons].
      destruct (chr_eqb "*" e) eqn:E; [|done]. apply chr_eqb_eq in E. congruence. }
  rewrite (lazy_plus_app _ name _ (length tgt, tt)); [| done | | |].
  - rewrite take_app_length. rewrite <- drop_drop, drop_app_length.
    change (drop 4 ((" on " : list ascii) ++ tgt ++ banner_end)) with (tgt ++ banner_end).
    by rewrite take_app_length.
  - eapply Forall_impl; [exact Hname|]. apply isspace_false_dot.
  - simpl. exact Hin.
  - intros m Hm. rewrite drop_app_le by lia.
    destruct (drop m name) as [|d rest] eqn:Ed.
    { apply (f_equal length) in Ed. rewrite length_drop in Ed. simpl in Ed. lia. }
    assert (isspace d = false) as Hd.
    { assert (Forall (fun c => isspace c = false) (d :: rest)) as H
        by (rewrite <- Ed; by apply Forall_drop).
      by apply Forall_cons in H as [? _]. }
    change (" on " : list ascii) with (" "%char :: ("on " : list ascii)).
    cbn [starts_with app]. by rewrite (not_space_char d Hd).
Qed.

(** X11.  A well-formed banner of the semicolon dialect is recognized
    whatever white space follows it: the pass name is the text between
    "IR Dump After " and " on ", the target the text between " on " and
    " ***".  The name holds no white space; the target holds no star,
    and may hold spaces.  The target "[module]" gives a module dump,
    any other a function dump. *)
Theorem npm_banner_recognized (n : nat) (name tgt trail : list ascii) :
  name <> [] -> Forall (fun c => isspace c = false) name ->
  tgt <> [] -> Forall (fun c => c <> "*"%char /\ is_newline c = false) tgt ->
  Forall (fun c => isspace c = true) trail ->
  let banner := npm_banner ++ name ++ " on " ++ tgt ++ banner_end in
  let is_module := list_eqb (strip tgt) "[module]" in
  npm_header n (banner ++ trail)
  = Some {| hdr_pass_name := name;
            original_line := banner;
            line_number := n;
            dump_type := if is_module then "module" else "function";
            target := if is_module then "module" else strip tgt |}.
Proof.
  intros Hn Hname Ht Htgt Htrail banner is_module. unfold npm_header.
  assert (rstrip (banner ++ trail) = banner) as ->.
  { unfold rstrip. rewrite rstrip_by_app_blank by done. unfold banner.
    change banner_end with ((" **" : list ascii) ++ ["*"%char]).
    rewrite !app_assoc. by apply rstrip_by_snoc_keep. }
  unfold banner at 1. rewrite npm_pattern_match_banner by done.
  rewrite (strip_no_space name) by done. fold is_module.
  by destruct is_module.
Qed.

Lemma closed_app u v : closed u -> closed v -> closed (u ++ v).
Proof.
  intros Hu Hv. induction u as [|c u IH]; [done|].
  destruct Hu as [Hc Hu]. split; [|by apply IH].
  intros E. apply elem_of_app. left. by apply Hc.
Qed.

Lemma closed_drop k s : closed s -> closed (drop k s).
Proof. intros H. rewrite <- (take_drop k s) in H. by apply closed_app_r in H. Qed.

(** The pattern of the bracketed dialect on a banner without prefix:
    the group runs to the last " ***" of the line. *)
Lemma legacy_pattern_match_banner G (colon : bool) :
  G <> [] -> Forall (fun c => is_dot c = true) G ->
  legacy_pattern_match (legacy_banner ++ G ++ banner_end ++ (if colon then ":" else []))
  = Some G.
Proof.
  intros HG Hdots. unfold legacy_pattern_match.
  set (rest := G ++ banner_end ++ (if colon then ":" else [])).
  assert (lstrip (optional_hash (lstrip (legacy_banner ++ rest))) = legacy_banner ++ rest) as ->.
  { change (legacy_banner ++ rest) with ("*"%char :: drop 1 legacy_banner ++ rest).
    unfold lstrip. rewrite lstrip_by_keep by done.
    rewrite optional_hash_other by done. by rewrite lstrip_by_keep. }
  rewrite starts_with_app, drop_app_length. unfold rest.
  rewrite (greedy_plus_app _ G _ tt); [by rewrite take_app_length|done|done| |].
  - unfold literal. by rewrite starts_with_app.
  - by destruct colon.
Qed.

(** The identifier of a description followed by a group in parentheses *)
Lemma identifier_of_description desc id :
  closed desc -> id <> [] -> Forall (fun c => c <> ")"%char) id ->
  _extract_last_parentheses (strip (desc ++ " (" ++ id ++ ")")) = strip id.
Proof.
  intros Hdesc Hid Hng.
  set (pre := desc ++ [" "%char]).
  assert (desc ++ " (" ++ id ++ ")" = pre ++ "("%char :: id ++ [")"%char]) as ->.
  { unfold pre. by rewrite <- app_assoc. }
  assert (Hpre : closed pre).
  { apply closed_app; [done|]. split; [done|done]. }
  unfold strip, lstrip, lstrip_by. rewrite run_app_stop by done.
  rewrite drop_run_app.
  set (pre' := drop (run isspace pre) pre).
  assert (rstrip (pre' ++ "("%char :: id ++ [")"%char]) = pre' ++ "("%char :: id ++ [")"%char])
    as ->.
  { change (pre' ++ "("%char :: id ++ [")"%char])
      with (pre' ++ ("("%char :: id) ++ [")"%char]).
    rewrite app_assoc. by apply rstrip_by_snoc_keep. }
  unfold _extract_last_parentheses.
  rewrite findall_inner_last; [done| |done|done|done]. by apply closed_drop.
Qed.

(** X12.  A well-formed banner of the bracketed dialect is recognized
    after white space, at most one hash and white space, with or
    without the final colon, whatever white space follows: the pass
    name is the content of the parentheses that end the description,
    stripped.  The description before them has its parentheses closed
    and may be empty. *)
Theorem legacy_banner_recognized
    (n : nat) (ws1 ws2 : list ascii) (hash colon : bool) (desc id trail : list ascii) :
  Forall (fun c => isspace c = true) ws1 ->
  Forall (fun c => isspace c = true) ws2 ->
  Forall (fun c => isspace c = true) trail ->
  Forall (fun c => is_newline c = false) desc -> closed desc ->
  id <> [] -> Forall (fun c => c <> ")"%char /\ is_newline c = false) id ->
  let banner :=
    ws1 ++ (if hash then ["#"%char] else []) ++ ws2 ++ legacy_banner
    ++ (desc ++ " (" ++ id ++ ")") ++ banner_end ++ (if colon then ":" else []) in
  legacy_header n (banner ++ trail)
  = Some {| hdr_pass_name := strip id;
            original_line := banner;
            line_number := n;
            dump_type := "unknown";
            target := "unknown" |}.
Proof.
  intros Hws1 Hws2 Htrail Hdesc Hclosed Hid Hidc banner. unfold legacy_header.
  set (G := desc ++ " (" ++ id ++ ")") in *.
  set (T := banner_end ++ (if colon then ":" else [])).
  assert (rstrip (banner ++ trail) = banner) as ->.
  { unfold rstrip. rewrite rstrip_by_app_blank by done. unfold banner. fold T.
    rewrite !app_assoc. rewrite rstrip_by_app; by destruct colon. }
  assert (legacy_pattern_match banner = Some G) as ->.
  { unfold banner.
    change (legacy_banner ++ G ++ banner_end ++ (if colon then ":" else []))
      with ("*"%char :: drop 1 legacy_banner ++ G ++ banner_end ++ (if colon then ":" else [])).
    rewrite legacy_pattern_match_prefix by done.
    change ("*"%char :: drop 1 legacy_banner ++ G ++ banner_end ++ (if colon then ":" else []))
      with (legacy_banner ++ G ++ banner_end ++ (if colon then ":" else [])).
    apply legacy_pattern_match_banner.
    - unfold G. by destruct desc.
    - unfold G. apply Forall_app. split.
      + eapply Forall_impl; [exact Hdesc|]. simpl. intros c Hc. unfold is_dot. by rewrite Hc.
      + apply Forall_app. split; [by repeat constructor|]. apply Forall_app. split.
        * eapply Forall_impl; [exact Hidc|]. simpl. intros c [_ Hc]. unfold is_dot. by rewrite Hc.
        * by repeat constructor. }
  unfold G. rewrite identifier_of_description; [done|done|done|].
  eapply Forall_impl; [exact Hidc|]. by intros c [? _].
Qed.

End ParserExtra.
(** ** More on the normalizer *)

Module NormalizerExtra.
Import Text TextFacts Re ReFacts Normalizer NormalizerView WhitespaceFacts NormalizerFacts.

(** *** White space *)

Lemma visible_collapse b s : visible (collapse b s) = visible s.
Proof.
  unfold visible. revert b. induction s as [|c s IH]; intros b; [done|].
  simpl. destruct (isspace c) eqn:Hc; simpl.
  - destruct b; simpl; [apply IH|]. by rewrite IH.
  - by rewrite ?Hc, IH.
Qed.

Lemma visible_lstrip s : visible (lstrip s) = visible s.
Proof.
  unfold visible, lstrip, lstrip_by. induction s as [|c s IH]; [done|].
  simpl. destruct (isspace c) eqn:Hc; simpl; [done|]. by rewrite ?Hc.
Qed.

Lemma visible_rstrip s : visible (rstrip s) = visible s.
Proof.
  unfold visible, rstrip. induction s as [|c s IH]; [done|].
  simpl. destruct (rstrip_by isspace s) as [|d r] eqn:E.
  - rewrite <- IH. destruct (isspace c) eqn:Hc; simpl; by rewrite ?Hc.
  - simpl in *. by rewrite IH.
Qed.

Lemma visible_nil s : visible s = [] <-> blank s.
Proof.
  unfold visible, blank. induction s as [|c s IH]; simpl.
  - split; [constructor|done].
  - destruct (isspace c) eqn:Hc; simpl.
    + rewrite IH. split; [by constructor|]. by intros [_ ?]%Forall_cons.
    + split; [done|]. intros [? _]%Forall_cons. congruence.
Qed.

(** X13.  [_normalize_whitespace] changes white space only: the
    characters that are not white space stay, in order.  Its result has
    single spaces for white space, no newline, and no white space at its
    ends; it is empty exactly for a blank line; normalizing it again
    changes nothing. *)
Theorem normalized_whitespace_shape (line : list ascii) :
  let r := _normalize_whitespace line in
  visible r = visible line /\
  single_spaced r /\ no_newline r /\ strip r = r /\
  (r = [] <-> blank line) /\
  _normalize_whitespace r = r.
Proof.
  intros r. unfold r. split; [|split; [|split; [|split; [|split]]]].
  - rewrite _normalize_whitespace_collapse. unfold strip.
    by rewrite visible_rstrip, visible_lstrip, visible_collapse.
  - rewrite _normalize_whitespace_collapse. apply single_spaced_strip.
    apply collapse_single_spaced.
  - rewrite _normalize_whitespace_collapse. apply Forall_strip, collapse_no_newline.
  - rewrite _normalize_whitespace_collapse. apply strip_idem.
  - rewrite _normalize_whitespace_collapse, strip_nil.
    change (Forall (fun c => isspace c = true) (collapse false line))
      with (blank (collapse false line)).
    by rewrite <- !visible_nil, visible_collapse.
  - apply _normalize_whitespace_idem.
Qed.

(** *** The tables of names *)

Lemma decimal_inj i j : decimal i = decimal j -> i = j.
Proof.
  unfold decimal. intros E. apply (f_equal string_of_list_ascii) in E.
  rewrite !string_of_list_ascii_of_string in E.
  apply (f_equal NilEmpty.uint_of_string) in E. rewrite !NilEmpty.usu in E.
  injection E as E. by apply DecimalNat.Unsigned.to_uint_inj.
Qed.

Lemma list_eqb_eq a b : list_eqb a b = true <-> a = b.
Proof. unfold list_eqb. apply bool_decide_eq_true. Qed.

Lemma Dict_get_lookup k v (m : Dict.t) :
  Dict.get k m = Some v -> exists i, m !! i = Some (k, v).
Proof.
  induction m as [|[k' v'] m IH]; [done|]. simpl.
  destruct (list_eqb k k') eqn:E.
  - apply list_eqb_eq in E as ->. intros [= ->]. by exists 0.
  - intros (i & Hi)%IH. by exists (S i).
Qed.

Lemma Dict_get_None k (m : Dict.t) : Dict.get k m = None -> k ∉ m.*1.
Proof.
  induction m as [|[k' v'] m IH]; simpl.
  - intros _. apply not_elem_of_nil.
  - destruct (list_eqb k k') eqn:E; [done|]. intros H%IH.
    apply not_elem_of_cons. split; [|done].
    intros ->. unfold list_eqb in E. by rewrite bool_decide_eq_false in E.
Qed.

Lemma Dict_set_new k v (m : Dict.t) :
  Dict.get k m = None -> Dict.set k v m = m ++ [(k, v)].
Proof.
  induction m as [|[k' v'] m IH]; [done|]. simpl.
  destruct (list_eqb k k'); [done|]. intros H. by rewrite IH.
Qed.

Lemma numbered_table_set prefix counter m k :
  numbered_table prefix counter m -> Dict.get k m = None ->
  numbered_table prefix (S counter) (Dict.set k (prefix ++ decimal counter) m).
Proof.
  intros (Hc & Hnd & Hval) Hk. rewrite Dict_set_new by done. split; [|split].
  - rewrite length_app. simpl. lia.
  - rewrite fmap_app. apply NoDup_app. split; [done|]. split.
    + intros x Hx [->|[]%elem_of_nil]%elem_of_cons. by apply Dict_get_None in Hk.
    + apply NoDup_singleton.
  - intros i kv Hi. apply lookup_app_Some in Hi as [Hi|[Hlen Hi]]; [by apply Hval|].
    apply list_lookup_singleton_Some in Hi as [Hi <-]. simpl.
    replace i with counter by lia. done.
Qed.

Lemma numbered_table_injective prefix counter m :
  numbered_table prefix counter m -> injective_table m.
Proof.
  intros (_ & _ & Hval) k1 k2 v H1 H2.
  apply Dict_get_lookup in H1 as (i & Hi), H2 as (j & Hj).
  pose proof (Hval _ _ Hi) as E1. pose proof (Hval _ _ Hj) as E2. simpl in *.
  rewrite E1 in E2. apply app_inv_head, decimal_inj in E2. subst j. congruence.
Qed.

(** A property of the state that every replacement keeps holds after
    the scan. *)
Lemma sub_from_state {St : Type} (pat : pattern)
    (repl : list ascii -> St -> list ascii * St) (I : St -> Prop) :
  (forall m st, I st -> I (repl m st).2) ->
  forall s prev k st, I st -> I (sub_from pat repl prev k s st).2.
Proof.
  intros Hrepl. induction s as [|c s IH]; intros prev k st Hst.
  - simpl. destruct k; [|done]. destruct (pat prev []); [by apply Hrepl|done].
  - cbn [sub_from]. destruct k as [|k]; [|by apply IH].
    destruct (pat prev (c :: s)) as [[|n]|].
    + pose proof (Hrepl [] st Hst) as H1. destruct (repl [] st) as [o st1].
      pose proof (IH (Some c) 0 st1 H1) as H2.
      by destruct (sub_from pat repl (Some c) 0 s st1).
    + pose proof (Hrepl (take (S n) (c :: s)) st Hst) as H1.
      destruct (repl (take (S n) (c :: s)) st) as [o st1].
      pose proof (IH (Some c) n st1 H1) as H2.
      by destruct (sub_from pat repl (Some c) n s st1).
    + pose proof (IH (Some c) 0 st Hst) as H2.
      by destruct (sub_from pat repl (Some c) 0 s st).
Qed.

Lemma replace_temp_var_table original counter m :
  numbered_table "%temp_" counter m ->
  numbered_table "%temp_" (replace_temp_var original (counter, m)).2.1
                          (replace_temp_var original (counter, m)).2.2.
Proof.
  intros H. unfold replace_temp_var, Dict.mem.
  destruct (Dict.get original m) eqn:E; simpl; [done|].
  by apply numbered_table_set.
Qed.

Lemma replace_label_table matched counter m :
  numbered_table "label_" counter m ->
  numbered_table "label_" (replace_label matched (counter, m)).2.1
                          (replace_label matched (counter, m)).2.2.
Proof.
  intros H. unfold replace_label, Dict.mem.
  destruct (Dict.get (removelast matched) m) eqn:E; simpl; [done|].
  by apply numbered_table_set.
Qed.

Lemma _normalize_temp_vars_table line counter m :
  numbered_table "%temp_" counter m ->
  numbered_table "%temp_" (_normalize_temp_vars line counter m).1.2
                          (_normalize_temp_vars line counter m).2.
Proof.
  intros H. unfold _normalize_temp_vars, scan.
  pose proof (sub_from_state temp_var_pattern replace_temp_var
                (fun st => numbered_table "%temp_" st.1 st.2)) as Hs.
  specialize (Hs (fun m0 st Hst => ltac:(destruct st; by apply replace_temp_var_table))
                 line None 0 (counter, m) H).
  by destruct (sub_from _ _ None 0 line (counter, m)) as [o [c' m']].
Qed.

Lemma _normalize_labels_table line counter m :
  numbered_table "label_" counter m ->
  numbered_table "label_" (_normalize_labels line counter m).1.2
                          (_normalize_labels line counter m).2.
Proof.
  intros H. unfold _normalize_labels, sub_st.
  pose proof (sub_from_state label_pattern replace_label
                (fun st => numbered_table "label_" st.1 st.2)) as Hs.
  specialize (Hs (fun m0 st Hst => ltac:(destruct st; by apply replace_label_table))
                 line None 0 (counter, m) H).
  by destruct (sub_from _ _ None 0 line (counter, m)) as [o [c' m']].
Qed.

Lemma normalize_line_tables config st line :
  numbered_table "%temp_" (temp_var_counter st) (temp_var_map st) /\
  numbered_table "label_" (label_counter st) (label_map st) ->
  numbered_table "%temp_" (temp_var_counter (normalize_line config st line))
                          (temp_var_map (normalize_line config st line)) /\
  numbered_table "label_" (label_counter (normalize_line config st line))
                          (label_map (normalize_line config st line)).
Proof.
  intros [Ht Hl]. unfold normalize_line.
  destruct (ignore_empty_lines config && is_empty (strip line)); [done|].
  destruct (ignore_metadata config && metadata_pattern_match (strip line)); [done|].
  set (l0 := strip_debug_info config (strip_comments config line)).
  destruct (ignore_labels config).
  - pose proof (_normalize_labels_table l0 _ _ Hl) as Hl'.
    destruct (_normalize_labels l0 (label_counter st) (label_map st)) as [[l1 lc] lm].
    destruct (ignore_temp_vars config).
    + pose proof (_normalize_temp_vars_table l1 _ _ Ht) as Ht'.
      by destruct (_normalize_temp_vars l1 (temp_var_counter st) (temp_var_map st))
        as [[l2 tc] tm].
    + done.
  - destruct (ignore_temp_vars config).
    + pose proof (_normalize_temp_vars_table l0 _ _ Ht) as Ht'.
      by destruct (_normalize_temp_vars l0 (temp_var_counter st) (temp_var_map st))
        as [[l2 tc] tm].
    + done.
Qed.

(** X14.  The two tables of [normalize] stay numbered through the loop:
    after any lines, the names met so far have distinct entries, the
    entry number [i] (in order of first occurrence) has the value
    "%temp_i", or "label_i" in the table of labels, and each counter is
    the size of its table.  So two names never get the same
    replacement. *)
Theorem renaming_tables_are_numbered (config : ComparisonConfig) (lines : list (list ascii)) :
  let st := fold_left (normalize_line config) lines initial_locals in
  numbered_table "%temp_" (temp_var_counter st) (temp_var_map st) /\
  numbered_table "label_" (label_counter st) (label_map st) /\
  injective_table (temp_var_map st) /\
  injective_table (label_map st).
Proof.
  intros st.
  assert (numbered_table "%temp_" (temp_var_counter st) (temp_var_map st) /\
          numbered_table "label_" (label_counter st) (label_map st)) as [Ht Hl].
  { unfold st. clear st.
    assert (numbered_table "%temp_" (temp_var_counter initial_locals)
                           (temp_var_map initial_locals) /\
            numbered_table "label_" (label_counter initial_locals)
                           (label_map initial_locals)) as H0.
    { split; (split; [done|]; split; [constructor|done]). }
    revert H0. generalize initial_locals.
    induction lines as [|l lines IH]; intros st0 H0; [done|].
    simpl. apply IH. by apply normalize_line_tables. }
  split; [done|]. split; [done|].
  split; eapply numbered_table_injective; eassumption.
Qed.

(** *** Lines that leave no trace *)

Lemma normalize_line_skipped config st line :
  is_skipped config line = true -> normalize_line config st line = st.
Proof.
  unfold is_skipped. destruct (is_empty (strip line)) eqn:E; simpl.
  - intros _. apply normalize_line_blank. apply strip_nil. by apply is_empty_true.
  - intros H. unfold normalize_line. rewrite E, andb_false_r. by rewrite H.
Qed.

Lemma fold_skipped config ls : forall st,
  fold_left (normalize_line config) ls st
  = fold_left (normalize_line config)
      (List.filter (fun l => negb (is_skipped config l)) ls) st.
Proof.
  induction ls as [|l ls IH]; intros st; [done|]. simpl.
  destruct (is_skipped config l) eqn:E; simpl.
  - by rewrite normalize_line_skipped.
  - apply IH.
Qed.

(** The loop over the lines of a text given by its lines *)
Lemma fold_split_join config ls st :
  Forall no_newline ls ->
  fold_left (normalize_line config) (split_lines (join_lines ls)) st
  = fold_left (normalize_line config) ls st.
Proof.
  intros H. destruct ls as [|l ls].
  - simpl. apply normalize_line_blank. constructor.
  - by rewrite split_join.
Qed.

Lemma normalize_join config ls :
  Forall no_newline ls ->
  normalize config (join_lines ls)
  = join_lines (normalized_lines (fold_left (normalize_line config) ls initial_locals)).
Proof. intros H. unfold normalize, normalize_lines. by rewrite fold_split_join. Qed.

(** X15.  Blank lines never count, and metadata lines do not count when
    metadata is ignored: a text and the text without these lines have
    the same normal form, under every configuration. *)
Theorem skipped_lines_are_invisible (config : ComparisonConfig) (ls : list (list ascii)) :
  Forall no_newline ls ->
  normalize config (join_lines ls)
  = normalize config (join_lines (List.filter (fun l => negb (is_skipped config l)) ls)).
Proof.
  intros H. rewrite !normalize_join.
  - by rewrite <- fold_skipped.
  - induction H as [|l ls Hl _ IH]; simpl; [done|].
    destruct (is_skipped config l); simpl; [done|]. by constructor.
  - done.
Qed.

(** *** Comments *)

Lemma normalize_line_without_empty_lines_option config st line :
  normalize_line config st line
  = normalize_line (with_ignore_empty_lines false config) st line.
Proof.
  rewrite (normalize_line_empty_lines_option config).
  by rewrite (normalize_line_empty_lines_option (with_ignore_empty_lines false config)).
Qed.

Lemma cut_app l c :
  let cut := fun s => take (run (fun c => negb (chr_eqb c ";")) s) s in
  cut (l ++ ";"%char :: c) = cut l.
Proof.
  simpl. induction l as [|x l IH]; [done|]. simpl.
  destruct (chr_eqb x ";"); simpl; [done|]. by rewrite IH.
Qed.

(** A line with nothing but white space before its comment is blank or
    starts, after the white space, with the semicolon. *)
Lemma lstrip_before_cut line :
  blank (take (run (fun c => negb (chr_eqb c ";")) line) line) ->
  lstrip line = [] \/ head (lstrip line) = Some ";"%char.
Proof.
  unfold lstrip, blank. induction line as [|x line IH]; [by left|]. simpl.
  destruct (chr_eqb x ";") eqn:E; simpl.
  - intros _. right. apply chr_eqb_eq in E as ->. done.
  - intros [Hx H]%Forall_cons. rewrite lstrip_by_drop by done. by apply IH.
Qed.

Lemma metadata_before_cut line :
  no_newline line ->
  blank (take (run (fun c => negb (chr_eqb c ";")) line) line) ->
  metadata_pattern_match (strip line) = false.
Proof.
  intros Hnl Hb. rewrite metadata_pattern_match_head by (by apply Forall_strip).
  pose proof (head_strip line) as Hh.
  destruct (strip line) as [|c t]; [done|]. simpl in Hh.
  destruct (lstrip_before_cut line Hb) as [E|E]; rewrite E in Hh; [done|].
  by injection Hh as ->.
Qed.

(** With comments ignored, a line counts as the line cut at its first
    semicolon. *)
Lemma normalize_line_cut config st line :
  ignore_comments config = true -> no_newline line ->
  normalize_line config st line
  = normalize_line config st (take (run (fun c => negb (chr_eqb c ";")) line) line).
Proof.
  intros Hc Hnl.
  set (l1 := take (run (fun c => negb (chr_eqb c ";")) line) line).
  assert (Hl1 : strip_comments config line = l1).
  { unfold strip_comments. rewrite Hc. by apply sub_comment_cut. }
  assert (Hnl1 : no_newline l1) by (by apply Forall_take).
  assert (Hfix : strip_comments config l1 = l1).
  { apply strip_comments_fixed; [done|]. intros _. apply take_run_Forall. }
  rewrite (normalize_line_without_empty_lines_option config st line).
  rewrite (normalize_line_without_empty_lines_option config st l1).
  assert (Hmeta : metadata_pattern_match (strip line) = metadata_pattern_match (strip l1)).
  { destruct (lstrip l1) as [|c t] eqn:El.
    - assert (blank l1) as Hb by (by apply lstrip_by_nil).
      rewrite (metadata_before_cut line) by done.
      assert (strip l1 = []) as -> by (by apply strip_nil). done.
    - apply metadata_pattern_match_same; [by apply Forall_strip..|].
      rewrite !head_strip. symmetry. apply head_lstrip_take. fold l1. by rewrite El. }
  unfold normalize_line. simpl ignore_empty_lines. simpl ignore_metadata.
  rewrite !andb_false_l, Hmeta.
  change (strip_comments (with_ignore_empty_lines false config)) with (strip_comments config).
  by rewrite Hl1, Hfix.
Qed.

Lemma normalize_line_comment config st l c :
  ignore_comments config = true -> no_newline l -> no_newline c ->
  normalize_line config st (l ++ ";"%char :: c) = normalize_line config st l.
Proof.
  intros Hc Hl Hcm.
  rewrite (normalize_line_cut config st (l ++ ";"%char :: c)); [|done|].
  - rewrite (normalize_line_cut config st l) by done. f_equal. apply cut_app.
  - apply Forall_app. split; [done|]. by constructor.
Qed.

(** X16.  With comments ignored, what follows a semicolon on a line
    does not count: a text whose lines end with comments and the text
    without them have the same normal form. *)
Theorem comments_are_invisible
    (config : ComparisonConfig) (lcs : list (list ascii * list ascii)) :
  ignore_comments config = true ->
  Forall (fun p => no_newline p.1 /\ no_newline p.2) lcs ->
  normalize config (join_lines (map (fun p => p.1 ++ ";"%char :: p.2) lcs))
  = normalize config (join_lines (map fst lcs)).
Proof.
  intros Hc H. rewrite !normalize_join.
  - f_equal. f_equal. generalize initial_locals.
    induction H as [|[l c] lcs [Hl Hcm] _ IH]; intros st; [done|].
    simpl. rewrite normalize_line_comment by done. apply IH.
  - apply Forall_fmap. eapply Forall_impl; [exact H|]. by intros p [? _].
  - apply Forall_fmap. eapply Forall_impl; [exact H|]. intros [l c] [Hl Hcm]. simpl.
    apply Forall_app. split; [done|]. by constructor.
Qed.

(** *** The lines of a normal form *)

(** One iteration appends at most one line, which is not blank, and is
    the result of [_normalize_whitespace] when white space is ignored. *)
Lemma normalize_line_appends config st line :
  normalized_lines (normalize_line config st line) = normalized_lines st \/
  exists y,
    normalized_lines (normalize_line config st line) = normalized_lines st ++ [y] /\
    strip y <> [] /\
    (ignore_whitespace config = true -> exists x, y = _normalize_whitespace x).
Proof.
  unfold normalize_line.
  destruct (ignore_empty_lines config && is_empty (strip line)); [by left|].
  destruct (ignore_metadata config && metadata_pattern_match (strip line)); [by left|].
  set (l0 := strip_debug_info config (strip_comments config line)).
  destruct (if ignore_labels config
            then _normalize_labels l0 (label_counter st) (label_map st)
            else (l0, label_counter st, label_map st)) as [[l1 lc] lm].
  destruct (if ignore_temp_vars config
            then _normalize_temp_vars l1 (temp_var_counter st) (temp_var_map st)
            else (l1, temp_var_counter st, temp_var_map st)) as [[l2 tc] tm].
  simpl.
  set (y := if ignore_whitespace config then _normalize_whitespace l2 else l2).
  destruct (is_empty (strip y)) eqn:E; simpl; [by left|].
  right. exists y. split; [done|]. split.
  - intros H. by rewrite H in E.
  - intros Hw. exists l2. unfold y. by rewrite Hw.
Qed.

(** X17.  Under every configuration [normalize] keeps at most as many
    lines as the text has.  When white space is ignored the normal form
    is moreover empty, or its lines are the lines kept and each of them
    is not empty, has no white space at its ends and has single spaces
    for white space. *)
Theorem normal_form_lines (config : ComparisonConfig) (text : list ascii) :
  let out := normalize config text in
  length (normalize_lines config text) <= length (split_lines text) /\
  (ignore_whitespace config = true ->
   out = [] \/
   split_lines out = normalize_lines config text /\
   Forall (fun l => l <> [] /\ strip l = l /\ single_spaced l) (split_lines out)).
Proof.
  intros out. unfold out, normalize, normalize_lines.
  assert (H : forall ls st,
    let st' := fold_left (normalize_line config) ls st in
    length (normalized_lines st') <= length (normalized_lines st) + length ls /\
    (ignore_whitespace config = true ->
     Forall (fun l => no_newline l /\ l <> [] /\ strip l = l /\ single_spaced l)
            (normalized_lines st) ->
     Forall (fun l => no_newline l /\ l <> [] /\ strip l = l /\ single_spaced l)
            (normalized_lines st'))).
  { induction ls as [|l ls IH]; intros st; cbv zeta; simpl; [split; [lia|done]|].
    destruct (IH (normalize_line config st l)) as [IH1 IH2].
    destruct (normalize_line_appends config st l) as [E|(y & E & Hy & Hx)].
    - rewrite E in IH1, IH2. split; [lia|done].
    - rewrite E in IH1, IH2. rewrite length_app in IH1. simpl in IH1. split; [lia|].
      intros Hw Hst. apply (IH2 Hw). apply Forall_app. split; [done|].
      constructor; [|done]. destruct (Hx Hw) as [x ->].
      rewrite _normalize_whitespace_collapse in *. split; [|split; [|split]].
      + apply Forall_strip, collapse_no_newline.
      + intros H0. rewrite H0 in Hy. by apply Hy.
      + apply strip_idem.
      + apply single_spaced_strip, collapse_single_spaced. }
  destruct (H (split_lines text) initial_locals) as [H1 H2]. simpl in H1.
  split; [exact H1|]. intros Hw. specialize (H2 Hw ltac:(constructor)).
  set (out_lines := normalized_lines _) in *.
  destruct out_lines as [|l ls] eqn:E; [by left|]. right.
  rewrite split_join; [|done|].
  - split; [done|]. eapply Forall_impl; [exact H2|]. by intros x (_ & ? & ? & ?).
  - eapply Forall_impl; [exact H2|]. by intros x (? & _).
Qed.

End NormalizerExtra.
(** ** Extraction: paths and files *)

Module ExtractionFacts.
Import Text TextFacts Parser ParserView ParserFacts ParserExtra.

(** *** Paths of generated names *)

Lemma split_at_none x s :
  Forall (fun c => chr_eqb c x = false) s -> split_at x s = [s].
Proof.
  induction 1 as [|c s Hc _ IH]; [done|]. simpl. by rewrite Hc, IH.
Qed.

Lemma Path_single f :
  f <> [] -> f <> "."%char :: [] -> Forall (fun c => chr_eqb c "/" = false) f ->
  Path f = {| root := []; parts := [f] |}.
Proof.
  intros Hne Hdot Hf. unfold Path. rewrite split_at_none by done.
  destruct f as [|c f]; [done|]. apply Forall_cons in Hf as [Hc Hf].
  cbn [run]. rewrite Hc. f_equal. simpl. unfold is_part.
  assert (list_eqb (c :: f) "." = false) as ->; [|done].
  unfold list_eqb. by apply bool_decide_eq_false.
Qed.

Lemma join_parts_snoc ps f :
  join_parts (ps ++ [f]) = concat (map (fun p => p ++ "/") ps) ++ f.
Proof.
  induction ps as [|p ps IH]; [done|].
  change (join_parts ((p :: ps) ++ [f])) with (join_parts (p :: (ps ++ [f]))).
  destruct (ps ++ [f]) as [|q qs] eqn:E; [by destruct ps|].
  change (join_parts (p :: q :: qs)) with (p ++ "/" ++ join_parts (q :: qs)).
  rewrite IH. simpl. by rewrite <- !app_assoc.
Qed.

Lemma str_path_parts r ps :
  ps <> [] -> str_path {| root := r; parts := ps |} = r ++ join_parts ps.
Proof. intros H. unfold str_path. simpl. by destruct ps. Qed.

Lemma path_join_single output_dir f :
  f <> [] -> f <> "."%char :: [] -> Forall (fun c => chr_eqb c "/" = false) f ->
  path_join output_dir f = directory_prefix output_dir ++ f.
Proof.
  intros Hne Hdot Hf. unfold path_join, joinpath, directory_prefix.
  rewrite Path_single by done. cbn [root parts is_empty].
  rewrite str_path_parts by (by destruct (parts output_dir)).
  by rewrite join_parts_snoc, <- app_assoc.
Qed.

Lemma is_replaced_slash c : is_replaced c = false -> chr_eqb c "/" = false.
Proof.
  intros H. destruct (chr_eqb c "/") eqn:E; [|done].
  apply chr_eqb_eq in E as ->. done.
Qed.

Lemma dump_path_prefix output_dir k h :
  dump_path output_dir k h
  = directory_prefix output_dir ++ _generate_filename k (hdr_pass_name h) (target h).
Proof.
  unfold dump_path.
  destruct (_generate_filename_prefix k (hdr_pass_name h) (target h)) as [r E].
  pose proof (pad3_length k) as Hlen.
  apply path_join_single.
  - rewrite E. destruct (pad3 k); [simpl in Hlen; lia|done].
  - rewrite E. destruct (pad3 k) as [|a [|b l]]; simpl in Hlen; try lia; done.
  - eapply Forall_impl; [apply _generate_filename_clean|]. apply is_replaced_slash.
Qed.

Lemma dump_path_inj dir i j h1 h2 : dump_path dir i h1 = dump_path dir j h2 -> i = j.
Proof.
  rewrite !dump_path_prefix. intros E%app_inv_head. by apply _generate_filename_inj in E.
Qed.

(** *** The spans written *)

Lemma _extract_ir_content_span lines ln e :
  e <= length lines ->
  _extract_ir_content lines (ln + 1) e
  = cleaned_lines lines ln (e - 1).
Proof.
  intros He. unfold _extract_ir_content, cleaned_lines.
  replace (ln + 1 - 1) with ln by lia.
  destruct (length lines <=? ln + 1) eqn:E; [|done].
  apply Nat.leb_le in E. by replace (e - 1 - ln) with 0 by lia.
Qed.

Lemma _save_ir_to_file_spec accepts content path fs :
  _save_ir_to_file accepts content path fs
  = if refused accepts path content then Raised (refusal path)
    else Done (<[path := content]> fs).
Proof.
  unfold _save_ir_to_file, refused, refusal.
  destruct (has_null path); [done|]. by destruct (accepts path content).
Qed.

Section Loop.
Variable accepts : list ascii -> list ascii -> bool.
Variable lines : list (list ascii).
Variable output_dir : PosixPath.

(** The loop saves the files of the headers in order and stops at the
    first one that is refused. *)
Lemma extract_loop_spec rest : forall i fs,
  let content := fun k h =>
    _extract_ir_content lines (line_number h + 1) (span_end lines rest k) in
  match extract_loop accepts lines output_dir i rest fs with
  | Done (passes, fs') =>
      length passes = length rest /\
      (forall k h, rest !! k = Some h ->
         refused accepts (dump_path output_dir (i + k) h) (content k h) = false /\
         passes !! k = Some {| pass_name := hdr_pass_name h; pass_index := i + k;
                               file_path := dump_path output_dir (i + k) h |} /\
         fs' !! dump_path output_dir (i + k) h = Some (content k h)) /\
      (forall p, (forall k h, rest !! k = Some h -> dump_path output_dir (i + k) h <> p) ->
         fs' !! p = fs !! p)
  | Raised e =>
      exists k h,
        rest !! k = Some h /\
        refused accepts (dump_path output_dir (i + k) h) (content k h) = true /\
        e = refusal (dump_path output_dir (i + k) h) /\
        forall j h', j < k -> rest !! j = Some h' ->
          refused accepts (dump_path output_dir (i + j) h') (content j h') = false
  end.
Proof.
  induction rest as [|header rest IH]; intros i fs; cbv zeta.
  - simpl. split; [done|]. split; [by intros k h|done].
  - cbn [extract_loop].
    set (c0 := _extract_ir_content lines (line_number header + 1)
                 match rest with next :: _ => line_number next | [] => length lines end).
    assert (Hc0 : c0 = _extract_ir_content lines (line_number header + 1)
                         (span_end lines (header :: rest) 0)).
    { unfold c0, span_end. simpl. by destruct rest. }
    fold (dump_path output_dir i header).
    rewrite _save_ir_to_file_spec.
    destruct (refused accepts (dump_path output_dir i header) c0) eqn:Hr.
    + exists 0, header. rewrite Nat.add_0_r, <- Hc0. split; [done|]. split; [done|].
      split; [done|]. intros j h' Hj. lia.
    + specialize (IH (i + 1) (<[dump_path output_dir i header := c0]> fs)).
      cbv zeta in IH.
      destruct (extract_loop accepts lines output_dir (i + 1) rest _)
        as [[passes fs2]|e].
      * destruct IH as (Hlen & Hin & Hout). split; [simpl; by rewrite Hlen|]. split.
        -- intros [|k] h Hk; simpl in Hk.
           ++ injection Hk as <-. rewrite Nat.add_0_r, <- Hc0.
              split; [done|]. split; [done|].
              rewrite Hout; [apply lookup_insert_eq|].
              intros k h _ E%dump_path_inj. lia.
           ++ destruct (Hin k h Hk) as (H0 & H1 & H2).
              replace (i + S k) with (i + 1 + k) by lia. done.
        -- intros p Hp. rewrite Hout.
           ++ apply lookup_insert_ne.
              specialize (Hp 0 header eq_refl). by rewrite Nat.add_0_r in Hp.
           ++ intros k h Hk. specialize (Hp (S k) h Hk).
              by replace (i + S k) with (i + 1 + k) in Hp by lia.
      * destruct IH as (k & h & Hk & Hrk & -> & Hbefore).
        exists (S k), h. replace (i + S k) with (i + 1 + k) by lia.
        split; [done|]. split; [done|]. split; [done|].
        intros [|j] h' Hj Hh'; simpl in Hh'.
        -- injection Hh' as <-. by rewrite Nat.add_0_r, <- Hc0.
        -- replace (i + S j) with (i + 1 + j) by lia. apply Hbefore; [lia|done].
Qed.

End Loop.

Lemma extractor_extract_loop accepts npm input_file output_dir fs :
  extractor accepts npm input_file output_dir fs
  = extract_loop accepts (readlines input_file) output_dir 0 (scanner npm input_file) fs.
Proof. by destruct npm. Qed.

Lemma span_end_bound npm text k :
  span_end (readlines text) (scanner npm text) k <= length (readlines text).
Proof.
  unfold span_end. destruct (scanner npm text !! S k) as [h|] eqn:E; [|done].
  apply list_elem_of_lookup_2 in E. rewrite scanner_headers_from in E.
  apply (headers_from_located _ (recognizer_number npm)) in E. lia.
Qed.

(** What an extraction does, in the terms of the headers found *)
Lemma extractor_spec accepts npm input_file output_dir fs :
  let headers := scanner npm input_file in
  let lines := readlines input_file in
  let path := dump_path output_dir in
  let content := fun k h =>
    cleaned_lines lines (line_number h) (span_end lines headers k - 1) in
  match extractor accepts npm input_file output_dir fs with
  | Done (passes, fs') =>
      length passes = length headers /\
      (forall k h, headers !! k = Some h ->
         refused accepts (path k h) (content k h) = false /\
         passes !! k = Some {| pass_name := hdr_pass_name h; pass_index := k;
                               file_path := path k h |} /\
         fs' !! path k h = Some (content k h)) /\
      (forall p, (forall k h, headers !! k = Some h -> path k h <> p) ->
         fs' !! p = fs !! p)
  | Raised e =>
      exists k h,
        headers !! k = Some h /\
        refused accepts (path k h) (content k h) = true /\
        e = refusal (path k h) /\
        forall j h', j < k -> headers !! j = Some h' ->
          refused accepts (path j h') (content j h') = false
  end.
Proof.
  intros headers lines path content. rewrite extractor_extract_loop.
  fold headers lines.
  pose proof (extract_loop_spec accepts lines output_dir headers 0 fs) as H.
  cbv zeta in H.
  assert (Hc : forall k h,
            _extract_ir_content lines (line_number h + 1) (span_end lines headers k)
            = content k h).
  { intros k h. apply _extract_ir_content_span, span_end_bound. }
  destruct (extract_loop accepts lines output_dir 0 headers fs) as [[passes fs']|e].
  - destruct H as (Hlen & Hin & Hout). split; [done|]. split; [|done].
    intros k h Hk. destruct (Hin k h Hk) as (H0 & H1 & H2).
    simpl in *. rewrite Hc in H0, H2. done.
  - destruct H as (k & h & Hk & Hr & He & Hb). exists k, h. simpl in *.
    rewrite Hc in Hr. split; [done|]. split; [done|]. split; [done|].
    intros j h' Hj Hh'. rewrite <- Hc. by apply Hb.
Qed.

(** X6.  In both dialects the extraction of a text that was read from
    the input file saves the files of the headers found, in order, and
    stops with the exception of the first file that cannot be saved,
    which is a file whose path holds a null character or that the
    system refuses.  When it returns, no file was refused, and there is
    one record per header, in order: the record at position [k] carries
    the header's pass name, the index [k] and the path of the file, and
    the file holds the lines after the header's line up to line
    [end_line - 1], where [end_line] is the line of the next header or,
    for the last header, the number of lines of the text; each line is
    stripped on the right and ended by a newline.  The paths are those
    of [pathlib] for the output directory and the generated name: two
    records never share a path, and what is stored under any other path
    does not change. *)
Theorem extraction_writes_one_file_per_header
    (accepts : list ascii -> list ascii -> bool) (npm : bool)
    (input_file : list ascii) (output_dir : PosixPath) (fs : files) :
  let headers := scanner npm input_file in
  let lines := readlines input_file in
  let path := fun k h =>
    str_path (joinpath output_dir (_generate_filename k (hdr_pass_name h) (target h))) in
  let content := fun k h =>
    cleaned_lines lines (line_number h) (span_end lines headers k - 1) in
  match extractor accepts npm input_file output_dir fs with
  | Done (passes, fs') =>
      (forall k h, headers !! k = Some h ->
         has_null (path k h) = false /\ accepts (path k h) (content k h) = true) /\
      length passes = length headers /\
      (forall k h, headers !! k = Some h ->
         exists p, passes !! k = Some p /\
           pass_name p = hdr_pass_name h /\ pass_index p = k /\
           file_path p = path k h /\
           fs' !! file_path p = Some (content k h)) /\
      (forall j k p q, passes !! j = Some p -> passes !! k = Some q ->
         file_path p = file_path q -> j = k) /\
      (forall x, (forall p, p ∈ passes -> file_path p <> x) -> fs' !! x = fs !! x)
  | Raised e =>
      exists k h,
        headers !! k = Some h /\
        (has_null (path k h) = true /\ e = EmbeddedNull (path k h) \/
         has_null (path k h) = false /\ accepts (path k h) (content k h) = false /\
         e = CannotWrite (path k h)) /\
        forall j h', j < k -> headers !! j = Some h' ->
          has_null (path j h') = false /\ accepts (path j h') (content j h') = true
  end.
Proof.
  intros headers lines path content.
  pose proof (extractor_spec accepts npm input_file output_dir fs) as H.
  cbv zeta in H. fold headers lines in H.
  change (dump_path output_dir) with path in H. fold content in H.
  assert (Hrefused : forall p c, refused accepts p c = false ->
            has_null p = false /\ accepts p c = true).
  { intros p c. unfold refused. destruct (has_null p), (accepts p c); done. }
  destruct (extractor accepts npm input_file output_dir fs) as [[passes fs']|e].
  - destruct H as (Hlen & Hin & Hout).
    assert (Hrec : forall k p, passes !! k = Some p ->
              exists h, headers !! k = Some h /\ file_path p = path k h).
    { intros k p Hk. destruct (headers !! k) as [h|] eqn:Hh.
      - exists h. split; [done|]. destruct (Hin k h Hh) as (_ & E & _).
        rewrite Hk in E. by injection E as ->.
      - apply lookup_ge_None in Hh. apply lookup_lt_Some in Hk. lia. }
    split; [|split; [done|split; [|split]]].
    + intros k h Hk. destruct (Hin k h Hk) as (H0 & _). by apply Hrefused.
    + intros k h Hk. destruct (Hin k h Hk) as (_ & E1 & E2).
      eexists. split; [exact E1|]. simpl. done.
    + intros j k p q Hj Hk E.
      destruct (Hrec j p Hj) as (h1 & _ & E1), (Hrec k q Hk) as (h2 & _ & E2).
      rewrite E1, E2 in E. by apply (dump_path_inj output_dir) in E.
    + intros x Hx. apply Hout. intros k h Hk E.
      destruct (Hin k h Hk) as (_ & E1 & _).
      apply list_elem_of_lookup_2 in E1. by apply Hx in E1.
  - destruct H as (k & h & Hk & Hr & -> & Hb). exists k, h. split; [done|]. split.
    + unfold refused, refusal in *. destruct (has_null (path k h)); [by left|].
      right. simpl in Hr. apply negb_true_iff in Hr. done.
    + intros j h' Hj Hh'. apply Hrefused. by apply Hb.
Qed.

End ExtractionFacts.
(** ** The first-divergence scan *)

Module DivergenceFacts.
Import Analyzer.

Lemma list_eqb_true a b : Text.list_eqb a b = true <-> a = b.
Proof. unfold Text.list_eqb. apply bool_decide_eq_true. Qed.

Lemma list_eqb_refl a : Text.list_eqb a a = true.
Proof. by apply list_eqb_true. Qed.

Lemma list_eqb_false a b : a <> b -> Text.list_eqb a b = false.
Proof. intros H. unfold Text.list_eqb. by apply bool_decide_eq_false. Qed.

Section Scan.
Variable config : ComparisonConfig.
Variable fs : files.

Lemma step_agree all i q rest tr :
  sides_agree config fs q ->
  compare_from config fs all i (q :: rest) tr =
  compare_from config fs all (i + 1) rest (tr ++ [file_path q.1; file_path q.2]).
Proof.
  intros (ir & ca & cb & Ha & Hb & -> & Heq). destruct q as [a b]. simpl in *.
  unfold bind, _load_and_normalize_ir. rewrite Ha, Hb. rewrite <- Heq.
  rewrite list_eqb_refl. simpl. by rewrite <- app_assoc.
Qed.

Lemma step_differ all i q rest tr legacy_ir npm_ir :
  normalized_sides config fs q legacy_ir npm_ir -> legacy_ir <> npm_ir ->
  compare_from config fs all i (q :: rest) tr =
  (Returned (Divergence i q.1 q.2
     (if 0 <? i then Some (i - 1) else None)
     (if 0 <? i then fst <$> all !! (i - 1) else None)
     (if 0 <? i then snd <$> all !! (i - 1) else None)
     legacy_ir npm_ir),
   tr ++ [file_path q.1; file_path q.2]).
Proof.
  intros (ca & cb & Ha & Hb & -> & ->) Hne. destruct q as [a b]. simpl in *.
  unfold bind, _load_and_normalize_ir. rewrite Ha, Hb.
  rewrite list_eqb_false by done. simpl. unfold ret. by rewrite <- app_assoc.
Qed.

(** A prefix of agreeing pairs is walked through. *)
Lemma walk_agreeing all pre : forall i rest tr,
  Forall (sides_agree config fs) pre ->
  compare_from config fs all i (pre ++ rest) tr =
  compare_from config fs all (i + length pre) rest (tr ++ paths_of pre).
Proof.
  induction pre as [|q pre IH]; intros i rest tr Hpre.
  - simpl. unfold paths_of. simpl. rewrite app_nil_r. f_equal. lia.
  - inversion Hpre as [|? ? Hq Hpre']; subst.
    simpl app. rewrite step_agree by done. rewrite IH by done.
    unfold paths_of. simpl. rewrite <- app_assoc. simpl.
    f_equal. lia.
Qed.

End Scan.

(** C1.  Let the pairs before position [i] have sides that normalize to
    equal text, and let the sides of pair [i] normalize to different
    texts.  Then [_find_first_divergence] returns the divergence record
    with index [i], that pair, and pair [i - 1] as the last common one
    (none, with no last common index, when [i] is 0); the files it opened
    are those of the pairs up to [i] and no other, so no later pair is
    normalized or compared.  If the sides of every pair normalize to
    equal text, it returns the record of no divergence. *)
Theorem find_first_divergence_first_mismatch
    (config : ComparisonConfig) (fs : files)
    (mapped_pairs : list (PassDump * PassDump)) :
  (forall i q legacy_ir npm_ir,
     mapped_pairs !! i = Some q ->
     Forall (sides_agree config fs) (take i mapped_pairs) ->
     normalized_sides config fs q legacy_ir npm_ir ->
     legacy_ir <> npm_ir ->
     _find_first_divergence config fs mapped_pairs [] =
     (Returned (Divergence i q.1 q.2
        (match i with O => None | S j => Some j end)
        (match i with O => None | S j => fst <$> mapped_pairs !! j end)
        (match i with O => None | S j => snd <$> mapped_pairs !! j end)
        legacy_ir npm_ir),
      paths_of (take (S i) mapped_pairs)))
  /\
  (Forall (sides_agree config fs) mapped_pairs ->
   _find_first_divergence config fs mapped_pairs [] =
   (Returned NoDivergence, paths_of mapped_pairs)).
Proof.
  split.
  - intros i q legacy_ir npm_ir Hq Hpre Hsides Hne.
    unfold _find_first_divergence.
    pose proof (take_drop_middle _ _ _ Hq) as Hsplit.
    rewrite <- Hsplit at 2.
    rewrite walk_agreeing by done.
    rewrite (step_differ config fs _ _ q _ _ legacy_ir npm_ir Hsides Hne).
    assert (length (take i mapped_pairs) = i) as Hlen.
    { apply length_take_le. apply lookup_lt_Some in Hq. lia. }
    rewrite Hlen. simpl.
    rewrite (take_S_r _ _ _ Hq). unfold paths_of.
    rewrite map_app, concat_app. simpl.
    destruct i as [|j]; simpl; [done|].
    by rewrite Nat.sub_0_r.
  - intros Hall. unfold _find_first_divergence.
    rewrite <- (app_nil_r mapped_pairs) at 2.
    rewrite walk_agreeing by done. done.
Qed.

End DivergenceFacts.

(** ** Numbered temporaries through the normalizer *)

Module RunsFacts.
Import Text TextFacts Re ReFacts Normalizer NormalizerView.
Import TempVars WhitespaceFacts NormalizerFacts NumberedFacts NormalizerExtra.

(** *** Percent signs and digits *)

Lemma leading_digits_cons c s :
  leading_digits (c :: s) = if is_digit c then c :: leading_digits s else [].
Proof. unfold leading_digits. simpl. by destruct (is_digit c). Qed.

Lemma percent_runs_cons c s :
  percent_runs (c :: s)
  = if chr_eqb c "%" then leading_digits s :: percent_runs s else percent_runs s.
Proof. reflexivity. Qed.

Lemma same_runs_refl s : same_runs s s.
Proof. by split. Qed.

Lemma same_runs_trans a b c : same_runs a b -> same_runs b c -> same_runs a c.
Proof. intros [? ?] [? ?]. split; congruence. Qed.

Lemma same_runs_cons c r s : same_runs r s -> same_runs (c :: r) (c :: s).
Proof.
  intros [H1 H2]. split.
  - rewrite !leading_digits_cons. by rewrite H1.
  - rewrite !percent_runs_cons. by rewrite H1, H2.
Qed.

Lemma percent_runs_plain m x : no_percent m -> percent_runs (m ++ x) = percent_runs x.
Proof.
  induction 1 as [|c m Hc _ IH]; [done|]. simpl. by rewrite Hc.
Qed.

Lemma leading_digits_drop_run s : leading_digits (drop (run is_digit s) s) = [].
Proof.
  induction s as [|c s IH]; [done|]. simpl.
  destruct (is_digit c) eqn:E; [done|]. simpl. rewrite leading_digits_cons. by rewrite E.
Qed.

(** What stands for a match keeps the percent signs and digits of the
    text when both start with a character that is not a digit and hold
    no percent sign, *)
Lemma barrier_plain c m d o r rest :
  is_digit c = false -> no_percent (c :: m) ->
  is_digit d = false -> no_percent (d :: o) ->
  same_runs r rest -> same_runs ((d :: o) ++ r) ((c :: m) ++ rest).
Proof.
  intros Hc Hm Hd Ho [_ H]. split.
  - simpl. rewrite !leading_digits_cons. by rewrite Hc, Hd.
  - by rewrite !percent_runs_plain.
Qed.

(** when the match is deleted and no digit follows it, *)
Lemma barrier_delete c m r rest :
  is_digit c = false -> no_percent (c :: m) -> leading_digits rest = [] ->
  same_runs r rest -> same_runs r ((c :: m) ++ rest).
Proof.
  intros Hc Hm Hrest [H1 H2]. split.
  - simpl. rewrite leading_digits_cons, Hc. congruence.
  - by rewrite percent_runs_plain.
Qed.

(** and when both are a percent sign followed by such a text. *)
Lemma barrier_percent c m d o r rest :
  is_digit c = false -> no_percent (c :: m) ->
  is_digit d = false -> no_percent (d :: o) ->
  same_runs r rest ->
  same_runs (("%"%char :: d :: o) ++ r) (("%"%char :: c :: m) ++ rest).
Proof.
  intros Hc Hm Hd Ho [_ H]. split; [done|].
  change (("%"%char :: d :: o) ++ r) with ("%"%char :: (d :: o) ++ r).
  change (("%"%char :: c :: m) ++ rest) with ("%"%char :: (c :: m) ++ rest).
  rewrite !percent_runs_cons. simpl chr_eqb. cbv iota.
  rewrite !percent_runs_plain by done. simpl.
  rewrite !leading_digits_cons. by rewrite Hc, Hd, H.
Qed.

(** A scan keeps the percent signs and digits of the text when each
    replacement does; [inv] is what the replacements need of the
    state. *)
Lemma sub_from_runs {St : Type} (pat : pattern)
    (repl : list ascii -> St -> list ascii * St) (inv : St -> Prop) :
  (forall prev s n st, inv st -> pat prev s = Some n ->
     n <> 0 /\ n <= length s /\
     inv (repl (take n s) st).2 /\
     forall r, same_runs r (drop n s) -> same_runs ((repl (take n s) st).1 ++ r) s) ->
  forall s prev k st, inv st ->
    same_runs (sub_from pat repl prev k s st).1 (drop k s) /\
    inv (sub_from pat repl prev k s st).2.
Proof.
  intros Hpat. induction s as [|c s IH]; intros prev k st Hst.
  - simpl. destruct k; [|by rewrite drop_nil].
    destruct (pat prev []) as [n|] eqn:E; [|done].
    destruct (Hpat _ _ _ _ Hst E) as (H0 & Hlen & _). simpl in Hlen. lia.
  - cbn [sub_from]. destruct k as [|k]; [|apply IH, Hst].
    destruct (pat prev (c :: s)) as [[|n]|] eqn:E.
    + by destruct (Hpat _ _ _ _ Hst E) as (H0 & _).
    + destruct (Hpat _ _ _ _ Hst E) as (_ & _ & Hinv & Hruns).
      destruct (repl (take (S n) (c :: s)) st) as [o st1]. simpl in Hinv, Hruns.
      destruct (IH (Some c) n st1 Hinv) as [IH1 IH2].
      destruct (sub_from pat repl (Some c) n s st1) as [r st2]. simpl in *.
      split; [|done]. by apply Hruns.
    + destruct (IH (Some c) 0 st Hst) as [IH1 IH2].
      destruct (sub_from pat repl (Some c) 0 s st) as [r st2]. simpl in *.
      split; [|done]. by apply same_runs_cons.
Qed.

(** *** The matches of the patterns *)

Lemma starts_with_split p s : starts_with p s = true -> s = p ++ drop (length p) s.
Proof.
  revert s. induction p as [|a p IH]; intros s; [done|].
  intros (s' & -> & H)%starts_with_cons. simpl. f_equal. by apply IH.
Qed.

Lemma is_name_start_plain c : is_name_start c = true -> chr_eqb c "%" = false.
Proof.
  intros H. destruct (chr_eqb c "%") eqn:E; [|done].
  apply chr_eqb_eq in E as ->. done.
Qed.

Lemma is_name_char_plain c : is_name_char c = true -> chr_eqb c "%" = false.
Proof.
  unfold is_name_char. intros [H|H]%orb_true_iff.
  - by apply is_name_start_plain.
  - by apply is_digit_not_percent.
Qed.

(** The name after its first character, as the three greedy pieces
    take it: no percent sign is in it. *)
Lemma name_tail_plain s1 :
  let n1 := run is_name_char s1 in
  let s2 := drop n1 s1 in
  let n2 := run (fun c => chr_eqb c ".") (take 1 s2) in
  let s3 := drop n2 s2 in
  let n3 := run is_digit s3 in
  no_percent (take (n1 + n2 + n3) s1) /\ n1 + n2 + n3 <= length s1 /\
  drop (n1 + n2 + n3) s1 = drop n3 s3.
Proof.
  intros n1 s2 n2 s3 n3.
  assert (Hn2 : n2 <= 1).
  { pose proof (run_le_length (fun c => chr_eqb c ".") (take 1 s2)) as H.
    fold n2 in H. rewrite length_take in H. lia. }
  assert (E : take (n1 + n2 + n3) s1 = take n1 s1 ++ take n2 s2 ++ take n3 s3).
  { rewrite <- Nat.add_assoc, <- take_take_drop. fold s2. f_equal.
    by rewrite <- take_take_drop. }
  split; [|split].
  - rewrite E. unfold no_percent. apply Forall_app. split; [|apply Forall_app; split].
    + eapply Forall_impl; [apply take_run_Forall|]. apply is_name_char_plain.
    + assert (take n2 s2 = take n2 (take 1 s2)) as ->.
      { rewrite take_take. f_equal. lia. }
      eapply Forall_impl; [apply take_run_Forall|]. simpl.
      intros c Hc. apply chr_eqb_eq in Hc as ->. done.
    + eapply Forall_impl; [apply take_run_Forall|]. apply is_digit_not_percent.
  - pose proof (run_le_length is_name_char s1) as L1. fold n1 in L1.
    pose proof (run_le_length is_digit s3) as L3. fold n3 in L3.
    unfold s3, s2 in L3. rewrite !length_drop in L3.
    assert (n2 <= length s2).
    { pose proof (run_le_length (fun c => chr_eqb c ".") (take 1 s2)) as H.
      fold n2 in H. rewrite length_take in H. lia. }
    unfold s2 in H. rewrite length_drop in H. lia.
  - unfold s3, s2. rewrite !drop_drop. f_equal. lia.
Qed.

Lemma temp_var_pattern_match prev s n :
  temp_var_pattern prev s = Some n ->
  n <> 0 /\ n <= length s /\
  exists c m, take n s = "%"%char :: c :: m /\ is_digit c = false /\ no_percent (c :: m).
Proof.
  unfold temp_var_pattern. destruct s as [|c0 [|c1 s1]]; try done.
  destruct (chr_eqb c0 "%") eqn:H0; [|done].
  destruct (is_name_start c1) eqn:H1; [|done]. simpl andb. cbv iota.
  apply chr_eqb_eq in H0 as ->.
  destruct (name_tail_plain s1) as (Hp & Hlen & _). cbv zeta in Hp, Hlen.
  intros [= <-]. split; [lia|]. split; [simpl; lia|].
  exists c1, (take (run is_name_char s1
                    + run (fun c => chr_eqb c ".") (take 1 (drop (run is_name_char s1) s1))
                    + run is_digit
                        (drop (run (fun c => chr_eqb c ".")
                                 (take 1 (drop (run is_name_char s1) s1)))
                           (drop (run is_name_char s1) s1))) s1).
  split; [|split].
  - rewrite <- !Nat.add_assoc. reflexivity.
  - by apply is_name_start_not_digit.
  - constructor; [by apply is_name_start_plain|done].
Qed.

Lemma label_pattern_match prev s n :
  label_pattern prev s = Some n ->
  n <> 0 /\ n <= length s /\
  exists c m, take n s = c :: m ++ [":"%char] /\
              is_digit c = false /\ no_percent (c :: m).
Proof.
  unfold label_pattern. destruct prev; [done|]. destruct s as [|c1 s1]; [done|].
  destruct (is_name_start c1) eqn:H1; [|done]. cbv zeta.
  destruct (name_tail_plain s1) as (Hp & Hlen & Hdrop). cbv zeta in Hp, Hlen, Hdrop.
  set (k := run is_name_char s1
            + run (fun c => chr_eqb c ".") (take 1 (drop (run is_name_char s1) s1))
            + run is_digit
                (drop (run (fun c => chr_eqb c ".")
                         (take 1 (drop (run is_name_char s1) s1)))
                   (drop (run is_name_char s1) s1))) in *.
  rewrite <- Hdrop.
  destruct (starts_with ":" (drop k s1)) eqn:E; [|done].
  apply starts_with_cons in E as (t & Et & _).
  assert (Hk : k < length s1).
  { apply (f_equal length) in Et. rewrite length_drop in Et. simpl in Et. lia. }
  intros [= <-]. split; [lia|]. split; [simpl; lia|].
  exists c1, (take k s1). split; [|split].
  - change (take (S (k + 1)) (c1 :: s1) = c1 :: take k s1 ++ [":"%char]).
    cbn [take]. f_equal. rewrite <- take_take_drop, Et. reflexivity.
  - by apply is_name_start_not_digit.
  - constructor; [by apply is_name_start_plain|done].
Qed.

Lemma debug_info_pattern_match prev s n :
  debug_info_pattern prev s = Some n ->
  n <> 0 /\ n <= length s /\
  leading_digits (drop n s) = [] /\
  exists m, take n s = ","%char :: m /\ no_percent (","%char :: m).
Proof.
  unfold debug_info_pattern.
  destruct (starts_with ", !dbg !" s) eqn:E; [|done].
  apply starts_with_split in E.
  change (length (list_ascii_of_string ", !dbg !")) with 8 in E.
  revert E. generalize (drop 8 s). intros t ->.
  destruct (run is_digit t) as [|k] eqn:Hk; [done|]. intros [= <-].
  pose proof (run_le_length is_digit t) as Hlen. rewrite Hk in Hlen.
  split; [lia|]. split; [simpl; lia|]. split.
  - change (leading_digits (drop (S k) t) = []).
    rewrite <- Hk. apply leading_digits_drop_run.
  - exists (drop 1 ", !dbg !" ++ take (S k) t). split; [reflexivity|].
    change (","%char :: drop 1 ", !dbg !" ++ take (S k) t)
      with ((", !dbg !" : list ascii) ++ take (S k) t).
    unfold no_percent. apply Forall_app. split; [by repeat constructor|].
    rewrite <- Hk. eapply Forall_impl; [apply take_run_Forall|].
    apply is_digit_not_percent.
Qed.

Lemma bounded_literal_match key prev s n :
  bounded_literal key prev s = Some n -> n = length key /\ take n s = key /\ n <= length s.
Proof.
  unfold bounded_literal. destruct (word_boundary prev (head s)); [|done].
  destruct (starts_with key s) eqn:E; [|done].
  destruct (word_boundary _ _); [|done]. intros [= <-].
  apply starts_with_split in E. split; [done|]. split.
  - rewrite E at 1. by rewrite take_app_length.
  - rewrite E, length_app. lia.
Qed.

(** *** The stages of a line *)

Lemma same_runs_split n r s : same_runs r (take n s ++ drop n s) -> same_runs r s.
Proof. by rewrite take_drop. Qed.

Lemma strip_debug_info_runs config s : same_runs (strip_debug_info config s) s.
Proof.
  unfold strip_debug_info. destruct (ignore_debug_info config); [|apply same_runs_refl].
  unfold Re.sub, sub_st.
  apply (sub_from_runs debug_info_pattern (fun _ (u : unit) => ([], u)) (fun _ => True));
    [|done].
  intros prev t n [] _ Hm.
  apply debug_info_pattern_match in Hm as (H0 & Hlen & Hlead & m & Hm & Hp).
  split; [done|]. split; [done|]. split; [done|]. intros r Hr. simpl.
  apply (same_runs_split n). rewrite Hm. apply barrier_delete; try done.
Qed.

Lemma Dict_get_set k v (m : Dict.t) : Dict.get k (Dict.set k v m) = Some v.
Proof.
  induction m as [|[k' v'] m IH]; simpl.
  - unfold list_eqb. by rewrite bool_decide_eq_true_2.
  - destruct (list_eqb k k') eqn:E; simpl; by rewrite E.
Qed.

(** The replacement of a name is its numbered name. *)
Lemma numbered_output prefix counter (m : Dict.t) k :
  numbered_table prefix counter m ->
  let m' := if negb (Dict.mem k m) then Dict.set k (prefix ++ decimal counter) m else m in
  exists j, Dict.get_or_empty k m' = prefix ++ decimal j.
Proof.
  intros (_ & _ & Hval). unfold Dict.mem, Dict.get_or_empty.
  destruct (Dict.get k m) as [v|] eqn:E; simpl.
  - rewrite E. apply Dict_get_lookup in E as (i & Hi). exists i. by apply (Hval _ _ Hi).
  - rewrite Dict_get_set. by exists counter.
Qed.

Lemma decimal_plain j : no_percent (decimal j) /\ Forall (fun c => is_digit c = true) (decimal j).
Proof. split; [apply decimal_no_percent|apply uint_digits]. Qed.

Lemma _normalize_temp_vars_runs line counter m :
  numbered_table "%temp_" counter m ->
  same_runs (_normalize_temp_vars line counter m).1.1 line.
Proof.
  intros Hm. unfold _normalize_temp_vars, scan.
  pose proof (sub_from_runs temp_var_pattern replace_temp_var
                (fun st => numbered_table "%temp_" st.1 st.2)) as H.
  lapply H; [clear H; intros H|clear].
  2: { intros prev s n [c tm] Hst Hmatch. simpl in Hst.
    apply temp_var_pattern_match in Hmatch as (H0 & Hlen & d & t & Ht & Hd & Hp).
    split; [done|]. split; [done|]. split; [by apply replace_temp_var_table|].
    intros r Hr.
    destruct (numbered_output "%temp_" c tm (take n s) Hst) as [j Hj]. cbv zeta in Hj.
    assert ((replace_temp_var (take n s) (c, tm)).1 = "%temp_" ++ decimal j) as ->.
    { unfold replace_temp_var. rewrite <- Hj.
      by destruct (negb (Dict.mem (take n s) tm)). }
    apply (same_runs_split n). rewrite Ht.
    change (("%temp_" : list ascii) ++ decimal j)
      with ("%"%char :: "t"%char :: ("emp_" : list ascii) ++ decimal j).
    apply barrier_percent; try done.
    change ("t"%char :: ("emp_" : list ascii) ++ decimal j)
      with (("temp_" : list ascii) ++ decimal j).
    apply no_percent_app; [by repeat constructor|apply decimal_no_percent]. }
  destruct (H line None 0 (counter, m) Hm) as [H1 _].
  by destruct (sub_from temp_var_pattern replace_temp_var None 0 line (counter, m))
    as [o [c' m']].
Qed.

(** The numbered name of a label, and the text that stands for its
    references *)
Lemma label_name_plain j :
  exists o, ("label_" : list ascii) ++ decimal j = "l"%char :: o /\
            no_percent ("l"%char :: o) /\
            exists o', rstrip_chr ":" (("label_" : list ascii) ++ decimal j) = "l"%char :: o' /\
                       no_percent ("l"%char :: o').
Proof.
  exists (("abel_" : list ascii) ++ decimal j). split; [done|].
  assert (no_percent (("label_" : list ascii) ++ decimal j)) as Hp
    by (apply no_percent_app; [by repeat constructor|apply decimal_no_percent]).
  split; [done|].
  destruct (rstrip_by_head (fun c => chr_eqb c ":") "l"%char
              (("abel_" : list ascii) ++ decimal j) eq_refl) as [t Ht].
  exists t. split; [exact Ht|].
  change ("l"%char :: ("abel_" : list ascii) ++ decimal j)
    with (("label_" : list ascii) ++ decimal j) in Ht.
  unfold rstrip_chr in *. rewrite <- Ht. by apply Forall_rstrip_by.
Qed.

Lemma sub_reference_runs key value text :
  (exists c k', key = c :: k' /\ is_digit c = false) -> no_percent key ->
  (exists j, value = ("label_" : list ascii) ++ decimal j) ->
  same_runs (Re.sub (bounded_literal key) (rstrip_chr ":" value) text) text.
Proof.
  intros (c & k' & -> & Hc) Hp [j ->]. unfold Re.sub, sub_st.
  destruct (label_name_plain j) as (_ & _ & _ & o' & Ho & Hpo). rewrite Ho.
  apply (sub_from_runs (bounded_literal (c :: k'))
           (fun _ (u : unit) => ("l"%char :: o', u)) (fun _ => True)); [|done].
  intros prev t n [] _ Hm.
  apply bounded_literal_match in Hm as (-> & Ht & Hlen).
  split; [done|]. split; [done|]. split; [done|]. intros r Hr. simpl fst.
  apply (same_runs_split (length (c :: k'))). rewrite Ht.
  by apply barrier_plain.
Qed.

Lemma replace_references_runs (m : Dict.t) text :
  Forall (fun kv => ((exists c k', kv.1 = c :: k' /\ is_digit c = false) /\ no_percent kv.1)
                    /\ exists j, kv.2 = ("label_" : list ascii) ++ decimal j) m ->
  same_runs (replace_references m text) text.
Proof.
  unfold replace_references. intros Hm. revert text.
  induction Hm as [|[k v] m [[Hk Hp] Hv] _ IH]; intros text; [apply same_runs_refl|].
  simpl. eapply same_runs_trans; [apply IH|]. by apply sub_reference_runs.
Qed.

Lemma numbered_table_values prefix counter (m : Dict.t) :
  numbered_table prefix counter m ->
  Forall (fun kv => exists j, kv.2 = prefix ++ decimal j) m.
Proof.
  intros (_ & _ & Hval). apply Forall_lookup. intros i kv Hi. exists i. by apply Hval.
Qed.

Lemma _normalize_labels_runs line counter m :
  numbered_table "label_" counter m -> label_keys_ok m ->
  same_runs (_normalize_labels line counter m).1.1 line /\
  numbered_table "label_" (_normalize_labels line counter m).1.2
                          (_normalize_labels line counter m).2 /\
  label_keys_ok (_normalize_labels line counter m).2.
Proof.
  intros Hm Hk. unfold _normalize_labels, sub_st.
  pose proof (sub_from_runs label_pattern replace_label
                (fun st => numbered_table "label_" st.1 st.2 /\ label_keys_ok st.2)) as H.
  lapply H; [clear H; intros H|clear].
  2: { intros prev s n [c lm] [Hst Hkeys] Hmatch. simpl in Hst, Hkeys.
    apply label_pattern_match in Hmatch as (H0 & Hlen & d & t & Ht & Hd & Hp).
    split; [done|]. split; [done|].
    assert (Hkey : removelast (take n s) = d :: t).
    { rewrite Ht. change (d :: t ++ [":"%char]) with ((d :: t) ++ [":"%char]).
      apply removelast_last. }
    split; [split|].
    + by apply replace_label_table.
    + unfold replace_label. rewrite Hkey. unfold Dict.mem.
      destruct (Dict.get (d :: t) lm) eqn:E; simpl; [done|].
      rewrite Dict_set_new by done. apply Forall_app. split; [done|].
      constructor; [|done]. simpl. split; [done|]. by exists d, t.
    + intros r Hr.
      destruct (numbered_output "label_" c lm (d :: t) Hst) as [j Hj]. cbv zeta in Hj.
      assert ((replace_label (take n s) (c, lm)).1
              = (("label_" : list ascii) ++ decimal j) ++ ":") as ->.
      { unfold replace_label. rewrite Hkey, <- Hj.
        by destruct (negb (Dict.mem (d :: t) lm)). }
      destruct (label_name_plain j) as (o & -> & Hpo & _).
      apply (same_runs_split n). rewrite Ht.
      change (d :: t ++ [":"%char]) with (d :: (t ++ [":"%char])).
      change (("l"%char :: o) ++ ":") with ("l"%char :: (o ++ ":")).
      apply barrier_plain; try done.
      * change (d :: t ++ [":"%char]) with ((d :: t) ++ [":"%char]).
        apply no_percent_app; [done|by repeat constructor].
      * change ("l"%char :: o ++ ":") with (("l"%char :: o) ++ ":").
        apply no_percent_app; [done|by repeat constructor]. }
  destruct (H line None 0 (counter, m) (conj Hm Hk)) as [H1 [H2 H3]].
  destruct (sub_from label_pattern replace_label None 0 line (counter, m))
    as [o [c' m']]. simpl in *. split; [|done].
    eapply same_runs_trans; [|apply H1]. apply replace_references_runs.
    pose proof (numbered_table_values _ _ _ H2) as Hv.
    unfold label_keys_ok in H3.
    apply Forall_lookup. intros i kv Hi.
    rewrite Forall_lookup in Hv, H3. specialize (Hv i kv Hi). specialize (H3 i kv Hi).
    destruct H3 as [? ?]. done.
Qed.

(** White space *)
Lemma collapse_runs s :
  (forall b, percent_runs (collapse b s) = percent_runs s) /\
  leading_digits (collapse false s) = leading_digits s.
Proof.
  induction s as [|c s [IH1 IH2]]; [done|]. split.
  - intros b. simpl. destruct (isspace c) eqn:Hc.
    + destruct (isspace_plain c Hc) as (_ & _ & Hp & _). rewrite Hp.
      destruct b; [apply IH1|]. simpl. apply IH1.
    + simpl. by rewrite IH1, IH2.
  - simpl. destruct (isspace c) eqn:Hc.
    + rewrite !leading_digits_cons.
      assert (is_digit c = false) as ->; [|done].
      destruct (is_digit c) eqn:E; [|done].
      destruct c as [[] [] [] [] [] [] [] []]; vm_compute in Hc, E; congruence.
    + rewrite !leading_digits_cons. by rewrite IH2.
Qed.

Lemma blank_no_percent s : blank s -> no_percent s.
Proof.
  intros H. eapply Forall_impl; [exact H|]. simpl. intros c Hc.
  by destruct (isspace_plain c Hc) as (_ & _ & Hp & _).
Qed.

Lemma percent_runs_lstrip s : percent_runs (lstrip s) = percent_runs s.
Proof.
  unfold lstrip, lstrip_by.
  transitivity (percent_runs (take (run isspace s) s ++ drop (run isspace s) s));
    [|by rewrite take_drop].
  rewrite percent_runs_plain; [done|].
  apply blank_no_percent. apply take_run_Forall.
Qed.

Lemma percent_runs_blank_end s t : blank t -> percent_runs (s ++ t) = percent_runs s.
Proof.
  intros Ht. induction s as [|c s IH].
  - simpl. rewrite <- (app_nil_r t). by rewrite percent_runs_plain by (by apply blank_no_percent).
  - simpl. rewrite IH. destruct (chr_eqb c "%"); [|done]. f_equal.
    unfold leading_digits. clear IH. induction s as [|d s IH]; simpl.
    + destruct Ht as [|x t Hx Ht]; [done|]. simpl.
      assert (is_digit x = false) as ->; [|done].
      destruct (is_digit x) eqn:E; [|done].
      destruct x as [[] [] [] [] [] [] [] []]; vm_compute in Hx, E; congruence.
    + destruct (is_digit d); [|done]. simpl. by rewrite IH.
Qed.

Lemma rstrip_by_suffix p s : exists t, s = rstrip_by p s ++ t /\ Forall (fun c => p c = true) t.
Proof.
  induction s as [|c s (t & IH & Ht)]; [by exists []|].
  simpl. destruct (rstrip_by p s) as [|d r] eqn:E.
  - destruct (p c) eqn:Hc.
    + exists (c :: s). split; [done|]. constructor; [done|].
      simpl in IH. by rewrite IH.
    + exists t. simpl in *. split; [by f_equal|done].
  - exists t. simpl in *. split; [by f_equal|done].
Qed.

Lemma percent_runs_strip s : percent_runs (strip s) = percent_runs s.
Proof.
  unfold strip, rstrip. rewrite <- (percent_runs_lstrip s).
  destruct (rstrip_by_suffix isspace (lstrip s)) as (t & E & Ht).
  rewrite E at 2. symmetry. by apply percent_runs_blank_end.
Qed.

Lemma _normalize_whitespace_runs s :
  percent_runs (_normalize_whitespace s) = percent_runs s.
Proof.
  rewrite _normalize_whitespace_collapse, percent_runs_strip.
  apply collapse_runs.
Qed.

(** *** Line by line *)

Lemma strip_comments_before config line :
  no_newline line -> strip_comments config line = before_comment config line.
Proof.
  intros H. unfold strip_comments, before_comment.
  destruct (ignore_comments config); [by apply sub_comment_cut|done].
Qed.

Lemma blank_runs y : is_empty (strip y) = true -> percent_runs y = [].
Proof.
  intros H. rewrite <- percent_runs_strip. apply is_empty_true in H. by rewrite H.
Qed.

Lemma tables_ok_initial : tables_ok initial_locals.
Proof.
  repeat split; try done; try constructor.
  all: by intros i kv Hi; rewrite lookup_nil in Hi.
Qed.

(** A line that is not skipped either leaves the output as it is, and
    then it has no percent sign before its comment, or adds one line,
    which has the percent signs and digits of the line. *)
Lemma normalize_line_runs config st line :
  no_newline line -> tables_ok st -> is_skipped config line = false ->
  tables_ok (normalize_line config st line) /\
  ((normalized_lines (normalize_line config st line) = normalized_lines st /\
    percent_runs (before_comment config line) = []) \/
   exists y,
     normalized_lines (normalize_line config st line) = normalized_lines st ++ [y] /\
     percent_runs y = percent_runs (before_comment config line)).
Proof.
  intros Hnl (Ht & Hl & Hk) Hskip. unfold is_skipped in Hskip.
  apply orb_false_iff in Hskip as [He Hmeta].
  unfold normalize_line. rewrite He, andb_false_r, Hmeta.
  pose proof (strip_debug_info_runs config (strip_comments config line)) as H0.
  rewrite (strip_comments_before config line Hnl) in *.
  set (l0 := strip_debug_info config (before_comment config line)) in *.
  destruct (if ignore_labels config
            then _normalize_labels l0 (label_counter st) (label_map st)
            else (l0, label_counter st, label_map st)) as [[l1 lc] lm] eqn:E1.
  assert (same_runs l1 l0 /\ numbered_table "label_" lc lm /\ label_keys_ok lm)
    as (H1 & Hl' & Hk').
  { destruct (ignore_labels config).
    - pose proof (_normalize_labels_runs l0 _ _ Hl Hk) as HH. by rewrite E1 in HH.
    - injection E1 as <- <- <-. split; [apply same_runs_refl|done]. }
  destruct (if ignore_temp_vars config
            then _normalize_temp_vars l1 (temp_var_counter st) (temp_var_map st)
            else (l1, temp_var_counter st, temp_var_map st)) as [[l2 tc] tm] eqn:E2.
  assert (same_runs l2 l1 /\ numbered_table "%temp_" tc tm) as (H2 & Ht').
  { destruct (ignore_temp_vars config).
    - pose proof (_normalize_temp_vars_runs l1 _ _ Ht) as HA.
      pose proof (_normalize_temp_vars_table l1 _ _ Ht) as HB.
      by rewrite E2 in HA, HB.
    - injection E2 as <- <- <-. split; [apply same_runs_refl|done]. }
  cbn [normalized_lines temp_var_counter label_counter temp_var_map label_map].
  set (y := if ignore_whitespace config then _normalize_whitespace l2 else l2).
  assert (Hy : percent_runs y = percent_runs (before_comment config line)).
  { transitivity (percent_runs l2).
    - unfold y. destruct (ignore_whitespace config); [apply _normalize_whitespace_runs|done].
    - destruct H2 as [_ ->]. destruct H1 as [_ ->]. by destruct H0 as [_ ->]. }
  split; [done|].
  destruct (is_empty (strip y)) eqn:E; cbn [negb].
  - left. split; [done|]. rewrite <- Hy. by apply blank_runs.
  - right. by exists y.
Qed.

(** The loop over the lines *)
Lemma fold_runs config ls : forall st,
  Forall no_newline ls -> tables_ok st ->
  exists outs kept,
    normalized_lines (fold_left (normalize_line config) ls st) = normalized_lines st ++ outs /\
    kept `sublist_of` ls /\
    Forall2 (fun out line => is_skipped config line = false /\
                             percent_runs out = percent_runs (before_comment config line))
            outs kept /\
    concat (percent_runs <$> outs)
    = concat (percent_runs <$>
                (before_comment config <$>
                   List.filter (fun l => negb (is_skipped config l)) ls)).
Proof.
  induction ls as [|l ls IH]; intros st Hls Hst.
  { exists [], []. rewrite app_nil_r. repeat split; constructor. }
  apply Forall_cons in Hls as [Hl Hls]. cbn [fold_left List.filter].
  destruct (is_skipped config l) eqn:Hskip; cbn [negb].
  - rewrite normalize_line_skipped by done.
    destruct (IH st Hls Hst) as (outs & kept & E & Hsub & Hall & Hcat).
    exists outs, kept. split; [done|]. split; [by constructor|]. done.
  - destruct (normalize_line_runs config st l Hl Hst Hskip) as [Hst' [[E0 Hnone]|(y & E0 & Hy)]].
    + destruct (IH _ Hls Hst') as (outs & kept & E & Hsub & Hall & Hcat).
      exists outs, kept. rewrite E, E0. split; [done|]. split; [by constructor|].
      split; [done|]. rewrite Hcat. cbn [fmap list_fmap concat]. by rewrite Hnone.
    + destruct (IH _ Hls Hst') as (outs & kept & E & Hsub & Hall & Hcat).
      exists (y :: outs), (l :: kept). rewrite E, E0, <- app_assoc.
      split; [done|]. split; [by constructor|]. split; [by constructor|].
      cbn [fmap list_fmap concat]. by rewrite Hcat, Hy.
Qed.

(** The percent signs of a text are those of its lines. *)
Lemma leading_digits_newline l x :
  leading_digits (l ++ newline :: x) = leading_digits l.
Proof.
  unfold leading_digits. induction l as [|c l IH]; [done|].
  cbn [app run]. destruct (is_digit c); [|done]. cbn [take]. by rewrite IH.
Qed.

Lemma percent_runs_newline l x :
  percent_runs (l ++ newline :: x) = percent_runs l ++ percent_runs x.
Proof.
  induction l as [|c l IH]; [done|].
  cbn [app percent_runs]. rewrite IH, leading_digits_newline.
  by destruct (chr_eqb c "%").
Qed.

Lemma percent_runs_join_lines ls :
  percent_runs (join_lines ls) = concat (percent_runs <$> ls).
Proof.
  induction ls as [|l ls IH]; [done|].
  destruct ls as [|l' ls]; [by cbn; rewrite app_nil_r|].
  change (join_lines (l :: l' :: ls)) with (l ++ newline :: join_lines (l' :: ls)).
  by rewrite percent_runs_newline, IH.
Qed.

(** C10.  A percent sign followed by digits opens no match of the
    renaming pattern: in [_normalize_temp_vars] the token is copied as it
    is, the counter and the table are the same after it as before it, and
    the text before and after it is renamed as if the token were not
    there.  A match always starts with a percent sign followed by a
    letter or an underscore.  For the whole of [normalize] and every
    option set: on a text whose temporaries are all numbered, the output
    is the one obtained with the renaming of temporaries disabled; and on
    every text, numbered or not, each line of the output comes from a
    line of the input that is not skipped, in the same order, and has the
    percent signs of that line up to its comment, each followed by the
    same digits; the lines that leave no line in the output have no
    percent sign before their comment, so that the percent signs of the
    output, each with its digits, are those of the lines that are not
    skipped.  What follows the digits is not part of this: the label
    stage may rewrite it. *)
Theorem numbered_temporaries_keep_their_digits
    (pre rest : list ascii) (d : ascii) (ds : list ascii)
    (counter : nat) (var_map : Dict.t) :
  Forall (fun c => is_digit c = true) (d :: ds) ->
  temp_var_pattern None ("%"%char :: d :: ds ++ rest) = None
  /\
  _normalize_temp_vars (pre ++ "%"%char :: d :: ds ++ rest) counter var_map =
    (let '(o1, c1, m1) := _normalize_temp_vars pre counter var_map in
     let '(o2, c2, m2) := _normalize_temp_vars rest c1 m1 in
     (o1 ++ "%"%char :: d :: ds ++ o2, c2, m2))
  /\
  (forall prev s n, temp_var_pattern prev s = Some n ->
     exists c s1, s = "%"%char :: c :: s1 /\ is_name_start c = true)
  /\
  (forall config text, numbered text ->
     normalize config text = normalize (with_ignore_temp_vars false config) text)
  /\
  (forall config text,
     exists kept,
       kept `sublist_of` split_lines text /\
       Forall2 (fun out line =>
                  is_skipped config line = false /\
                  percent_runs out = percent_runs (before_comment config line))
               (normalize_lines config text) kept)
  /\
  (forall config text,
     percent_runs (normalize config text)
     = concat (percent_runs <$>
                 (before_comment config <$>
                    List.filter (fun l => negb (is_skipped config l)) (split_lines text)))).
Proof.
  intros Hds. split; [|split; [|split; [|split; [|split]]]].
  - unfold temp_var_pattern. rewrite is_digit_not_name_start; [done|].
    by inversion Hds.
  - unfold _normalize_temp_vars. rewrite scan_cut.
    destruct (scan 0 pre (counter, var_map)) as [o1 [c1 m1]].
    rewrite scan_numbered by done.
    destruct (scan 0 rest (c1, m1)) as [o2 [c2 m2]]. done.
  - intros prev s n H. apply temp_var_pattern_shape in H as (c & s1 & ? & ? & _).
    by exists c, s1.
  - apply normalize_numbered.
  - intros config text.
    destruct (fold_runs config (split_lines text) initial_locals
                (split_lines_no_newline text) tables_ok_initial)
      as (outs & kept & E & Hsub & Hall & _).
    exists kept. split; [done|]. unfold normalize_lines. by rewrite E.
  - intros config text.
    destruct (fold_runs config (split_lines text) initial_locals
                (split_lines_no_newline text) tables_ok_initial)
      as (outs & kept & E & _ & _ & Hcat).
    unfold normalize. rewrite percent_runs_join_lines.
    unfold normalize_lines. by rewrite E.
Qed.

End RunsFacts.
(** ** The chronological mapping *)

Module MappingFacts.
Import Analyzer.

Section Mapping.
Variable config : ComparisonConfig.
Variable legacy_dumps npm_dumps : list PassDump.
Variable pass_mapping : gmap (list ascii) (list ascii).

Lemma find_match_from_spec rest : forall i name used last j p,
  find_match_from i rest name used last = Some (j, p) ->
  (exists k, j = i + k /\ rest !! k = Some p) /\
  pass_name p = name /\ (j ∉ used) /\ (last < Z.of_nat j)%Z.
Proof.
  induction rest as [|d rest IH]; intros i name used last j p; simpl; [done|].
  destruct (bool_decide (pass_name d = name)) eqn:E1; simpl.
  - destruct (bool_decide (i ∉ used)) eqn:E2; simpl.
    + destruct (bool_decide (last < Z.of_nat i)%Z) eqn:E3; simpl.
      * intros [= <- <-].
        apply bool_decide_eq_true in E1, E2, E3.
        split; [exists 0; split; [lia|done]|done].
      * intros H. apply IH in H as ((k & -> & Hk) & ?).
        split; [exists (S k); split; [lia|done]|done].
    + intros H. apply IH in H as ((k & -> & Hk) & ?).
      split; [exists (S k); split; [lia|done]|done].
  - intros H. apply IH in H as ((k & -> & Hk) & ?).
    split; [exists (S k); split; [lia|done]|done].
Qed.

Lemma _find_valid_npm_match_spec name used last j p :
  _find_valid_npm_match npm_dumps name used last = Some (j, p) ->
  npm_dumps !! j = Some p /\ pass_name p = name /\ (j ∉ used) /\ (last < Z.of_nat j)%Z.
Proof.
  intros H. apply find_match_from_spec in H as ((k & -> & Hk) & ?). done.
Qed.

Lemma ascending_snoc (idxs : list nat) (j : nat) :
  (forall k x y, idxs !! k = Some x -> idxs !! S k = Some y -> x < y) ->
  (forall i, last idxs = Some i -> i < j) ->
  forall k x y, (idxs ++ [j]) !! k = Some x -> (idxs ++ [j]) !! S k = Some y -> x < y.
Proof.
  intros Hasc Hlast k x y Hx Hy.
  destruct (decide (S k < length idxs)) as [Hlt|Hge].
  - rewrite lookup_app_l in Hx by lia. rewrite lookup_app_l in Hy by lia. eauto.
  - assert (S k = length idxs) as Hk.
    { apply lookup_lt_Some in Hy. rewrite length_app in Hy. simpl in Hy. lia. }
    rewrite lookup_app_l in Hx by lia.
    rewrite lookup_app_r in Hy by lia.
    replace (S k - length idxs) with 0 in Hy by lia. simpl in Hy.
    injection Hy as <-. apply Hlast. rewrite last_lookup.
    rewrite <- Hk. simpl. done.
Qed.

Lemma mapping_step_selected st idxs a :
  selected npm_dumps st idxs ->
  exists idxs', selected npm_dumps (mapping_step config npm_dumps pass_mapping st a) idxs'.
Proof.
  intros (Hpos & Hasc & Hused & Hlast). unfold mapping_step.
  destruct (bool_decide _); [by exists idxs|].
  destruct (mapped_name _ _) as [name|]; [|by exists idxs].
  destruct (bool_decide _); [by exists idxs|].
  destruct (_find_valid_npm_match _ _ _ _) as [[j p]|] eqn:Hfind; [|by exists idxs].
  apply _find_valid_npm_match_spec in Hfind as (Hj & _ & _ & Hlt).
  exists (idxs ++ [j]). repeat split; simpl.
  - apply Forall2_app; [done|]. by constructor.
  - apply ascending_snoc; [done|]. intros i Hi. rewrite Hlast, Hi in Hlt. lia.
  - rewrite Hused, list_to_set_app_L. simpl.
    rewrite (right_id_L ∅ (∪)). apply (comm_L (∪)).
  - by rewrite last_snoc.
Qed.

Lemma mapping_loop_selected :
  exists idxs,
    selected npm_dumps (mapping_loop config legacy_dumps npm_dumps pass_mapping) idxs.
Proof.
  unfold mapping_loop.
  assert (exists idxs, selected npm_dumps initial_mapping_state idxs) as Hinit.
  { exists []. repeat split; simpl; done. }
  revert Hinit. generalize initial_mapping_state.
  induction legacy_dumps as [|a l IH]; intros st Hst; simpl; [done|].
  apply IH. destruct Hst as [idxs Hst]. by eapply mapping_step_selected.
Qed.

End Mapping.

Lemma filter_ext_elem {A : Type} (P1 P2 : A -> Prop)
    `{!forall x, Decision (P1 x), !forall x, Decision (P2 x)} (l : list A) :
  (forall x, x ∈ l -> P1 x <-> P2 x) -> filter P1 l = filter P2 l.
Proof.
  induction l as [|a l IH]; intros Hiff; [done|].
  rewrite !filter_cons.
  rewrite IH by (intros x Hx; apply Hiff; by right).
  apply decide_ext, Hiff. by left.
Qed.

Section Unmatched.
Variable config : ComparisonConfig.
Variable npm_dumps : list PassDump.
Variable pass_mapping : gmap (list ascii) (list ascii).

Local Abbreviation excluded := (is_excluded config pass_mapping).
Local Abbreviation accounted := (accounted config pass_mapping).
Local Abbreviation step := (mapping_step config npm_dumps pass_mapping).

Lemma accounted_step l st a :
  a ∉ l -> accounted l st -> accounted (l ++ [a]) (step st a).
Proof.
  intros Ha [Hin Hsk]. unfold accounted, mapping_step.
  assert (a ∉ (mapped_pairs st).*1) as Hfresh by (intros H; by apply Hin in H as [? _]).
  assert (forall a', a' ∈ (mapped_pairs st).*1 -> a' ∈ l ++ [a] /\ excluded a' = false) as Hin'.
  { intros a' H. apply Hin in H as [? ?]. split; [|done]. apply elem_of_app. by left. }
  destruct (bool_decide (pass_name a ∈ excluded_legacy_passes config)) eqn:E1.
  { simpl. split; [done|]. rewrite filter_app, filter_cons_False, app_nil_r; [done|].
    intros [H _]. unfold is_excluded in H. by rewrite E1 in H. }
  destruct (mapped_name pass_mapping (pass_name a)) as [name|] eqn:E2.
  2:{ simpl. split; [done|]. rewrite filter_app, filter_cons_True, map_app.
      - by rewrite Hsk.
      - split; [|done]. unfold is_excluded. by rewrite E1, E2. }
  destruct (bool_decide (name ∈ excluded_npm_passes config)) eqn:E3.
  { simpl. split; [done|]. rewrite filter_app, filter_cons_False, app_nil_r; [done|].
    intros [H _]. unfold is_excluded in H. rewrite E1, E2, E3 in H. done. }
  assert (excluded a = false) as Hex by (unfold is_excluded; by rewrite E1, E2, E3).
  destruct (_find_valid_npm_match _ _ _ _) as [[j b]|].
  - simpl. split.
    + intros a'. rewrite fmap_app, elem_of_app. simpl. intros [H|H].
      * by apply Hin'.
      * apply list_elem_of_singleton in H as ->. split; [|done].
        apply elem_of_app. right. by apply list_elem_of_singleton.
    + rewrite filter_app, filter_cons_False, app_nil_r.
      * rewrite Hsk. f_equal. apply filter_ext_elem. intros x Hx.
        rewrite fmap_app, elem_of_app. simpl. rewrite list_elem_of_singleton.
        split; intros [? ?]; (split; [done|]).
        -- intros [?| ->]; done.
        -- intros ?. tauto.
      * intros [_ H]. apply H. rewrite fmap_app, elem_of_app. right.
        simpl. by apply list_elem_of_singleton.
  - simpl. split; [done|]. rewrite filter_app, filter_cons_True, map_app.
    + by rewrite Hsk.
    + done.
Qed.

Lemma accounted_loop legacy_dumps :
  NoDup legacy_dumps ->
  accounted legacy_dumps (mapping_loop config legacy_dumps npm_dumps pass_mapping).
Proof.
  unfold mapping_loop. induction legacy_dumps as [|a l IH] using rev_ind; intros Hnd.
  - split; [|done]. simpl. intros a H. by apply elem_of_nil in H.
  - rewrite fold_left_app. simpl. apply NoDup_app in Hnd as (Hl & Hdisj & _).
    apply accounted_step; [|by apply IH].
    intros H. apply (Hdisj _ H). by left.
Qed.

Lemma is_excluded_name a a' :
  pass_name a = pass_name a' -> excluded a = excluded a'.
Proof. intros H. unfold is_excluded. by rewrite H. Qed.

End Unmatched.

(** C6, as the code has it.  When no record of the A sequence occurs
    twice, the unmatched list that [_create_chronological_mapping]
    returns holds, in the order of the A sequence, the names of exactly
    the records that are neither emitted in a pair nor set aside by an
    exclusion list: those without a mapping entry and those without a
    valid chronological match.  A record set aside by an exclusion list
    is in no pair, and its name is not in the unmatched list. *)
Theorem unmatched_are_the_unexcluded_unpaired
    (config : ComparisonConfig) (legacy_dumps npm_dumps : list PassDump)
    (pass_mapping : gmap (list ascii) (list ascii)) :
  NoDup legacy_dumps ->
  let result := _create_chronological_mapping config legacy_dumps npm_dumps pass_mapping in
  result.2 =
    map pass_name
      (filter (fun a => is_excluded config pass_mapping a = false /\ a ∉ result.1.*1)
              legacy_dumps)
  /\
  (forall a, a ∈ legacy_dumps -> is_excluded config pass_mapping a = true ->
     (a ∉ result.1.*1) /\ (pass_name a ∉ result.2)).
Proof.
  intros Hnd result.
  destruct (accounted_loop config npm_dumps pass_mapping legacy_dumps Hnd) as [Hin Hsk].
  unfold result, _create_chronological_mapping. simpl. split; [done|].
  intros a Ha Hex. split.
  - intros H. apply Hin in H as [_ H]. congruence.
  - rewrite Hsk. intros H. apply list_elem_of_fmap in H as (a' & Hname & Ha').
    apply list_elem_of_filter in Ha' as [[Hex' _] _].
    rewrite (is_excluded_name config pass_mapping a a' Hname) in Hex. congruence.
Qed.

Lemma ascending_NoDup (l : list nat) :
  (forall k x y, l !! k = Some x -> l !! S k = Some y -> x < y) -> NoDup l.
Proof.
  intros Hasc.
  assert (forall d k x y, l !! k = Some x -> l !! (k + S d) = Some y -> x < y) as Hfar.
  { induction d as [|d IH]; intros k x y Hx Hy.
    - replace (k + 1) with (S k) in Hy by lia. eauto.
    - assert (is_Some (l !! (k + S d))) as [z Hz].
      { apply lookup_lt_is_Some. apply lookup_lt_Some in Hy. lia. }
      specialize (IH _ _ _ Hx Hz).
      replace (k + S (S d)) with (S (k + S d)) in Hy by lia.
      specialize (Hasc _ _ _ Hz Hy). lia. }
  apply NoDup_alt. intros i j x Hi Hj.
  destruct (Nat.lt_trichotomy i j) as [Hlt|[->|Hgt]]; [|done|].
  - replace j with (i + S (j - i - 1)) in Hj by lia.
    specialize (Hfar _ _ _ _ Hi Hj). lia.
  - replace i with (j + S (i - j - 1)) in Hi by lia.
    specialize (Hfar _ _ _ _ Hj Hi). lia.
Qed.

(** C2.  The positions of the B sequence that the loop selects, in the
    order of the pairs it emits, increase strictly from each pair to the
    next, and none occurs twice; they are the positions the loop marked
    as used, and the B side of each pair is the record at its position.
    When the index of each record of the B sequence is its position, as
    extraction numbers them, these positions are the B-side indices of
    the pairs that [_create_chronological_mapping] returns. *)
Theorem alignment_monotonic_no_reuse
    (config : ComparisonConfig) (legacy_dumps npm_dumps : list PassDump)
    (pass_mapping : gmap (list ascii) (list ascii)) :
  let pairs := (_create_chronological_mapping config legacy_dumps npm_dumps pass_mapping).1 in
  exists b_indices : list nat,
    Forall2 (fun i q => npm_dumps !! i = Some q.2) b_indices pairs /\
    used_npm_indices (mapping_loop config legacy_dumps npm_dumps pass_mapping)
      = list_to_set b_indices /\
    (forall k x y, b_indices !! k = Some x -> b_indices !! S k = Some y -> x < y) /\
    NoDup b_indices /\
    ((forall i d, npm_dumps !! i = Some d -> pass_index d = i) ->
     map (fun q => pass_index q.2) pairs = b_indices).
Proof.
  intros pairs.
  destruct (mapping_loop_selected config legacy_dumps npm_dumps pass_mapping)
    as (idxs & Hpos & Hasc & Hused & _).
  exists idxs. split; [done|]. split; [done|]. split; [done|].
  split; [by apply ascending_NoDup|].
  intros Hwf. unfold pairs, _create_chronological_mapping. simpl.
  clear Hasc Hused pairs.
  induction Hpos as [|i q idxs' qs Hiq _ IH]; simpl; [done|].
  rewrite (Hwf _ _ Hiq). by f_equal.
Qed.

End MappingFacts.

(** ** More on the chronological mapping and on the scan *)

Module AnalyzerExtra.
Import Analyzer MappingFacts DivergenceFacts.

Section Mapping.
Variable config : ComparisonConfig.
Variable npm_dumps : list PassDump.
Variable pass_mapping : gmap (list ascii) (list ascii).

Lemma find_match_from_earliest rest : forall i name used last,
  match find_match_from i rest name used last with
  | Some (j, p) =>
      forall k q, k < j - i -> rest !! k = Some q ->
        ~ (pass_name q = name /\ (i + k ∉ used) /\ (last < Z.of_nat (i + k))%Z)
  | None =>
      forall k q, rest !! k = Some q ->
        ~ (pass_name q = name /\ (i + k ∉ used) /\ (last < Z.of_nat (i + k))%Z)
  end.
Proof.
  induction rest as [|d rest IH]; intros i name used last; simpl; [done|].
  destruct (bool_decide (pass_name d = name)
            && bool_decide (i ∉ used)
            && bool_decide (last < Z.of_nat i)%Z) eqn:E.
  - intros k q Hk. lia.
  - assert (~ (pass_name d = name /\ (i ∉ used) /\ (last < Z.of_nat i)%Z)) as Hd.
    { intros (H1 & H2 & H3).
      rewrite !bool_decide_eq_true_2 in E by done. done. }
    specialize (IH (i + 1) name used last).
    destruct (find_match_from (i + 1) rest name used last) as [[j p]|] eqn:F.
    + intros [|k] q Hk Hq.
      * simpl in Hq. injection Hq as <-. by rewrite Nat.add_0_r.
      * simpl in Hq. replace (i + S k) with (i + 1 + k) by lia.
        apply IH; [lia|done].
    + intros [|k] q Hq.
      * simpl in Hq. injection Hq as <-. by rewrite Nat.add_0_r.
      * simpl in Hq. replace (i + S k) with (i + 1 + k) by lia. by apply IH.
Qed.

(** X1.  [_find_valid_npm_match] returns the earliest record of the B
    sequence that has the name, is not used and lies after the last
    selected index; it returns nothing exactly when there is no such
    record. *)
Theorem find_valid_npm_match_earliest
    (name : list ascii) (used : gset nat) (last : Z) :
  match _find_valid_npm_match npm_dumps name used last with
  | Some (j, p) =>
      npm_dumps !! j = Some p /\ pass_name p = name /\
      (j ∉ used) /\ (last < Z.of_nat j)%Z /\
      forall k q, k < j -> npm_dumps !! k = Some q ->
        ~ (pass_name q = name /\ (k ∉ used) /\ (last < Z.of_nat k)%Z)
  | None =>
      forall k q, npm_dumps !! k = Some q ->
        ~ (pass_name q = name /\ (k ∉ used) /\ (last < Z.of_nat k)%Z)
  end.
Proof.
  pose proof (find_match_from_earliest npm_dumps 0 name used last) as He.
  pose proof (_find_valid_npm_match_spec npm_dumps name used last) as Hs.
  unfold _find_valid_npm_match in *.
  destruct (find_match_from 0 npm_dumps name used last) as [[j p]|].
  - destruct (Hs j p eq_refl) as (H1 & H2 & H3 & H4).
    repeat (split; [done|]). intros k q Hk Hq. apply (He k q); [lia|done].
  - intros k q Hq. by apply (He k q).
Qed.

(** What holds of the pairs and of the three lists after the records
    [l]. *)
Local Abbreviation settled := (AnalyzerView.settled config npm_dumps pass_mapping).

Lemma settled_step l st a :
  settled l st -> settled (l ++ [a]) (mapping_step config npm_dumps pass_mapping st a).
Proof.
  intros (Hp & Hsub & Hlen).
  assert (Forall (fun q : PassDump * PassDump =>
            q.1 ∈ l ++ [a] /\ q.2 ∈ npm_dumps /\
            mapped_name pass_mapping (pass_name q.1) = Some (pass_name q.2) /\
            (pass_name q.1 ∉ excluded_legacy_passes config) /\
            (pass_name q.2 ∉ excluded_npm_passes config))
           (mapped_pairs st)) as Hp'.
  { eapply Forall_impl; [exact Hp|]. simpl. intros q (? & ? & ? & ? & ?).
    split; [|done]. apply elem_of_app. by left. }
  assert ((mapped_pairs st).*1 `sublist_of` l ++ [a]) as Hsub'
    by (by apply sublist_inserts_r).
  unfold settled, mapping_step. rewrite length_app. simpl.
  destruct (bool_decide (pass_name a ∈ excluded_legacy_passes config)) eqn:E1.
  { simpl. rewrite length_app. simpl. split; [done|]. split; [done|]. lia. }
  apply bool_decide_eq_false in E1.
  destruct (mapped_name pass_mapping (pass_name a)) as [name|] eqn:E2.
  2:{ simpl. rewrite length_app. simpl. split; [done|]. split; [done|]. lia. }
  destruct (bool_decide (name ∈ excluded_npm_passes config)) eqn:E3.
  { simpl. rewrite length_app. simpl. split; [done|]. split; [done|]. lia. }
  apply bool_decide_eq_false in E3.
  destruct (_find_valid_npm_match npm_dumps name _ _) as [[j b]|] eqn:F.
  - apply _find_valid_npm_match_spec in F as (Hj & Hname & _).
    simpl. rewrite length_app. simpl. split; [|split; [|lia]].
    + apply Forall_app. split; [done|]. constructor; [|done]. simpl.
      split; [apply elem_of_app; right; by apply list_elem_of_singleton|].
      split; [by eapply list_elem_of_lookup_2|].
      rewrite Hname. done.
    + rewrite fmap_app. simpl. by apply sublist_app.
  - simpl. rewrite length_app. simpl. split; [done|]. split; [done|]. lia.
Qed.

Lemma settled_loop legacy_dumps :
  settled legacy_dumps (mapping_loop config legacy_dumps npm_dumps pass_mapping).
Proof.
  unfold mapping_loop. induction legacy_dumps as [|a l IH] using rev_ind.
  - repeat split; simpl; [constructor|done].
  - rewrite fold_left_app. simpl. by apply settled_step.
Qed.

End Mapping.

Lemma ascending_lower_bound (l : list nat) :
  (forall k x y, l !! k = Some x -> l !! S k = Some y -> x < y) ->
  forall k x, l !! k = Some x -> k <= x.
Proof.
  intros Hasc. induction k as [|k IH]; intros x Hx; [lia|].
  assert (is_Some (l !! k)) as [y Hy].
  { apply lookup_lt_is_Some. apply lookup_lt_Some in Hx. lia. }
  specialize (IH _ Hy). specialize (Hasc _ _ _ Hy Hx). lia.
Qed.

(** X2.  Each pair that [_create_chronological_mapping] returns joins a
    record of the A sequence with a record of the B sequence whose name
    is the one the mapping gives for it, neither name being excluded; the
    A sides of the pairs follow the order of the A sequence. *)
Theorem pairs_follow_the_mapping
    (config : ComparisonConfig) (legacy_dumps npm_dumps : list PassDump)
    (pass_mapping : gmap (list ascii) (list ascii)) :
  let pairs := (_create_chronological_mapping config legacy_dumps npm_dumps pass_mapping).1 in
  Forall (fun q =>
            q.1 ∈ legacy_dumps /\ q.2 ∈ npm_dumps /\
            pass_mapping !! pass_name q.1 = Some (pass_name q.2) /\
            pass_name q.2 <> [] /\
            (pass_name q.1 ∉ excluded_legacy_passes config) /\
            (pass_name q.2 ∉ excluded_npm_passes config))
         pairs /\
  pairs.*1 `sublist_of` legacy_dumps.
Proof.
  intros pairs.
  destruct (settled_loop config npm_dumps pass_mapping legacy_dumps) as (Hp & Hsub & _).
  split; [|done]. eapply Forall_impl; [exact Hp|]. simpl.
  intros q (H1 & H2 & H3 & H4 & H5). split; [done|]. split; [done|].
  unfold mapped_name in H3.
  destruct (pass_mapping !! pass_name q.1) as [n|]; [|done].
  destruct n as [|c n]; [done|]. simpl in H3. injection H3 as H3.
  rewrite <- H3 in *. done.
Qed.

(** The pairs select distinct positions of the B sequence. *)
Lemma pairs_select_positions
    (config : ComparisonConfig) (legacy_dumps npm_dumps : list PassDump)
    (pass_mapping : gmap (list ascii) (list ascii)) :
  let st := mapping_loop config legacy_dumps npm_dumps pass_mapping in
  length (mapped_pairs st) = size (used_npm_indices st) /\
  (forall i, i ∈ used_npm_indices st -> i < length npm_dumps) /\
  length (mapped_pairs st) <= length npm_dumps.
Proof.
  intros st.
  destruct (mapping_loop_selected config legacy_dumps npm_dumps pass_mapping)
    as (idxs & Hpos & Hasc & Hused & _).
  fold st in Hpos, Hused. rewrite <- (Forall2_length _ _ _ Hpos), Hused.
  split; [|split].
  - symmetry. apply size_list_to_set. by apply ascending_NoDup.
  - intros i Hi. apply elem_of_list_to_set, list_elem_of_lookup_1 in Hi as (k & Hk).
    destruct (Forall2_lookup_l _ _ _ _ _ Hpos Hk) as (q & _ & Hq).
    by apply lookup_lt_Some in Hq.
  - destruct (decide (length idxs = 0)) as [->|Hne]; [lia|].
    assert (is_Some (idxs !! (length idxs - 1))) as [x Hx]
      by (apply lookup_lt_is_Some; lia).
    pose proof (ascending_lower_bound idxs Hasc _ _ Hx) as Hlow.
    destruct (Forall2_lookup_l _ _ _ _ _ Hpos Hx) as (q & _ & Hq).
    apply lookup_lt_Some in Hq. lia.
Qed.

(** X3.  Every record of the A sequence is counted once: the pairs, the
    skipped names and the explicitly excluded entries add up to the
    length of the A sequence.  There are no more pairs than records in
    either sequence. *)
Theorem mapping_accounts_for_every_record
    (config : ComparisonConfig) (legacy_dumps npm_dumps : list PassDump)
    (pass_mapping : gmap (list ascii) (list ascii)) :
  let st := mapping_loop config legacy_dumps npm_dumps pass_mapping in
  length (mapped_pairs st) + length (skipped_legacy st)
    + length (explicitly_excluded st) = length legacy_dumps /\
  length (mapped_pairs st) <= length legacy_dumps /\
  length (mapped_pairs st) <= length npm_dumps.
Proof.
  intros st.
  destruct (settled_loop config npm_dumps pass_mapping legacy_dumps) as (_ & _ & Hlen).
  split; [done|]. split; [unfold st; lia|].
  apply pairs_select_positions.
Qed.

Section Outcome.
Variable config : ComparisonConfig.
Variable fs : files.

(** What an outcome of the scan says of the pairs [all], and the files
    opened by then *)
Local Abbreviation explains := (AnalyzerView.explains config fs).

Lemma paths_of_snoc pre q :
  paths_of (pre ++ [q]) = paths_of pre ++ [file_path q.1; file_path q.2].
Proof. unfold paths_of. rewrite map_app, concat_app. simpl. done. Qed.

Lemma compare_from_explained all rest : forall pre,
  all = pre ++ rest -> Forall (sides_agree config fs) pre ->
  explains all (compare_from config fs all (length pre) rest (paths_of pre)).1
               (compare_from config fs all (length pre) rest (paths_of pre)).2.
Proof.
  induction rest as [|q rest IH]; intros pre Hall Hpre.
  - simpl. rewrite app_nil_r in Hall. by subst.
  - assert (all !! length pre = Some q) as Hq
      by (subst; by rewrite list_lookup_middle).
    assert (take (length pre) all = pre) as Htake
      by (subst; by rewrite take_app_length).
    assert (take (S (length pre)) all = pre ++ [q]) as Htake'
      by (by rewrite (take_S_r _ _ _ Hq), Htake).
    destruct q as [a b]. cbn [compare_from]. unfold bind, _load_and_normalize_ir.
    destruct (fs !! file_path a) as [ca|] eqn:Ha.
    2:{ simpl. exists (length pre), (a, b). rewrite Htake.
        split; [done|]. split; [done|]. left. done. }
    destruct (fs !! file_path b) as [cb|] eqn:Hb.
    2:{ simpl. exists (length pre), (a, b). rewrite Htake, Htake', paths_of_snoc.
        split; [done|]. split; [done|]. right. simpl.
        split; [by eexists|]. split; [done|]. split; [done|].
        by rewrite <- app_assoc. }
    destruct (Text.list_eqb (Normalizer.normalize config ca)
                (Normalizer.normalize config cb)) eqn:E; simpl.
    + apply list_eqb_true in E.
      assert (sides_agree config fs (a, b)) as Hagree.
      { exists (Normalizer.normalize config ca), ca, cb. done. }
      specialize (IH (pre ++ [(a, b)])).
      rewrite length_app, paths_of_snoc in IH. simpl in IH.
      rewrite <- app_assoc. simpl. apply IH.
      * subst. by rewrite <- app_assoc.
      * apply Forall_app. split; [done|]. by constructor.
    + unfold ret. simpl. rewrite Htake, Htake', paths_of_snoc.
      split; [done|]. split; [done|]. split.
      { exists ca, cb. done. }
      split; [|by rewrite <- app_assoc].
      intros H. apply list_eqb_true in H. congruence.
Qed.

(** X4.  Whatever [_find_first_divergence] gives, it is for a reason: a
    divergence at index [i] means that the pairs before [i] agree and the
    sides of pair [i] normalize to different texts; no divergence means
    that all pairs agree; and the exception for a missing file comes from
    the first pair with a file that cannot be opened, the A side being
    opened first, all pairs before it agreeing.  In each case the files
    opened are those up to that point and no other. *)
Theorem find_first_divergence_explained (mapped_pairs : list (PassDump * PassDump)) :
  explains mapped_pairs
    (_find_first_divergence config fs mapped_pairs []).1
    (_find_first_divergence config fs mapped_pairs []).2.
Proof.
  apply (compare_from_explained mapped_pairs mapped_pairs []); done.
Qed.

End Outcome.

End AnalyzerExtra.
(** ** Extraction, mapping and comparison together *)

Module PipelineFacts.
Import Text Parser ParserView ParserExtra ExtractionFacts.
Import Analyzer AnalyzerView AnalyzerExtra Pipeline.



Section Steps.
Variable accepts : list ascii -> list ascii -> bool.
Variable can_mkdir : list ascii -> bool.



End Steps.

End PipelineFacts.
(** ** Validation of the mapping, and the summary of a report *)

Module ValidationFacts.
Import Analyzer AnalyzerView AnalyzerExtra MappingFacts Validation.

Lemma count_pos x l : 0 < count x l <-> exists i, l !! i = Some x.
Proof.
  unfold count. induction l as [|a l IH].
  - split; [simpl; lia|]. intros [i Hi]. by rewrite lookup_nil in Hi.
  - rewrite filter_cons. destruct (decide (a = x)) as [->|Hne].
    + split; [|simpl; lia]. intros _. by exists 0.
    + rewrite IH. split.
      * intros [i Hi]. by exists (S i).
      * intros [[|i] Hi]; [simpl in Hi; congruence|]. by exists i.
Qed.

Lemma count_two x l :
  1 < count x l <-> exists i j, i < j /\ l !! i = Some x /\ l !! j = Some x.
Proof.
  unfold count. induction l as [|a l IH].
  - split; [simpl; lia|]. intros (i & j & _ & Hi & _). by rewrite lookup_nil in Hi.
  - rewrite filter_cons. destruct (decide (a = x)) as [->|Hne].
    + split.
      * intros H. assert (0 < count x l) as [j Hj]%count_pos by (unfold count; simpl in H; lia).
        exists 0, (S j). split; [lia|done].
      * intros ([|i] & j & Hij & Hi & Hj).
        -- destruct j as [|j]; [lia|]. simpl in Hj.
           assert (0 < count x l) as H by (apply count_pos; by exists j).
           unfold count in H. simpl. lia.
        -- destruct j as [|j]; [lia|]. simpl in Hi, Hj.
           assert (1 < length (filter (fun y => y = x) l)) as H.
           { apply IH. exists i, j. split; [lia|done]. }
           simpl. lia.
    + rewrite IH. split.
      * intros (i & j & Hij & Hi & Hj). exists (S i), (S j). split; [lia|done].
      * intros ([|i] & j & Hij & Hi & Hj); [simpl in Hi; congruence|].
        destruct j as [|j]; [lia|]. exists i, j. split; [lia|done].
Qed.

Lemma lookup_values (m : gmap (list ascii) (list ascii)) i v :
  (map_to_list m).*2 !! i = Some v <-> exists k, map_to_list m !! i = Some (k, v).
Proof.
  rewrite list_lookup_fmap_Some. split.
  - intros ([k v'] & -> & Hk). by exists k.
  - intros (k & Hk). by exists (k, v).
Qed.

(** X19.  [_validate_pass_mappings] finds the names of the second
    dialect that two different names of the first are mapped to, each
    once: the warning is logged exactly when the mapping is not
    injective. *)
Theorem duplicates_are_the_shared_names (pass_mapping : gmap (list ascii) (list ascii)) :
  let duplicates := _validate_pass_mappings pass_mapping in
  (forall npm, npm ∈ duplicates <->
     exists k1 k2, k1 <> k2 /\ pass_mapping !! k1 = Some npm
                   /\ pass_mapping !! k2 = Some npm) /\
  NoDup duplicates /\
  (duplicates = [] <->
   forall k1 k2 npm, pass_mapping !! k1 = Some npm -> pass_mapping !! k2 = Some npm ->
                     k1 = k2).
Proof.
  intros duplicates.
  assert (Hin : forall npm, npm ∈ duplicates <->
     exists k1 k2, k1 <> k2 /\ pass_mapping !! k1 = Some npm
                   /\ pass_mapping !! k2 = Some npm).
  { intros npm. unfold duplicates, _validate_pass_mappings.
    rewrite list_elem_of_filter, elem_of_elements, elem_of_list_to_set, count_two.
    split.
    - intros [(i & j & Hij & Hi & Hj) _].
      apply lookup_values in Hi as (k1 & Hi), Hj as (k2 & Hj).
      exists k1, k2. split; [|split].
      + intros ->. pose proof (NoDup_map_to_list pass_mapping) as Hnd.
        rewrite NoDup_alt in Hnd. specialize (Hnd i j _ Hi Hj). lia.
      + apply list_elem_of_lookup_2 in Hi. by apply elem_of_map_to_list in Hi.
      + apply list_elem_of_lookup_2 in Hj. by apply elem_of_map_to_list in Hj.
    - intros (k1 & k2 & Hne & H1 & H2).
      apply elem_of_map_to_list in H1, H2.
      apply list_elem_of_lookup_1 in H1 as (i & Hi), H2 as (j & Hj).
      assert (i <> j) as Hij by (intros ->; congruence).
      split.
      + destruct (decide (i < j)).
        * exists i, j. split; [done|]. split; apply lookup_values; by eexists.
        * exists j, i. split; [lia|]. split; apply lookup_values; by eexists.
      + apply list_elem_of_lookup_2 with i. apply lookup_values. by eexists. }
  split; [exact Hin|]. split.
  - unfold duplicates, _validate_pass_mappings. apply NoDup_filter, NoDup_elements.
  - split.
    + intros E k1 k2 npm H1 H2. destruct (decide (k1 = k2)) as [|Hne]; [done|].
      assert (npm ∈ duplicates) as H by (apply Hin; by exists k1, k2).
      rewrite E in H. by apply elem_of_nil in H.
    + intros Hinj. destruct duplicates as [|npm l] eqn:E; [done|].
      assert (npm ∈ npm :: l) as H by apply list_elem_of_here.
      apply Hin in H as (k1 & k2 & Hne & H1 & H2). by specialize (Hinj _ _ _ H1 H2).
Qed.

(** X20.  The summary of a report adds up: the number of unused passes
    of the second dialect is not negative, and is the number of its
    records minus the number of positions the pairs use, all of them
    positions of its list; the mapped pairs, the skipped names and the
    explicitly excluded entries are the records of the first dialect. *)
Theorem report_summary_adds_up
    (config : ComparisonConfig) (legacy_dumps npm_dumps : list PassDump)
    (pass_mapping : gmap (list ascii) (list ascii)) :
  let st := mapping_loop config legacy_dumps npm_dumps pass_mapping in
  let r := _create_chronological_mapping config legacy_dumps npm_dumps pass_mapping in
  let s := _build_report_data_summary r.1 r.2
             (Z.of_nat (length legacy_dumps)) (Z.of_nat (length npm_dumps)) in
  (0 <= unused_npm_passes s)%Z /\
  unused_npm_passes s
  = (Z.of_nat (length npm_dumps) - Z.of_nat (size (used_npm_indices st)))%Z /\
  (forall i, i ∈ used_npm_indices st -> i < length npm_dumps) /\
  (successfully_mapped s + skipped_legacy_passes s
   + Z.of_nat (length (explicitly_excluded st)) = total_legacy_passes s)%Z.
Proof.
  intros st r s.
  destruct (pairs_select_positions config legacy_dumps npm_dumps pass_mapping)
    as (Hsize & Hused & Hle).
  destruct (settled_loop config npm_dumps pass_mapping legacy_dumps) as (_ & _ & Hlen).
  fold st in Hsize, Hused, Hle, Hlen. unfold s, r, _create_chronological_mapping. simpl.
  fold st. split; [lia|]. split; [lia|]. split; [done|]. lia.
Qed.

End ValidationFacts.

Module ScenarioFacts.
Import Analyzer Scenario DivergenceFacts MappingFacts.

Example scenario_alignment :
  _create_chronological_mapping default_config pipeline_a pipeline_b mapping
  = ([(a0, b0); (a1, b2)], []).
Proof. vm_compute. reflexivity. Qed.


(** The scenario of the specification: at the second pair the contents
    differ, so the scan reports index 1 with the first pair as the last
    common one, having opened the four files of the two pairs; with equal
    contents it reports no divergence. *)
Lemma find_first_divergence_scenario :
  _find_first_divergence default_config contents [(a0, b0); (a1, b2)] []
  = (Returned (Divergence 1 a1 b2 (Some 0) (Some a0) (Some b0)
                 ("ret i32 0" : list ascii) ("ret i32 1" : list ascii)),
     [file_path a0; file_path b0; file_path a1; file_path b2])
  /\
  _find_first_divergence default_config contents [(a0, b0)] []
  = (Returned NoDivergence, [file_path a0; file_path b0]).
Proof.
  split.
  - refine (proj1 (find_first_divergence_first_mismatch
                     default_config contents [(a0, b0); (a1, b2)])
                  1 (a1, b2) ("ret i32 0" : list ascii) ("ret i32 1" : list ascii)
                  _ _ _ _).
    + reflexivity.
    + constructor; [|constructor].
      exists ("%temp_0 = add i32 %temp_1, 1" : list ascii).
      exists ("  %x = add i32 %a, 1" : list ascii), ("  %y = add i32 %b, 1" : list ascii).
      repeat split; vm_compute; reflexivity.
    + exists ("  ret i32 0" : list ascii), ("  ret i32 1" : list ascii).
      repeat split; vm_compute; reflexivity.
    + vm_compute. discriminate.
  - refine (proj2 (find_first_divergence_first_mismatch
                     default_config contents [(a0, b0)]) _).
    constructor; [|constructor].
    exists ("%temp_0 = add i32 %temp_1, 1" : list ascii).
    exists ("  %x = add i32 %a, 1" : list ascii), ("  %y = add i32 %b, 1" : list ascii).
    repeat split; vm_compute; reflexivity.
Defined.

(** The scenario of the specification: the loop selects the positions 0
    and 2 of the B sequence. *)
Lemma alignment_scenario_monotonic :
  exists b_indices : list nat,
    Forall2 (fun i q => pipeline_b !! i = Some q.2) b_indices
      (_create_chronological_mapping default_config pipeline_a pipeline_b mapping).1 /\
    used_npm_indices (mapping_loop default_config pipeline_a pipeline_b mapping)
      = list_to_set b_indices /\
    (forall k x y, b_indices !! k = Some x -> b_indices !! S k = Some y -> x < y) /\
    NoDup b_indices /\
    ((forall i d, pipeline_b !! i = Some d -> pass_index d = i) ->
     map (fun q => pass_index q.2)
       (_create_chronological_mapping default_config pipeline_a pipeline_b mapping).1
     = b_indices).
Proof.
  exact (alignment_monotonic_no_reuse default_config pipeline_a pipeline_b mapping).
Defined.

Example alignment_scenario_indices :
  map (fun q => pass_index q.2)
    (_create_chronological_mapping default_config pipeline_a pipeline_b mapping).1
  = [0; 2].
Proof. vm_compute. reflexivity. Qed.

Lemma pipeline_a_NoDup : NoDup pipeline_a.
Proof.
  apply (bool_decide_unpack _). vm_compute. exact I.
Defined.

(** With [InstCombine] excluded on the A side, the unmatched list is
    what the theorem says for the scenario. *)
Lemma unmatched_scenario :
  let result :=
    _create_chronological_mapping (with_exclusions ["InstCombine" : list ascii] [])
      pipeline_a pipeline_b mapping in
  result.2 =
    map pass_name
      (filter (fun a => is_excluded (with_exclusions ["InstCombine" : list ascii] []) mapping a = false
                        /\ a ∉ result.1.*1)
              pipeline_a)
  /\
  (forall a, a ∈ pipeline_a ->
     is_excluded (with_exclusions ["InstCombine" : list ascii] []) mapping a = true ->
     (a ∉ result.1.*1) /\ (pass_name a ∉ result.2)).
Proof.
  exact (unmatched_are_the_unexcluded_unpaired
           (with_exclusions ["InstCombine" : list ascii] [])
           pipeline_a pipeline_b mapping pipeline_a_NoDup).
Defined.

(** C6 fails as stated: with the first record excluded by name and the
    second by the name it maps to, no record is emitted in a pair and the
    returned unmatched list is empty. *)
Lemma excluded_records_are_not_returned :
  _create_chronological_mapping
    (with_exclusions ["InstCombine" : list ascii] ["early-cse" : list ascii])
    pipeline_a pipeline_b mapping
  = ([], []).
Proof. vm_compute. reflexivity. Qed.

End ScenarioFacts.

Module ParserExamples.
Import Text Parser ParserFacts Scenario.

(** C3 on the code: the content of the last pass stops one line short of
    the end of the input.  For a last header on line [ln], the content is
    made of the lines after it without the last line of the input.  On a
    dump with two passes the first pass gets its line [a1]; the second
    gets [b1] and loses [b2], in both dialects, on a system that
    refuses no file. *)
Theorem extraction_drops_the_last_line :
  (forall lines ln, ln < length lines ->
     _extract_ir_content lines (ln + 1) (length lines)
     = concat (map (fun line => rstrip line ++ [newline]) (removelast (drop ln lines))))
  /\
  extract_legacy_dumps (fun _ _ => true) two_passes (Path "out") ∅
  = Done
      ([ {| pass_name := "first"; pass_index := 0; file_path := "out/000_first.ll" |};
         {| pass_name := "second"; pass_index := 1; file_path := "out/001_second.ll" |} ],
       <[("out/000_first.ll" : list ascii) := "a1" ++ nl]>
         (<[("out/001_second.ll" : list ascii) := "b1" ++ nl]> ∅))
  /\
  extract_npm_dumps (fun _ _ => true) two_passes_npm (Path "out") ∅
  = Done
      ([ {| pass_name := "first"; pass_index := 0; file_path := "out/000_first.ll" |};
         {| pass_name := "second"; pass_index := 1; file_path := "out/001_second.ll" |} ],
       <[("out/000_first.ll" : list ascii) := "a1" ++ nl]>
         (<[("out/001_second.ll" : list ascii) := "b1" ++ nl]> ∅)).
Proof.
  split; [apply last_span_one_line_short|].
  split; vm_compute; reflexivity.
Qed.

(** A prefixed banner of the bracketed dialect, and the same without the
    prefix *)
Lemma legacy_header_prefix_example :
  described (legacy_header 1
     (("  " : list ascii) ++ (if true then ["#"%char] else []) ++ (" " : list ascii)
      ++ legacy_banner ++ ("Early CSE (early-cse) ***:" : list ascii)))
  = described (legacy_header 1 (legacy_banner ++ ("Early CSE (early-cse) ***:" : list ascii))).
Proof.
  apply (legacy_header_tolerates_prefix "  " " " true "Early CSE (early-cse) ***:" 1).
  - repeat constructor.
  - repeat constructor.
Defined.

(** C7 fails as stated.  In the semicolon dialect a banner is recognized
    at the first column and not after a space; in the bracketed dialect a
    banner is recognized with no prefix and not after two hash markers. *)
Lemma prefixed_banners_not_recognized :
  described (npm_header 1 "; *** IR Dump After InstCombinePass on foo ***")
    = Some ("InstCombinePass" : list ascii, "function" : list ascii, "foo" : list ascii)
  /\ npm_header 1 " ; *** IR Dump After InstCombinePass on foo ***" = None
  /\ described (legacy_header 1 "*** IR Dump After Early CSE (early-cse) ***")
    = Some ("early-cse" : list ascii, "unknown" : list ascii, "unknown" : list ascii)
  /\ legacy_header 1 "## *** IR Dump After Early CSE (early-cse) ***" = None.
Proof. repeat split; vm_compute; reflexivity. Qed.

End ParserExamples.

Module NormalizerExamples.
Import Text Normalizer NormalizerView Scenario NormalizerFacts TempVars NumberedFacts RunsFacts.

(** C4 on the code.  [block_b] is [block_a] with its two temporaries
    renamed, and under the default options, which rename temporaries and
    labels, the two normalize to different texts: the numbered
    temporaries stay as they are.  So do the tails of [%call.i] and
    [%call.j], names that the comment of the pattern lists. *)
Theorem renamed_blocks_normalize_differently :
  block_b = replace "%x" "%y" (replace "%1" "%2" block_a)
  /\
  normalize default_config block_a
    = "%1 = add i32 %temp_0, 1" ++ nl ++ "ret i32 %1"
  /\
  normalize default_config block_b
    = "%2 = add i32 %temp_0, 1" ++ nl ++ "ret i32 %2"
  /\
  normalize default_config "%call.i = call i32 @f()" = "%temp_0i = call i32 @f()"
  /\
  normalize default_config "%call.j = call i32 @f()" = "%temp_0j = call i32 @f()".
Proof. repeat split; vm_compute; reflexivity. Qed.

(** C5 fails as stated.  Under the default options the text
    [%call.i = call i32 @f()] normalizes to a text that normalizes to
    another one.  Each of the three options that the amended statement
    disables breaks idempotence alone: the renaming of temporaries, the
    renaming of labels, the removal of debug information. *)
Lemma normalize_not_idempotent :
  (normalize default_config "%call.i = call i32 @f()" = "%temp_0i = call i32 @f()"
   /\ normalize default_config "%temp_0i = call i32 @f()" = "%temp_0 = call i32 @f()")
  /\
  (normalize (options false false true false false false false) "%a.b" = "%temp_0b"
   /\ normalize (options false false true false false false false) "%temp_0b" = "%temp_0")
  /\
  (normalize (options false false false true false false false) ("a.:" ++ nl ++ "a.b:")
     = "label_0:" ++ nl ++ "label_0b:"
   /\ normalize (options false false false true false false false)
        ("label_0:" ++ nl ++ "label_0b:")
     = "label_0:" ++ nl ++ "label_1:")
  /\
  (normalize (options false false false false false true false) "ret void, !dbg , !dbg !1!2"
     = "ret void, !dbg !2"
   /\ normalize (options false false false false false true false) "ret void, !dbg !2"
     = "ret void").
Proof. repeat split; vm_compute; reflexivity. Qed.

(** With comments removed, white space normalized and metadata dropped,
    normalizing twice is normalizing once. *)
Lemma normalize_idempotent_example :
  normalize (options true true false false true false true)
    (normalize (options true true false false true false true)
       ("  ret   i32 0 ; done" ++ nl ++ "!0 = !{}"))
  = normalize (options true true false false true false true)
      ("  ret   i32 0 ; done" ++ nl ++ "!0 = !{}").
Proof.
  apply (normalize_idempotent_without_renaming
           (options true true false false true false true)).
  repeat split; reflexivity.
Defined.

(** C8 fails as stated.  With every option disabled, the blank second
    line of the input is not in the output. *)
Lemma blank_line_dropped_with_option_disabled :
  normalize (options false false false false false false false)
    ("a" ++ nl ++ nl ++ "b")
  = "a" ++ nl ++ "b".
Proof. vm_compute. reflexivity. Qed.

(** The numbered temporary [%12] between two named ones *)
Lemma numbered_temporary_example :
  temp_var_pattern None ("%"%char :: "1"%char :: ["2"%char] ++ (", %y" : list ascii)) = None
  /\
  _normalize_temp_vars
    (("%x = add i32 " : list ascii) ++ "%"%char :: "1"%char :: ["2"%char] ++ (", %y" : list ascii))
    0 [] =
    (let '(o1, c1, m1) := _normalize_temp_vars "%x = add i32 " 0 [] in
     let '(o2, c2, m2) := _normalize_temp_vars ", %y" c1 m1 in
     (o1 ++ "%"%char :: "1"%char :: ["2"%char] ++ o2, c2, m2))
  /\
  (forall prev s n, temp_var_pattern prev s = Some n ->
     exists c s1, s = "%"%char :: c :: s1 /\ is_name_start c = true)
  /\
  (forall config text, numbered text ->
     normalize config text = normalize (with_ignore_temp_vars false config) text)
  /\
  (forall config text,
     exists kept,
       kept `sublist_of` split_lines text /\
       Forall2 (fun out line =>
                  is_skipped config line = false /\
                  percent_runs out = percent_runs (before_comment config line))
               (normalize_lines config text) kept)
  /\
  (forall config text,
     percent_runs (normalize config text)
     = concat (percent_runs <$>
                 (before_comment config <$>
                    List.filter (fun l => negb (is_skipped config l)) (split_lines text)))).
Proof.
  apply (numbered_temporaries_keep_their_digits
           "%x = add i32 " ", %y" "1"%char ["2"%char] 0 []).
  repeat constructor.
Defined.

(** C10 fails as stated.  After the label [a:], the name [%1.a], which
    begins with a digit, leaves [normalize] as [%1.label_0] under the
    default options: the stage that replaces the references to labels
    rewrites what follows the digits.  The digits themselves are kept. *)
Lemma numbered_name_changed_by_label :
  normalize default_config labelled_block
  = "label_0:" ++ nl ++ "%1.label_0 = add i32 %1, 1"
  /\
  percent_runs (normalize default_config labelled_block)
  = [("1" : list ascii); ("1" : list ascii)].
Proof. vm_compute. split; reflexivity. Qed.

(** C9 on two stores.  A new normalizer that has normalized another text
    before, and a normalizer with other logging and exclusion settings
    next to a dictionary in use, return the same text, the one of the
    function of the text and the options. *)
Lemma normalize_deterministic_example :
  Store.result
    (Store.normalize 0 "%c = add i32 %d, 1"
       (Store.after_calls 0 [("%a = add i32 %b, 1" : list ascii)] fresh_store))
  = Some (normalize default_config "%c = add i32 %d, 1")
  /\
  Store.result
    (Store.normalize 1 "%c = add i32 %d, 1" (Store.after_calls 1 [] used_store))
  = Store.result
      (Store.normalize 0 "%c = add i32 %d, 1"
         (Store.after_calls 0 [("%a = add i32 %b, 1" : list ascii)] fresh_store))
  /\
  (forall st',
     snd <$> Store.normalize 0 "%c = add i32 %d, 1" fresh_store = Some st' ->
     length st' = length fresh_store + 2 /\
     forall a, a < length fresh_store -> st' !! a = fresh_store !! a).
Proof.
  apply (StoreFacts.normalize_deterministic fresh_store used_store 0 1
           default_config verbose_config
           [("%a = add i32 %b, 1" : list ascii)] [] "%c = add i32 %d, 1").
  - reflexivity.
  - reflexivity.
  - vm_compute. repeat split.
Defined.

Example deterministic_value :
  Store.normalize 0 "%c = add i32 %d, 1"
    (Store.after_calls 0 [("%a = add i32 %b, 1" : list ascii)] fresh_store)
  = Some ("%temp_0 = add i32 %temp_1, 1" : list ascii,
          [Store.NormalizerObject default_config;
           Store.DictObject [("%a" : list ascii, "%temp_0" : list ascii);
                             ("%b" : list ascii, "%temp_1" : list ascii)];
           Store.DictObject [];
           Store.DictObject [("%c" : list ascii, "%temp_0" : list ascii);
                             ("%d" : list ascii, "%temp_1" : list ascii)];
           Store.DictObject []]).
Proof. vm_compute. reflexivity. Qed.

Example numbered_temporary_value :
  _normalize_temp_vars "%x = add i32 %12, %y" 0 []
  = ("%temp_0 = add i32 %12, %temp_1" : list ascii, 2,
     [("%x" : list ascii, "%temp_0" : list ascii); ("%y" : list ascii, "%temp_1" : list ascii)]).
Proof. vm_compute. reflexivity. Qed.

Example numbered_block_unchanged :
  normalize default_config "%1 = add i32 %0, 1" = "%1 = add i32 %0, 1".
Proof. vm_compute. reflexivity. Qed.

End NormalizerExamples.

(** ** Banners and identifiers, on examples *)

Module ParserExtraExamples.
Import Text Parser ParserView ParserExtra.

(** The example of the docstring of [_extract_last_parentheses] *)
Lemma last_parentheses_example :
  _extract_last_parentheses
    (("Instrument function entry/exit (post inlining) " : list ascii)
     ++ "(" ++ ("post-inline-ee-instrument" : list ascii) ++ ")" ++ [])
  = strip "post-inline-ee-instrument".
Proof.
  apply (last_parentheses_are_the_identifier
           "Instrument function entry/exit (post inlining) "
           "post-inline-ee-instrument" []).
  - simpl. repeat split; try (intros E; discriminate E).
    intros _. apply (bool_decide_unpack _). vm_compute. reflexivity.
  - done.
  - repeat constructor; done.
  - constructor.
Defined.

Lemma no_parentheses_example :
  _extract_last_parentheses " early-cse " = strip " early-cse ".
Proof.
  apply (no_parentheses_whole_text " early-cse ").
  repeat constructor; done.
Defined.

Lemma npm_banner_example :
  npm_header 7 ((npm_banner ++ ("LoopRotatePass" : list ascii) ++ " on "
                 ++ ("Loop at depth 1" : list ascii) ++ banner_end) ++ [newline])
  = Some {| hdr_pass_name := "LoopRotatePass";
            original_line := "; *** IR Dump After LoopRotatePass on Loop at depth 1 ***";
            line_number := 7;
            dump_type := "function";
            target := "Loop at depth 1" |}.
Proof.
  apply (npm_banner_recognized 7 "LoopRotatePass" "Loop at depth 1" [newline]).
  - done.
  - repeat constructor; done.
  - done.
  - repeat constructor; done.
  - repeat constructor; done.
Defined.

Lemma legacy_banner_example :
  legacy_header 3
    (((" " : list ascii) ++ (if true then ["#"%char] else []) ++ (" " : list ascii)
      ++ legacy_banner
      ++ (("Early CSE" : list ascii) ++ " (" ++ ("early-cse" : list ascii) ++ ")")
      ++ banner_end ++ (if true then ":" else []))
     ++ [newline])
  = Some {| hdr_pass_name := strip "early-cse";
            original_line := " # *** IR Dump After Early CSE (early-cse) ***:";
            line_number := 3;
            dump_type := "unknown";
            target := "unknown" |}.
Proof.
  apply (legacy_banner_recognized 3 " " " " true true "Early CSE" "early-cse" [newline]).
  - repeat constructor; done.
  - repeat constructor; done.
  - repeat constructor; done.
  - repeat constructor; done.
  - simpl. repeat split; intros E; discriminate E.
  - done.
  - repeat constructor; done.
Defined.

End ParserExtraExamples.

(** ** The normalizer, on examples *)

Module NormalizerExtraExamples.
Import Text Normalizer NormalizerView NormalizerExtra.

Lemma skipped_lines_example :
  normalize default_config
    (join_lines [("  " : list ascii); ("!0 = !{}" : list ascii); ("ret void" : list ascii)])
  = normalize default_config
      (join_lines (List.filter (fun l => negb (is_skipped default_config l))
         [("  " : list ascii); ("!0 = !{}" : list ascii); ("ret void" : list ascii)])).
Proof.
  apply (skipped_lines_are_invisible default_config
           [("  " : list ascii); ("!0 = !{}" : list ascii); ("ret void" : list ascii)]).
  repeat constructor.
Defined.

Lemma comments_example :
  normalize (Scenario.options true true true true true true true)
    (join_lines (map (fun p => p.1 ++ ";"%char :: p.2)
       [(("  ret void " : list ascii), (" the end" : list ascii));
        ((" ; only" : list ascii), ("; a comment" : list ascii))]))
  = normalize (Scenario.options true true true true true true true)
      (join_lines (map fst
         [(("  ret void " : list ascii), (" the end" : list ascii));
          ((" ; only" : list ascii), ("; a comment" : list ascii))])).
Proof.
  apply (comments_are_invisible (Scenario.options true true true true true true true)
           [(("  ret void " : list ascii), (" the end" : list ascii));
            ((" ; only" : list ascii), ("; a comment" : list ascii))]).
  - reflexivity.
  - repeat constructor.
Defined.

End NormalizerExtraExamples.
